(** * campoy/mat: a verification development for [mat.go]

    The Go package implements dense row-major matrices of [float64] over a
    flat backing slice.  This file embeds the package in Rocq and proves
    properties of its public operations.

    Modelling choices, all taken from the source:

    - Go's [int] is the 64-bit two's-complement integer of the usual
      platforms: a [Z] together with the wrap-around [wrap] applied after
      every [+], [-] and [*] of the source.
    - [float64] is Rocq's primitive binary64 float, so that [==] on cells is
      IEEE equality ([PrimFloat.eqb]) and [+], [*] round as the hardware
      does; [p += x * y] is a rounded product followed by a rounded sum (the
      compiler does not fuse them on amd64).
    - A [Matrix] is a struct passed by value whose [data] field is a slice:
      a reference into a heap of backing arrays.  The heap is the [store];
      a slice is the location of its backing array.  Operations are
      computations in a state-and-panic monad over the store, so that
      writes through an aliased slice are visible to every holder.
    - A Go [panic] aborts the computation with the value it was raised with.
    - [make] panics for a negative length or capacity and for one beyond
      the limit of the run time, [2^45] cells of 8 bytes on the 64-bit
      platform taken here.  Within the limit allocation succeeds, and so
      does the growth of a slice by [append]: running out of memory is
      outside the model.
    - The functions passed to [FromFunc], [Apply], [Map], [Reduce] and
      [FilterRows] are pure.
    - Names are those of the source, except [at_] and [Set_] for the
      method [at] and the method [Set], which are reserved words here. *)

From Stdlib Require Import ZArith Floats Lia.
From stdpp Require Import base tactics numbers option list.

Local Open Scope Z_scope.

(** ** Machine integers *)

Definition int_min : Z := - 2 ^ 63.
Definition int_max : Z := 2 ^ 63 - 1.

(** The value a 64-bit signed register holds after computing [z]. *)
Definition wrap (z : Z) : Z := (z + 2 ^ 63) `mod` 2 ^ 64 - 2 ^ 63.

Definition int_add (x y : Z) : Z := wrap (x + y).
Definition int_sub (x y : Z) : Z := wrap (x - y).
Definition int_mul (x y : Z) : Z := wrap (x * y).

Definition is_int (z : Z) : Prop := int_min ≤ z ≤ int_max.

(** ** Cells *)

Abbreviation float64 := PrimFloat.float.

Definition fzero : float64 := 0%float.
Definition fadd (x y : float64) : float64 := PrimFloat.add x y.
Definition fsub (x y : float64) : float64 := PrimFloat.sub x y.
Definition fmul (x y : float64) : float64 := PrimFloat.mul x y.
(** Go's [x == y] on float64. *)
Definition feq (x y : float64) : bool := PrimFloat.eqb x y.

(** ** The heap of backing arrays *)

Abbreviation loc := nat (only parsing).
Abbreviation store := (list (list float64)) (only parsing).

(** The backing array a slice refers to; a slice that refers to nothing is
    Go's nil slice, of length zero. *)
Definition buf (σ : store) (p : loc) : list float64 := default [] (σ !! p).

(** [len(s)]. *)
Definition len {A} (b : list A) : Z := Z.of_nat (length b).

(** ** Panics *)

(** The values the package panics with, and the run-time errors of the
    language that its unchecked paths can raise. *)
Inductive panic_value : Type :=
  | PanicMismatchedData (rows cols n : Z)
      (* "missmatched dimensions and data: %d x %d != %d" *)
  | PanicElementOutOfRange (i j : Z)
      (* "element (%d, %d) is out of range" *)
  | PanicEmptyConcat
      (* "can't concatenate an empty list of matrices" *)
  | PanicConcatColsRows
      (* "can't concatenate columns on matrices with different number of rows" *)
  | PanicConcatRowsCols
      (* "can't concatenate rows on matrices with different number of cols" *)
  | PanicBadRowNumbers
      (* "bad row numbers" *)
  | PanicProductDims (ar ac br bc : Z)
      (* "can't compute product of matrices with dimensions %dx%d and %dx%d" *)
  | PanicDotApplyDims (ar ac br bc : Z)
      (* "can't compute dot application of matrices with dimensions ..." *)
  | RuntimeIndexOutOfRange
      (* runtime error: index out of range *)
  | RuntimeSliceBounds
      (* runtime error: slice bounds out of range *)
  | RuntimeMakeSliceLen
      (* runtime error: makeslice: len out of range *)
  | RuntimeMakeSliceCap
      (* runtime error: makeslice: cap out of range *)
  | PanicExternal
      (* a panic raised inside the external BLAS routine *).

(** The error taxonomy of the specification, and where each panic falls. *)
Inductive error_kind : Type :=
  | DimensionMismatch
  | IndexOutOfRange
  | InvalidRange
  | EmptyInput
  | RuntimeError.

Definition classify (e : panic_value) : error_kind :=
  match e with
  | PanicMismatchedData _ _ _ => DimensionMismatch
  | PanicElementOutOfRange _ _ => IndexOutOfRange
  | PanicEmptyConcat => EmptyInput
  | PanicConcatColsRows => DimensionMismatch
  | PanicConcatRowsCols => DimensionMismatch
  | PanicBadRowNumbers => InvalidRange
  | PanicProductDims _ _ _ _ => DimensionMismatch
  | PanicDotApplyDims _ _ _ _ => DimensionMismatch
  | RuntimeIndexOutOfRange => RuntimeError
  | RuntimeSliceBounds => RuntimeError
  | RuntimeMakeSliceLen => RuntimeError
  | RuntimeMakeSliceCap => RuntimeError
  | PanicExternal => RuntimeError
  end.

(** ** The monad of store-passing computations that may panic *)

Inductive outcome (A : Type) : Type :=
  | Ok (a : A)
  | Panic (e : panic_value).
Arguments Ok {A} a.
Arguments Panic {A} e.

Definition M (A : Type) : Type := store → outcome (A * store).

Definition ret {A} (a : A) : M A := λ σ, Ok (a, σ).
Definition bind {A B} (m : M A) (k : A → M B) : M B :=
  λ σ, match m σ with
       | Ok (a, σ') => k a σ'
       | Panic e => Panic e
       end.
Definition panic {A} (e : panic_value) : M A := λ _, Panic e.

Declare Scope go_scope.
Delimit Scope go_scope with go.
Notation "x <- c1 ;; c2" := (bind c1 (λ x, c2))
  (at level 100, c1 at next level, right associativity) : go_scope.
Notation "c1 ;; c2" := (bind c1 (λ _, c2))
  (at level 100, right associativity) : go_scope.
Local Open Scope go_scope.

(** Monadic left fold: the body of a [range] loop over a Go slice of values,
    threading the loop-carried variables [s]. *)
Fixpoint foldM {S X} (body : S → X → M S) (s : S) (l : list X) : M S :=
  match l with
  | [] => ret s
  | x :: l' => s' <- body s x ;; foldM body s' l'
  end.

(** [for i := 0; i < n; i++ { s = body i s }]: the counter visits
    [0, 1, ..., n-1] (nothing when [n <= 0]). *)
Definition ForAcc {S} (n : Z) (body : Z → S → M S) (s : S) : M S :=
  foldM (λ s i, body i s) s (seqZ 0 n).

Definition For (n : Z) (body : Z → M unit) : M unit :=
  ForAcc n (λ i _, body i) tt.

(** A loop whose body may [return r] from the enclosing function:
    [Some r] stops the iteration. *)
Fixpoint foldRet {R X} (body : X → M (option R)) (l : list X) : M (option R) :=
  match l with
  | [] => ret None
  | x :: l' =>
      r <- body x ;;
      match r with
      | Some v => ret (Some v)
      | None => foldRet body l'
      end
  end.

(** ** Slice primitives *)

(** The most cells a [[]float64] can have.  The run time refuses to
    allocate more than [maxAlloc] bytes, [2^48] on the 64-bit platform
    taken here, and a cell takes 8 of them: [make] panics for a length or
    a capacity beyond [2^45]. *)
Definition max_len : Z := 2 ^ 45.

(** [make([]float64, n)] *)
Definition makeslice (n : Z) : M loc :=
  λ σ, if decide (n < 0 ∨ max_len < n) then Panic RuntimeMakeSliceLen
       else Ok (length σ, σ ++ [replicate (Z.to_nat n) fzero]).

(** [make([]float64, 0, c)]: an empty slice that the function then grows
    with [append].  The slice is local to the function until it is stored
    in the returned struct, so its contents are carried as a list. *)
Definition makeslice_cap (c : Z) : M (list float64) :=
  λ σ, if decide (c < 0 ∨ max_len < c) then Panic RuntimeMakeSliceCap
       else Ok ([], σ).

(** A locally built slice becomes the [data] of a struct: its backing array
    is a new object of the heap. *)
Definition publish (b : list float64) : M loc :=
  λ σ, Ok (length σ, σ ++ [b]).

(** [len(s)] *)
Definition slice_len (p : loc) : M Z := λ σ, Ok (len (buf σ p), σ).

(** [s[i]] as a value. *)
Definition index (p : loc) (i : Z) : M float64 :=
  λ σ, if decide (0 ≤ i < len (buf σ p))
       then Ok (default fzero (buf σ p !! Z.to_nat i), σ)
       else Panic RuntimeIndexOutOfRange.

(** [s[i] = x] *)
Definition assign (p : loc) (i : Z) (x : float64) : M unit :=
  λ σ, if decide (0 ≤ i < len (buf σ p))
       then Ok (tt, <[p := <[Z.to_nat i := x]> (buf σ p)]> σ)
       else Panic RuntimeIndexOutOfRange.

(** The elements of [s[lo:hi]].  The run time checks [hi] against the
    capacity of [s]; the model takes the capacity of a buffer to be its
    length.  The two differ only after [append] has grown a slice, and then
    only for slice expressions that reach past the length, which a matrix
    of the data model never evaluates. *)
Definition subslice (p : loc) (lo hi : Z) : M (list float64) :=
  λ σ, if decide (0 ≤ lo ∧ lo ≤ hi ∧ hi ≤ len (buf σ p))
       then Ok (take (Z.to_nat (hi - lo)) (drop (Z.to_nat lo) (buf σ p)), σ)
       else Panic RuntimeSliceBounds.

(** The elements of [s], as in [append(d, s...)]. *)
Definition elements (p : loc) : M (list float64) := λ σ, Ok (buf σ p, σ).

(** [copy(dst, src)]: the first [min(len(dst), len(src))] elements. *)
Definition copy_list (dst : loc) (src : list float64) : M unit :=
  λ σ, let d := buf σ dst in
       let n := (length d `min` length src)%nat in
       Ok (tt, <[dst := take n src ++ drop n d]> σ).

Definition copy (dst src : loc) : M unit :=
  λ σ, copy_list dst (buf σ src) σ.

(** ** The matrix *)

Record Matrix : Type := mkMatrix { rows : Z; cols : Z; data : loc }.

(** [New] *)
Definition New (rows cols : Z) : M Matrix :=
  d <- makeslice (int_mul rows cols) ;;
  ret (mkMatrix rows cols d).

(** [FromSlice]: the caller's slice is copied. *)
Definition FromSlice (rows cols : Z) (data : loc) : M Matrix :=
  n <- slice_len data ;;
  if decide (n ≠ int_mul rows cols)
  then panic (PanicMismatchedData rows cols n)
  else
    c <- makeslice n ;;
    copy c data ;;
    ret (mkMatrix rows cols c).

Definition ToSlice (m : Matrix) : loc := data m.

Definition Rows (m : Matrix) : Z := rows m.
Definition Cols (m : Matrix) : Z := cols m.

Definition checkPos (m : Matrix) (i j : Z) : M unit :=
  if decide (i < 0 ∨ i >= rows m ∨ j < 0 ∨ j >= cols m)
  then panic (PanicElementOutOfRange i j)
  else ret tt.

(** [m.at(i, j)] and [m.set(i, j, x)]: unchecked row-major access. *)
Definition at_ (m : Matrix) (i j : Z) : M float64 :=
  index (data m) (int_add (int_mul (cols m) i) j).

Definition set (m : Matrix) (i j : Z) (x : float64) : M unit :=
  assign (data m) (int_add (int_mul (cols m) i) j) x.

Definition At (m : Matrix) (i j : Z) : M float64 :=
  checkPos m i j ;; at_ m i j.

(** [FromFunc]; the generator is a pure function of the position. *)
Definition FromFunc (rows cols : Z) (f : Z → Z → float64) : M Matrix :=
  d <- makeslice (int_mul rows cols) ;;
  let m := mkMatrix rows cols d in
  For rows (λ i, For cols (λ j, set m i j (f i j))) ;;
  ret m.

Definition Clone (m : Matrix) : M Matrix :=
  c <- New (rows m) (cols m) ;;
  copy (data c) (data m) ;;
  ret c.

(** [Apply] has a value receiver and no result: the struct is copied, its
    slice still refers to the receiver's backing array. *)
Definition Apply (m : Matrix) (f : Z → Z → float64) : M unit :=
  For (rows m) (λ i, For (cols m) (λ j, set m i j (f i j))).

(** [Set] *)
Definition Set_ (m : Matrix) (i j : Z) (x : float64) : M Matrix :=
  checkPos m i j ;;
  r <- Clone m ;;
  set r i j x ;;
  ret r.

(** [Map]: [for i, v := range r.data { r.data[i] = f(v) }] *)
Definition Map (f : float64 → float64) (m : Matrix) : M Matrix :=
  r <- Clone m ;;
  n <- slice_len (data r) ;;
  For n (λ i, v <- index (data r) i ;; assign (data r) i (f v)) ;;
  ret r.

Definition Scale (m : Matrix) (x : float64) : M Matrix :=
  Map (λ v, fmul x v) m.

Definition AddScalar (m : Matrix) (x : float64) : M Matrix :=
  Map (λ v, fadd x v) m.

Definition ConcatenateCols (ms : list Matrix) : M Matrix :=
  match ms with
  | [] => panic PanicEmptyConcat
  | m0 :: _ =>
      let nrows := Rows m0 in
      ncols <- foldM (λ ncols m,
                 if decide (nrows ≠ Rows m) then panic PanicConcatColsRows
                 else ret (int_add ncols (Cols m))) 0 ms ;;
      d <- makeslice_cap (int_mul nrows ncols) ;;
      d <- ForAcc nrows (λ i d,
             foldM (λ d m,
                seg <- subslice (data m) (int_mul i (cols m))
                                         (int_mul (int_add i 1) (cols m)) ;;
                ret (d ++ seg)) d ms) d ;;
      p <- publish d ;;
      ret (mkMatrix nrows ncols p)
  end.

Definition ConcatenateRows (ms : list Matrix) : M Matrix :=
  match ms with
  | [] => panic PanicEmptyConcat
  | m0 :: _ =>
      let ncols := Cols m0 in
      nrows <- foldM (λ nrows m,
                 if decide (ncols ≠ Cols m) then panic PanicConcatRowsCols
                 else ret (int_add nrows (Rows m))) 0 ms ;;
      d <- makeslice_cap (int_mul nrows ncols) ;;
      d <- foldM (λ d m,
             whole <- elements (data m) ;;
             ret (d ++ whole)) d ms ;;
      p <- publish d ;;
      ret (mkMatrix nrows ncols p)
  end.

Definition SliceCols (m : Matrix) (from to : Z) : M Matrix :=
  if decide (from < 0 ∨ to > cols m ∨ to < from)
  then panic PanicBadRowNumbers
  else
    d <- makeslice_cap (int_mul (rows m) (int_sub to from)) ;;
    d <- ForAcc (rows m) (λ i d,
           seg <- subslice (data m) (int_add (int_mul i (cols m)) from)
                                    (int_add (int_mul i (cols m)) to) ;;
           ret (d ++ seg)) d ;;
    p <- publish d ;;
    ret (mkMatrix (rows m) (int_sub to from) p).

Definition SliceRows (m : Matrix) (from to : Z) : M Matrix :=
  if decide (from < 0 ∨ to > rows m ∨ to < from)
  then panic PanicBadRowNumbers
  else
    d <- makeslice (int_mul (cols m) (int_sub to from)) ;;
    seg <- subslice (data m) (int_mul from (cols m)) (int_mul to (cols m)) ;;
    copy_list d seg ;;
    ret (mkMatrix (int_sub to from) (cols m) d).

(** [Reduce]; [f] is a pure function. *)
Definition Reduce (m : Matrix) (zero : float64)
    (f : float64 → float64 → float64) : M float64 :=
  n <- slice_len (data m) ;;
  ForAcc n (λ i cum, x <- index (data m) i ;; ret (f x cum)) zero.

Definition Sum (m : Matrix) : M float64 :=
  Reduce m fzero (λ x cum, fadd x cum).

(** [FilterRows]: [var data []float64] starts as the nil slice; the loop
    carries the pair of [rows] and [data]. *)
Definition FilterRows (m : Matrix) (f : Z → bool) : M Matrix :=
  let ncols := Cols m in
  rd <- ForAcc (rows m) (λ i rd,
          if f i then
            seg <- subslice (data m) (int_mul i ncols)
                                     (int_mul (int_add i 1) (cols m)) ;;
            ret (int_add rd.1 1, rd.2 ++ seg)
          else ret rd) (0, []) ;;
  p <- publish rd.2 ;;
  ret (mkMatrix rd.1 ncols p).

(** [T] *)
Definition T (m : Matrix) : M Matrix :=
  n <- slice_len (data m) ;;
  d <- makeslice n ;;
  let t := mkMatrix (cols m) (rows m) d in
  For (rows m) (λ i, For (cols m) (λ j,
    v <- at_ m i j ;; set t j i v)) ;;
  ret t.

(** [Equals] *)
Definition Equals (a b : Matrix) : M bool :=
  if decide (cols a ≠ cols b ∨ rows a ≠ rows b) then ret false
  else
    n <- slice_len (data a) ;;
    r <- foldRet (λ i,
           v <- index (data a) i ;;
           w <- index (data b) i ;;
           if negb (feq v w) then ret (Some false) else ret None)
         (seqZ 0 n) ;;
    ret (default true r).

(** The body of the two inner loops of [Product] for one cell of the
    result: accumulate over [k], then store. *)
Definition cell_step (a b c : Matrix) (i j : Z) : M unit :=
  p <- ForAcc (cols a) (λ k p,
         x <- at_ a i k ;;
         y <- at_ b k j ;;
         ret (fadd p (fmul x y))) fzero ;;
  set c i j p.

(** [Product] *)
Definition Product (a b : Matrix) : M Matrix :=
  if decide (cols a ≠ rows b)
  then panic (PanicProductDims (rows a) (cols a) (rows b) (cols b))
  else
    c <- New (rows a) (cols b) ;;
    For (rows a) (λ i, For (cols b) (λ j, cell_step a b c i j)) ;;
    ret c.

(** The goroutines of [ParallelProduct]: one per row [i], running the cell
    steps of that row in increasing [j].  The inputs are only read and each
    step writes one cell of [c] that no other goroutine touches, so an
    execution is an interleaving of the goroutines' steps.  A scheduler is
    the list of choices it makes: each entry names the goroutine that runs
    its next step (a choice naming a finished goroutine is void);
    [wg.Wait()] lets the remaining steps run before the function returns. *)
Fixpoint interleave {X} (sched : list nat) (pool : list (list X)) : list X :=
  match sched with
  | [] => mjoin pool
  | g :: sched' =>
      match pool !! g with
      | Some (x :: rest) => x :: interleave sched' (<[g := rest]> pool)
      | _ => interleave sched' pool
      end
  end.

Definition goroutines (a b : Matrix) : list (list (Z * Z)) :=
  (λ i, (λ j, (i, j)) <$> seqZ 0 (cols b)) <$> seqZ 0 (rows a).

Definition ParallelProduct (sched : list nat) (a b : Matrix) : M Matrix :=
  if decide (cols a ≠ rows b)
  then panic (PanicProductDims (rows a) (cols a) (rows b) (cols b))
  else
    c <- New (rows a) (cols b) ;;
    foldM (λ _ ij, cell_step a b c ij.1 ij.2) tt
          (interleave sched (goroutines a b)) ;;
    ret c.

(** The operand descriptor of the BLAS interface. *)
Record General : Type :=
  mkGeneral { gRows : Z; gCols : Z; gStride : Z; gData : loc }.

Definition generalFromMat (m : Matrix) : General :=
  {| gRows := Rows m; gCols := Cols m; gStride := Cols m; gData := ToSlice m |}.

Inductive Transpose : Type := NoTrans | Trans | ConjTrans.

(** [blas64.Gemm] belongs to an external library: [BlasProduct] is
    parameterised by it. *)
Definition gemm_type : Type :=
  Transpose → Transpose → float64 → General → General → float64 → General → M unit.

Definition BlasProduct (Gemm : gemm_type) (a b : Matrix) : M Matrix :=
  c <- New (Rows a) (Cols b) ;;
  Gemm NoTrans NoTrans 1%float (generalFromMat a) (generalFromMat b)
       0%float (generalFromMat c) ;;
  ret c.

(** Modelled from the spec: the external general matrix-multiply routine
    ([blas64.Gemm] of the gonum library, whose code is not part of this
    repository).  The specification describes it as [C = alpha*A*B + beta*C]
    over row-major operands given by row count, column count, row stride
    and flat buffer, writing its result into the buffer of [C].  As in the
    BLAS interface, the routine takes the result's row count and the inner
    dimension from [A] and the result's column count from [B]; the row
    count of [B] is not consulted.  Only the untransposed case that
    [BlasProduct] requests is modelled. *)
Definition Gemm_ref : gemm_type := λ _ _ alpha A B beta C,
  For (gRows A) (λ i, For (gCols B) (λ j,
    p <- ForAcc (gCols A) (λ l p,
           x <- index (gData A) (int_add (int_mul i (gStride A)) l) ;;
           y <- index (gData B) (int_add (int_mul l (gStride B)) j) ;;
           ret (fadd p (fmul x y))) fzero ;;
    old <- index (gData C) (int_add (int_mul i (gStride C)) j) ;;
    assign (gData C) (int_add (int_mul i (gStride C)) j)
           (fadd (fmul alpha p) (fmul beta old)))).

Definition dotApply (a b : Matrix) (f : float64 → float64 → float64) : M Matrix :=
  if decide (cols a ≠ cols b ∨ rows a ≠ rows b)
  then panic (PanicDotApplyDims (rows a) (cols a) (rows b) (cols b))
  else
    c <- New (rows a) (cols a) ;;
    For (rows a) (λ i, For (cols b) (λ j,
      x <- at_ a i j ;;
      y <- at_ b i j ;;
      set c i j (f x y))) ;;
    ret c.

Definition Dot (a b : Matrix) : M Matrix := dotApply a b (λ x y, fmul x y).
Definition Plus (a b : Matrix) : M Matrix := dotApply a b (λ x y, fadd x y).
Definition Minus (a b : Matrix) : M Matrix := dotApply a b (λ x y, fsub x y).

(** * The vocabulary of the statements *)

(** ** Well-formed matrices

    The data model of the package: non-negative dimensions that are Go
    ints, and an allocated buffer holding exactly [rows * cols] cells.
    The buffer is a slice that exists, so it holds no more cells than the
    run time allocates. *)
Record wf (σ : store) (m : Matrix) : Prop := mk_wf {
  wf_rows : 0 ≤ rows m ≤ int_max;
  wf_cols : 0 ≤ cols m ≤ int_max;
  wf_alloc : (data m < length σ)%nat;
  wf_len : len (buf σ (data m)) = rows m * cols m;
  wf_size : rows m * cols m ≤ max_len;
}.

(** The cell at row [i], column [j] of a row-major buffer of [ncols]
    columns. *)
Definition cell (b : list float64) (ncols i j : Z) : float64 :=
  default fzero (b !! Z.to_nat (i * ncols + j)).

(** The representation invariant as the specification words it. *)
Definition rep_inv (σ : store) (m : Matrix) : Prop :=
  len (buf σ (data m)) = rows m * cols m ∧
  ∀ i j, 0 ≤ i < rows m → 0 ≤ j < cols m →
    at_ m i j σ = Ok (cell (buf σ (data m)) (cols m) i j, σ).

(** The position pairs of an [nrows] by [ncols] grid in row-major order:
    the iteration space of the nested [for i ... for j ...] loops. *)
Definition cells (nrows ncols : Z) : list (Z * Z) :=
  mjoin ((λ i, (λ j, (i, j)) <$> seqZ 0 ncols) <$> seqZ 0 nrows).

(** The buffer after the writes [idx x := v x] for [x] over [l], in order. *)
Definition writes {X} (idx : X → nat) (v : X → float64)
    (b : list float64) (l : list X) : list float64 :=
  foldl (λ b x, <[idx x := v x]> b) b l.

(** The sum the innermost loop accumulates for cell [(i, j)]:
    [((0 + a(i,0)*b(0,j)) + a(i,1)*b(1,j)) + ...], in increasing [k]. *)
Definition inner_product (A B : list float64) (acols bcols i j : Z) : float64 :=
  foldl (λ p k, fadd p (fmul (cell A acols i k) (cell B bcols k j)))
        fzero (seqZ 0 acols).

(** The elements of [b[lo:hi]]. *)
Definition segment {A} (b : list A) (lo hi : Z) : list A :=
  take (Z.to_nat (hi - lo)) (drop (Z.to_nat lo) b).

(** Row [i] of the buffer of [m]: [m.data[i*m.cols:(i+1)*m.cols]]. *)
Definition row_of (σ : store) (m : Matrix) (i : Z) : list float64 :=
  segment (buf σ (data m)) (i * cols m) ((i + 1) * cols m).

(** The buffer [SliceCols] builds: the column range of every row. *)
Definition slice_cols (b : list float64) (nrows ncols from to : Z) : list float64 :=
  mjoin ((λ i, segment b (i * ncols + from) (i * ncols + to)) <$> seqZ 0 nrows).

(** The sum of a list of integers, without wrap-around. *)
Definition sumZ (l : list Z) : Z := foldr Z.add 0 l.
Global Arguments sumZ : simpl never.

(** The buffer [ConcatenateCols] builds: for every row, the rows of the
    inputs one after the other. *)
Definition concat_cols (σ : store) (ms : list Matrix) (nrows : Z) : list float64 :=
  mjoin ((λ i, mjoin ((λ m, row_of σ m i) <$> ms)) <$> seqZ 0 nrows).

(** The comparison [Equals] makes of two buffers: position by position over
    the length of the first. *)
Definition buffers_equal (A B : list float64) : bool :=
  forallb (λ k, feq (default fzero (A !! Z.to_nat k))
                    (default fzero (B !! Z.to_nat k)))
          (seqZ 0 (len A)).

(** What the package relies on from the routine: it returns having written
    only into the buffer of [C], whose length it cannot change. *)
Definition confined (c : loc) (σ σ' : store) : Prop :=
  length σ' = length σ ∧
  (∀ p, p ≠ c → σ' !! p = σ !! p) ∧
  length (buf σ' c) = length (buf σ c).

(** An external routine that is confined to its output operand. *)
Definition gemm_confined (G : gemm_type) : Prop :=
  ∀ tA tB alpha A B beta C σ σ',
    G tA tB alpha A B beta C σ = Ok (tt, σ') → confined (gData C) σ σ'.

(** The calls of the public operations that return a matrix. *)
Inductive op : Type :=
  | OpNew (nrows ncols : Z)
  | OpFromSlice (nrows ncols : Z) (d : loc)
  | OpFromFunc (nrows ncols : Z) (f : Z → Z → float64)
  | OpClone (m : Matrix)
  | OpSet (m : Matrix) (i j : Z) (x : float64)
  | OpScale (m : Matrix) (x : float64)
  | OpAddScalar (m : Matrix) (x : float64)
  | OpMap (f : float64 → float64) (m : Matrix)
  | OpConcatenateCols (ms : list Matrix)
  | OpConcatenateRows (ms : list Matrix)
  | OpSliceCols (m : Matrix) (from to : Z)
  | OpSliceRows (m : Matrix) (from to : Z)
  | OpFilterRows (m : Matrix) (f : Z → bool)
  | OpT (m : Matrix)
  | OpProduct (a b : Matrix)
  | OpParallelProduct (sched : list nat) (a b : Matrix)
  | OpBlasProduct (G : gemm_type) (a b : Matrix)
  | OpDot (a b : Matrix)
  | OpPlus (a b : Matrix)
  | OpMinus (a b : Matrix).

(** The computation a call stands for. *)
Definition run_op (o : op) : M Matrix :=
  match o with
  | OpNew nrows ncols => New nrows ncols
  | OpFromSlice nrows ncols d => FromSlice nrows ncols d
  | OpFromFunc nrows ncols f => FromFunc nrows ncols f
  | OpClone m => Clone m
  | OpSet m i j x => Set_ m i j x
  | OpScale m x => Scale m x
  | OpAddScalar m x => AddScalar m x
  | OpMap f m => Map f m
  | OpConcatenateCols ms => ConcatenateCols ms
  | OpConcatenateRows ms => ConcatenateRows ms
  | OpSliceCols m from to => SliceCols m from to
  | OpSliceRows m from to => SliceRows m from to
  | OpFilterRows m f => FilterRows m f
  | OpT m => T m
  | OpProduct a b => Product a b
  | OpParallelProduct sched a b => ParallelProduct sched a b
  | OpBlasProduct G a b => BlasProduct G a b
  | OpDot a b => Dot a b
  | OpPlus a b => Plus a b
  | OpMinus a b => Minus a b
  end.

(** The matrices an operation is applied to. *)
Definition operands (o : op) : list Matrix :=
  match o with
  | OpNew _ _ | OpFromSlice _ _ _ | OpFromFunc _ _ _ => []
  | OpClone m | OpSet m _ _ _ | OpScale m _ | OpAddScalar m _ | OpMap _ m
  | OpSliceCols m _ _ | OpSliceRows m _ _ | OpFilterRows m _ | OpT m => [m]
  | OpConcatenateCols ms | OpConcatenateRows ms => ms
  | OpProduct a b | OpParallelProduct _ a b | OpBlasProduct _ a b
  | OpDot a b | OpPlus a b | OpMinus a b => [a; b]
  end.

(** The dimensions an operation asks for are those of a matrix of the data
    model: non-negative Go ints whose product, the cell count, is a Go int
    as well.  For the constructors these are the arguments, for the
    concatenations the summed dimension, for the products the outer
    dimensions; the other operations derive theirs from their operand.
    [FromSlice] is given a slice of the heap, and the external routine of
    [BlasProduct] is one that writes into its output buffer only. *)
Definition admissible (σ : store) (o : op) : Prop :=
  match o with
  | OpNew nrows ncols | OpFromFunc nrows ncols _ =>
      0 ≤ nrows ≤ int_max ∧ 0 ≤ ncols ≤ int_max ∧ nrows * ncols ≤ int_max
  | OpFromSlice nrows ncols d =>
      0 ≤ nrows ≤ int_max ∧ 0 ≤ ncols ≤ int_max ∧ nrows * ncols ≤ int_max ∧
      (d < length σ)%nat
  | OpConcatenateCols ms =>
      sumZ (cols <$> ms) ≤ int_max ∧
      from_option rows 0 (head ms) * sumZ (cols <$> ms) ≤ int_max
  | OpConcatenateRows ms =>
      sumZ (rows <$> ms) ≤ int_max ∧
      sumZ (rows <$> ms) * from_option cols 0 (head ms) ≤ int_max
  | OpProduct a b | OpParallelProduct _ a b => rows a * cols b ≤ int_max
  | OpBlasProduct G a b => rows a * cols b ≤ int_max ∧ gemm_confined G
  | _ => True
  end.

(** What an operation returns: a matrix of legal dimensions whose buffer is
    a new object of the heap, of exactly [rows * cols] cells; everything
    that was in the heap is still there, unchanged. *)
Definition fresh_result (σ : store) (r : Matrix) (σ' : store) : Prop :=
  ∃ b, σ' = σ ++ [b] ∧ data r = length σ ∧
       len b = rows r * cols r ∧
       0 ≤ rows r ≤ int_max ∧ 0 ≤ cols r ≤ int_max ∧
       rows r * cols r ≤ max_len.

(** * Properties *)

(** ** Machine arithmetic without overflow *)

Lemma wrap_id z : is_int z → wrap z = z.
Proof.
  unfold is_int, int_min, int_max, wrap. intros Hz.
  rewrite Z.mod_small by lia. lia.
Qed.

Lemma wrap_is_int z : is_int (wrap z).
Proof.
  unfold is_int, int_min, int_max, wrap.
  pose proof (Z.mod_pos_bound (z + 2 ^ 63) (2 ^ 64)). lia.
Qed.

Lemma int_add_exact x y : is_int (x + y) → int_add x y = x + y.
Proof. apply wrap_id. Qed.

Lemma int_sub_exact x y : is_int (x - y) → int_sub x y = x - y.
Proof. apply wrap_id. Qed.

Lemma int_mul_exact x y : is_int (x * y) → int_mul x y = x * y.
Proof. apply wrap_id. Qed.

Lemma is_int_nonneg z : 0 ≤ z ≤ int_max → is_int z.
Proof. unfold is_int, int_min, int_max. lia. Qed.

Lemma max_len_int_max : max_len ≤ int_max.
Proof. unfold max_len, int_max. lia. Qed.

(** ** The monad *)

Lemma bind_Ok {A B} (m : M A) (k : A → M B) σ a σ' :
  m σ = Ok (a, σ') → bind m k σ = k a σ'.
Proof. unfold bind. by intros ->. Qed.

Lemma bind_Panic {A B} (m : M A) (k : A → M B) σ e :
  m σ = Panic e → bind m k σ = Panic e.
Proof. unfold bind. by intros ->. Qed.

Lemma Ok_pair_inj {A} (a a' : A) (σ σ' : store) :
  Ok (a, σ) = Ok (a', σ') → a = a' ∧ σ = σ'.
Proof. by intros [= -> ->]. Qed.

Lemma bind_inv_Ok {A B} (m : M A) (k : A → M B) σ b σ2 :
  bind m k σ = Ok (b, σ2) →
  ∃ a σ1, m σ = Ok (a, σ1) ∧ k a σ1 = Ok (b, σ2).
Proof.
  unfold bind. destruct (m σ) as [[a σ1]|e]; [|done]. eauto.
Qed.

(** Run the first computation of a sequence with a lemma that gives its
    outcome. *)
Tactic Notation "mstep" uconstr(lem) :=
  unfold bind at 1; rewrite lem; cbv beta iota.
Tactic Notation "mstep" uconstr(lem) "by" tactic3(t) :=
  unfold bind at 1; rewrite lem by t; cbv beta iota.

Lemma foldM_app {S X} (body : S → X → M S) s l1 l2 σ :
  foldM body s (l1 ++ l2) σ =
  bind (foldM body s l1) (λ s', foldM body s' l2) σ.
Proof.
  revert s σ. induction l1 as [|x l1 IH]; intros s σ; [reflexivity|].
  simpl. unfold bind.
  destruct (body s x σ) as [[s1 σ1]|e]; [|reflexivity].
  rewrite IH. reflexivity.
Qed.

(** A body that panics at the first element panics the loop. *)
Lemma ForAcc_first_Panic {S} n (body : Z → S → M S) s σ e :
  0 < n → body 0 s σ = Panic e → ForAcc n body s σ = Panic e.
Proof.
  intros Hn Hb. unfold ForAcc. rewrite seqZ_cons by done. simpl.
  by apply bind_Panic.
Qed.

Lemma For_first_Panic n (body : Z → M unit) σ e :
  0 < n → body 0 σ = Panic e → For n body σ = Panic e.
Proof. intros. by apply ForAcc_first_Panic. Qed.

(** ** The store *)

Lemma buf_app_l (σ : store) b p :
  (p < length σ)%nat → buf (σ ++ [b]) p = buf σ p.
Proof. intros. unfold buf. by rewrite lookup_app_l. Qed.

Lemma buf_app_last (σ : store) b : buf (σ ++ [b]) (length σ) = b.
Proof.
  unfold buf. rewrite lookup_app_r by lia. by rewrite Nat.sub_diag.
Qed.

Lemma insert_app_last (σ : store) b b' :
  <[length σ := b']> (σ ++ [b]) = σ ++ [b'].
Proof.
  rewrite insert_app_r_alt by lia. by rewrite Nat.sub_diag.
Qed.

Lemma len_replicate {A} n (x : A) : 0 ≤ n → len (replicate (Z.to_nat n) x) = n.
Proof. intros. unfold len. rewrite length_replicate. lia. Qed.

Lemma wf_app σ m b : wf σ m → wf (σ ++ [b]) m.
Proof.
  intros [? ? ? ? ?]. split; try done.
  - rewrite length_app. simpl. lia.
  - by rewrite buf_app_l.
Qed.

Lemma offset_bounds nrows ncols i j :
  0 ≤ i < nrows → 0 ≤ j < ncols → 0 ≤ ncols * i + j < nrows * ncols.
Proof. intros. nia. Qed.

Lemma offset_exact_int nrows ncols i j :
  nrows * ncols ≤ int_max → 0 ≤ i < nrows → 0 ≤ j < ncols →
  int_add (int_mul ncols i) j = i * ncols + j.
Proof.
  intros Hsz Hi Hj. pose proof (offset_bounds nrows ncols i j Hi Hj).
  rewrite int_mul_exact by (apply is_int_nonneg; nia).
  rewrite int_add_exact by (apply is_int_nonneg; nia). lia.
Qed.

Lemma offset_exact nrows ncols i j :
  nrows * ncols ≤ max_len → 0 ≤ i < nrows → 0 ≤ j < ncols →
  int_add (int_mul ncols i) j = i * ncols + j.
Proof.
  intros Hsz. apply offset_exact_int. pose proof max_len_int_max. lia.
Qed.

Lemma index_Ok p i σ :
  0 ≤ i < len (buf σ p) →
  index p i σ = Ok (default fzero (buf σ p !! Z.to_nat i), σ).
Proof. intros. unfold index. by rewrite decide_True. Qed.

Lemma at_Ok σ m i j :
  wf σ m → 0 ≤ i < rows m → 0 ≤ j < cols m →
  at_ m i j σ = Ok (cell (buf σ (data m)) (cols m) i j, σ).
Proof.
  intros [? ? ? Hlen ?] Hi Hj. unfold at_, cell.
  rewrite (offset_exact (rows m)) by done.
  apply index_Ok. rewrite Hlen. nia.
Qed.

Lemma wf_rep_inv σ m : wf σ m → rep_inv σ m.
Proof.
  intros Hwf. split; [apply Hwf|]. intros. by apply at_Ok.
Qed.

Lemma At_Ok σ m i j :
  wf σ m → 0 ≤ i < rows m → 0 ≤ j < cols m →
  At m i j σ = Ok (cell (buf σ (data m)) (cols m) i j, σ).
Proof.
  intros Hwf Hi Hj. unfold At, checkPos.
  rewrite decide_False by lia. by apply at_Ok.
Qed.

Lemma At_out_of_range σ m i j :
  ¬ (0 ≤ i < rows m ∧ 0 ≤ j < cols m) →
  At m i j σ = Panic (PanicElementOutOfRange i j).
Proof.
  intros H. unfold At, checkPos. by rewrite decide_True by lia.
Qed.

(** ** Loops *)

(** A loop whose body only reads the store computes a pure fold. *)
Lemma foldM_pure {S X} (body : S → X → M S) (g : S → X → S) l σ :
  (∀ s x, x ∈ l → body s x σ = Ok (g s x, σ)) →
  ∀ s, foldM body s l σ = Ok (foldl g s l, σ).
Proof.
  induction l as [|x l IH]; intros Hb s; [done|].
  simpl. rewrite (bind_Ok _ _ _ _ _ (Hb s x ltac:(left))).
  apply IH. intros. apply Hb. by right.
Qed.

(** A loop whose body only rewrites the most recently allocated buffer. *)
Lemma foldM_last {X} (P : list float64 → Prop) (step : X → M unit)
    (g : list float64 → X → list float64) l (σ : store) :
  (∀ x b, x ∈ l → P b →
     step x (σ ++ [b]) = Ok (tt, σ ++ [g b x]) ∧ P (g b x)) →
  ∀ b, P b →
    foldM (λ _ x, step x) tt l (σ ++ [b]) = Ok (tt, σ ++ [foldl g b l]).
Proof.
  induction l as [|x l IH]; intros Hb b HP; [done|].
  destruct (Hb x b ltac:(left) HP) as [Hs HP'].
  simpl. rewrite (bind_Ok _ _ _ _ _ Hs).
  apply IH; [|done]. intros. apply Hb; [by right|done].
Qed.

Lemma foldM_ext {S X} (body1 body2 : S → X → M S) l :
  (∀ s x σ, x ∈ l → body1 s x σ = body2 s x σ) →
  ∀ s σ, foldM body1 s l σ = foldM body2 s l σ.
Proof.
  induction l as [|x l IH]; intros Hb s σ; [done|].
  simpl. unfold bind. rewrite (Hb s x σ) by left.
  destruct (body2 s x σ) as [[s1 σ1]|e]; [|done].
  apply IH. intros. apply Hb. by right.
Qed.

Lemma foldM_fmap {S X Y} (h : X → Y) (body : S → Y → M S) l s σ :
  foldM body s (h <$> l) σ = foldM (λ s x, body s (h x)) s l σ.
Proof.
  revert s σ. induction l as [|x l IH]; intros s σ; [done|].
  simpl. unfold bind. destruct (body s (h x) σ) as [[s1 σ1]|e]; [|done].
  apply IH.
Qed.

Lemma foldM_concat {X} (body : X → M unit) (ls : list (list X)) σ :
  foldM (λ _ l, foldM (λ _ x, body x) tt l) tt ls σ =
  foldM (λ _ x, body x) tt (mjoin ls) σ.
Proof.
  revert σ. induction ls as [|l ls IH]; intros σ; [done|].
  simpl. rewrite foldM_app. unfold bind.
  destruct (foldM _ tt l σ) as [[[] σ1]|e]; [|done]. apply IH.
Qed.

Lemma For_nested nrows ncols (f : Z → Z → M unit) σ :
  For nrows (λ i, For ncols (λ j, f i j)) σ =
  foldM (λ _ ij, f ij.1 ij.2) tt (cells nrows ncols) σ.
Proof.
  unfold For, ForAcc, cells.
  rewrite <- (foldM_concat (λ ij, f ij.1 ij.2)).
  rewrite foldM_fmap. apply foldM_ext. intros [] i σ' _.
  by rewrite foldM_fmap.
Qed.

Lemma elem_of_cells nrows ncols i j :
  (i, j) ∈ cells nrows ncols ↔ 0 ≤ i < nrows ∧ 0 ≤ j < ncols.
Proof.
  unfold cells. rewrite list_elem_of_join. split.
  - intros (l & Hij & Hl). apply list_elem_of_fmap in Hl as (i' & -> & Hi').
    apply list_elem_of_fmap in Hij as (j' & [= -> ->] & Hj').
    apply elem_of_seqZ in Hi', Hj'. lia.
  - intros [Hi Hj]. exists ((λ j, (i, j)) <$> seqZ 0 ncols). split.
    + apply list_elem_of_fmap. exists j. split; [done|]. apply elem_of_seqZ. lia.
    + apply list_elem_of_fmap. exists i. split; [done|]. apply elem_of_seqZ. lia.
Qed.

(** ** Allocation and [New] *)

Lemma makeslice_Ok n σ :
  0 ≤ n ≤ max_len →
  makeslice n σ = Ok (length σ, σ ++ [replicate (Z.to_nat n) fzero]).
Proof. intros. unfold makeslice. by rewrite decide_False by lia. Qed.

Lemma makeslice_Panic n σ :
  n < 0 ∨ max_len < n → makeslice n σ = Panic RuntimeMakeSliceLen.
Proof. intros. unfold makeslice. by rewrite decide_True. Qed.

Lemma New_raw_Ok nrows ncols σ :
  0 ≤ int_mul nrows ncols ≤ max_len →
  New nrows ncols σ =
    Ok (mkMatrix nrows ncols (length σ),
        σ ++ [replicate (Z.to_nat (int_mul nrows ncols)) fzero]).
Proof.
  intros. unfold New. by rewrite (bind_Ok _ _ _ _ _ (makeslice_Ok _ _ H)).
Qed.

Lemma New_raw_Panic nrows ncols σ :
  int_mul nrows ncols < 0 ∨ max_len < int_mul nrows ncols →
  New nrows ncols σ = Panic RuntimeMakeSliceLen.
Proof.
  intros. unfold New. by rewrite (bind_Panic _ _ _ _ (makeslice_Panic _ _ H)).
Qed.

Lemma New_Ok nrows ncols σ :
  0 ≤ nrows → 0 ≤ ncols → nrows * ncols ≤ max_len →
  New nrows ncols σ =
    Ok (mkMatrix nrows ncols (length σ),
        σ ++ [replicate (Z.to_nat (nrows * ncols)) fzero]).
Proof.
  intros. pose proof max_len_int_max.
  rewrite New_raw_Ok; rewrite int_mul_exact; try done;
    try (apply is_int_nonneg); nia.
Qed.

(** Beyond the limit of the run time [New] panics in [make], whatever
    the signs of the dimensions. *)
Lemma New_Panic_limit nrows ncols σ :
  max_len < nrows * ncols ≤ int_max →
  New nrows ncols σ = Panic RuntimeMakeSliceLen.
Proof.
  intros. pose proof max_len_int_max. apply New_raw_Panic. right.
  rewrite int_mul_exact; [lia|]. unfold is_int, int_min, max_len in *. lia.
Qed.

Lemma wf_fresh (σ : store) nrows ncols b :
  0 ≤ nrows ≤ int_max → 0 ≤ ncols ≤ int_max → nrows * ncols ≤ max_len →
  len b = nrows * ncols →
  wf (σ ++ [b]) (mkMatrix nrows ncols (length σ)).
Proof.
  intros. split; simpl; try done.
  - rewrite length_app. simpl. lia.
  - by rewrite buf_app_last.
Qed.

(** ** Writing cells of the newest buffer *)

Lemma assign_last (σ : store) b i x :
  0 ≤ i < len b →
  assign (length σ) i x (σ ++ [b]) = Ok (tt, σ ++ [<[Z.to_nat i := x]> b]).
Proof.
  intros. unfold assign. rewrite buf_app_last, decide_True by done.
  by rewrite insert_app_last.
Qed.

Lemma assign_last_Panic (σ : store) b i x :
  ¬ (0 ≤ i < len b) →
  assign (length σ) i x (σ ++ [b]) = Panic RuntimeIndexOutOfRange.
Proof.
  intros. unfold assign. by rewrite buf_app_last, decide_False by done.
Qed.

Lemma index_last (σ : store) b i :
  0 ≤ i < len b →
  index (length σ) i (σ ++ [b]) = Ok (default fzero (b !! Z.to_nat i), σ ++ [b]).
Proof.
  intros. unfold index. by rewrite buf_app_last, decide_True by done.
Qed.

Section writes.
Context {X : Type} (idx : X → nat) (v : X → float64).

Lemma length_writes b l : length (writes idx v b l) = length b.
Proof.
  unfold writes. revert b. induction l as [|x l IH]; intros b; [done|].
  simpl. by rewrite IH, length_insert.
Qed.

Lemma writes_lookup_notin b l p :
  (∀ x, x ∈ l → idx x ≠ p) → writes idx v b l !! p = b !! p.
Proof.
  unfold writes. revert b. induction l as [|x l IH]; intros b Hp; [done|].
  simpl. rewrite IH.
  - apply list_lookup_insert_ne. apply Hp. left.
  - intros. apply Hp. by right.
Qed.

Lemma writes_lookup_in b l x :
  NoDup (idx <$> l) → x ∈ l → (idx x < length b)%nat →
  writes idx v b l !! idx x = Some (v x).
Proof.
  revert b. induction l as [|y l IH]; intros b Hnd Hx Hlen.
  { by apply elem_of_nil in Hx. }
  rewrite fmap_cons in Hnd. apply NoDup_cons in Hnd as [Hy Hnd].
  change (writes idx v b (y :: l)) with (writes idx v (<[idx y := v y]> b) l).
  apply elem_of_cons in Hx as [->|Hx].
  - rewrite writes_lookup_notin.
    + by apply list_lookup_insert_eq.
    + intros z Hz Heq. apply Hy. rewrite <- Heq.
      by apply list_elem_of_fmap_2.
  - apply IH; [done..|]. by rewrite length_insert.
Qed.

Lemma writes_perm b l1 l2 :
  l1 ≡ₚ l2 → NoDup (idx <$> l1) → writes idx v b l1 = writes idx v b l2.
Proof.
  unfold writes. intros Hp. revert b.
  induction Hp as [|x l1 l2 Hp IH|x y l|l1 l2 l3 Hp1 IH1 Hp2 IH2];
    intros b Hnd.
  - done.
  - rewrite fmap_cons in Hnd. apply NoDup_cons in Hnd as [_ Hnd].
    simpl. by apply IH.
  - rewrite !fmap_cons in Hnd.
    apply NoDup_cons in Hnd as [Hy Hnd]. simpl.
    rewrite list_insert_insert_ne; [done|].
    intros Heq. apply Hy. rewrite Heq. left.
  - rewrite IH1 by done. apply IH2. by rewrite <- Hp1.
Qed.
End writes.

(** ** The grid of positions *)

Lemma NoDup_cells nrows ncols : NoDup (cells nrows ncols).
Proof.
  unfold cells. generalize (NoDup_seqZ 0 nrows).
  generalize (seqZ 0 nrows) as li.
  induction li as [|i li IH]; intros Hnd; [constructor|].
  apply NoDup_cons in Hnd as [Hi Hnd]. rewrite fmap_cons. simpl.
  apply NoDup_app. split_and!.
  - apply NoDup_fmap_2; [|apply NoDup_seqZ]. by intros ?? [= ->].
  - intros [i' j'] H1 H2.
    apply list_elem_of_fmap in H1 as (j1 & [= -> ->] & _).
    apply list_elem_of_join in H2 as (l & H2 & Hl).
    apply list_elem_of_fmap in Hl as (i2 & -> & Hi2).
    apply list_elem_of_fmap in H2 as (j2 & [= -> ->] & _). done.
  - by apply IH.
Qed.

Lemma offset_inj ncols i j i' j' :
  0 ≤ j < ncols → 0 ≤ j' < ncols →
  i * ncols + j = i' * ncols + j' → i = i' ∧ j = j'.
Proof.
  intros Hj Hj' Heq.
  assert (i = i') as -> by nia. split; [done|lia].
Qed.

(** Row-major offsets are exact and pairwise distinct on a grid whose cell
    count is a Go int. *)
Lemma NoDup_offsets nrows ncols :
  nrows * ncols ≤ int_max →
  NoDup ((λ ij : Z * Z, Z.to_nat (int_add (int_mul ncols ij.1) ij.2))
           <$> cells nrows ncols).
Proof.
  intros Hsz. apply NoDup_fmap_2_strong; [|apply NoDup_cells].
  intros [i j] [i' j'] H1 H2. simpl.
  apply elem_of_cells in H1 as [Hi Hj], H2 as [Hi' Hj'].
  rewrite !(offset_exact_int nrows) by done. intros Heq.
  pose proof (offset_bounds _ _ _ _ Hi Hj).
  pose proof (offset_bounds _ _ _ _ Hi' Hj').
  destruct (offset_inj ncols i j i' j'); [done..|lia|]. by subst.
Qed.

(** If every offset of the grid falls inside a buffer of [n] cells, the
    grid has at most [n] cells: were it larger, the position whose offset
    is [n] itself would be computed without wrap-around and fall outside. *)
Lemma offsets_in_range_size nrows ncols n :
  0 ≤ nrows → 0 ≤ ncols → 0 ≤ n ≤ int_max →
  Forall (λ ij : Z * Z, 0 ≤ int_add (int_mul ncols ij.1) ij.2 < n)
         (cells nrows ncols) →
  nrows * ncols ≤ n.
Proof.
  intros Hr Hc Hn Hall. destruct (decide (nrows * ncols ≤ n)) as [|Hgt]; [done|].
  exfalso. assert (0 < ncols) by nia.
  pose proof (Z.div_mod n ncols ltac:(lia)) as Hdm.
  pose proof (Z.mod_pos_bound n ncols ltac:(lia)) as Hm.
  assert (0 ≤ n `div` ncols) by (apply Z.div_pos; lia).
  assert (n `div` ncols < nrows) by (apply Z.div_lt_upper_bound; lia).
  rewrite Forall_forall in Hall.
  assert ((n `div` ncols, n `mod` ncols) ∈ cells nrows ncols) as Hin
    by (apply elem_of_cells; lia).
  apply Hall in Hin. simpl in Hin.
  rewrite int_mul_exact, int_add_exact in Hin
    by (apply is_int_nonneg; nia).
  lia.
Qed.

(** ** Schedules *)

Lemma interleave_perm {X} (sched : list nat) (pool : list (list X)) :
  interleave sched pool ≡ₚ mjoin pool.
Proof.
  revert pool. induction sched as [|g sched IH]; intros pool; [done|].
  simpl. destruct (pool !! g) as [[|x rest]|] eqn:Hg; try apply IH.
  rewrite IH.
  rewrite <- (take_drop_middle pool g (x :: rest)) at 2 by done.
  rewrite insert_take_drop by (by eapply lookup_lt_Some).
  rewrite !join_app. simpl. by rewrite Permutation_middle.
Qed.

Lemma goroutines_cells a b :
  mjoin (goroutines a b) = cells (rows a) (cols b).
Proof. done. Qed.

(** ** The product *)

Section product.
Context (σ : store) (a b : Matrix).
Context (Ha : wf σ a) (Hb : wf σ b) (Hab : cols a = rows b).

Let c : Matrix := mkMatrix (rows a) (cols b) (length σ).
Let off (ij : Z * Z) : Z := int_add (int_mul (cols b) ij.1) ij.2.
Let val (ij : Z * Z) : float64 :=
  inner_product (buf σ (data a)) (buf σ (data b)) (cols a) (cols b) ij.1 ij.2.

Lemma inner_loop_Ok bc i j :
  0 ≤ i < rows a → 0 ≤ j < cols b →
  ForAcc (cols a) (λ k p,
      x <- at_ a i k ;; y <- at_ b k j ;; ret (fadd p (fmul x y)))
    fzero (σ ++ [bc]) = Ok (val (i, j), σ ++ [bc]).
Proof.
  intros Hi Hj. unfold ForAcc, val, inner_product. simpl.
  apply foldM_pure. intros p k Hk. apply elem_of_seqZ in Hk.
  rewrite (bind_Ok _ _ _ _ _ (at_Ok _ a i k (wf_app _ _ bc Ha) Hi ltac:(lia))).
  rewrite (bind_Ok _ _ _ _ _
             (at_Ok _ b k j (wf_app _ _ bc Hb) ltac:(lia) Hj)).
  unfold ret. by rewrite !buf_app_l by (by apply wf_alloc).
Qed.

Lemma cell_step_last bc ij :
  ij ∈ cells (rows a) (cols b) →
  cell_step a b c ij.1 ij.2 (σ ++ [bc]) =
    if decide (0 ≤ off ij < len bc)
    then Ok (tt, σ ++ [<[Z.to_nat (off ij) := val ij]> bc])
    else Panic RuntimeIndexOutOfRange.
Proof.
  destruct ij as [i j]. intros [Hi Hj]%elem_of_cells. simpl.
  unfold cell_step. rewrite (bind_Ok _ _ _ _ _ (inner_loop_Ok bc i j Hi Hj)).
  unfold set. simpl. fold (off (i, j)). case_decide.
  - by apply assign_last.
  - by apply assign_last_Panic.
Qed.

(** Running the cell steps of any list of grid positions: either some
    offset is out of range and the run panics, or the buffer receives
    the writes in the order of the list. *)
Lemma run_cells l bc :
  (∀ ij, ij ∈ l → ij ∈ cells (rows a) (cols b)) →
  foldM (λ _ ij, cell_step a b c ij.1 ij.2) tt l (σ ++ [bc]) =
    if decide (Forall (λ ij, 0 ≤ off ij < len bc) l)
    then Ok (tt, σ ++ [writes (λ ij, Z.to_nat (off ij)) val bc l])
    else Panic RuntimeIndexOutOfRange.
Proof.
  revert bc. induction l as [|ij l IH]; intros bc Hl.
  { rewrite decide_True by constructor. done. }
  cbn [foldM]. unfold bind. rewrite cell_step_last by (apply Hl; left).
  destruct (decide (0 ≤ off ij < len bc)) as [Hin|Hout].
  - rewrite IH by (intros; apply Hl; by right).
    assert (len (<[Z.to_nat (off ij) := val ij]> bc) = len bc) as Hlen
      by (unfold len; by rewrite length_insert).
    rewrite Hlen.
    destruct (decide (Forall _ l)) as [Hall|Hnall].
    + by rewrite decide_True by (by constructor).
    + rewrite decide_False; [done|]. by intros [_ ?]%Forall_cons.
  - rewrite decide_False; [done|]. by intros [? _]%Forall_cons.
Qed.

(** Two runs over the same positions in different orders agree. *)
Lemma run_cells_perm l1 l2 n :
  0 ≤ int_mul (rows a) (cols b) →
  n = Z.to_nat (int_mul (rows a) (cols b)) →
  l1 ≡ₚ cells (rows a) (cols b) → l2 ≡ₚ cells (rows a) (cols b) →
  foldM (λ _ ij, cell_step a b c ij.1 ij.2) tt l1
        (σ ++ [replicate n fzero]) =
  foldM (λ _ ij, cell_step a b c ij.1 ij.2) tt l2
        (σ ++ [replicate n fzero]).
Proof.
  intros Hn -> H1 H2.
  rewrite (run_cells l1) by (intros ij Hij; by rewrite <- H1).
  rewrite (run_cells l2) by (intros ij Hij; by rewrite <- H2).
  assert (l1 ≡ₚ l2) as H12 by (by rewrite H1, H2).
  destruct (decide (Forall _ l1)) as [Hall|Hnall].
  - rewrite decide_True by (by rewrite <- H12).
    rewrite (writes_perm _ _ _ l1 l2); [done|done|].
    rewrite H1. apply NoDup_offsets.
    pose proof (wrap_is_int (rows a * cols b)) as Hw.
    fold (int_mul (rows a) (cols b)) in Hw. unfold is_int in Hw.
    transitivity (len (replicate (Z.to_nat (int_mul (rows a) (cols b))) fzero)).
    + rewrite H1 in Hall.
      apply offsets_in_range_size; [apply Ha|apply Hb| |done].
      rewrite len_replicate by done. lia.
    + rewrite len_replicate by done. lia.
  - rewrite decide_False; [done|]. by rewrite <- H12.
Qed.

Lemma Product_run :
  Product a b σ =
    (c' <- New (rows a) (cols b) ;;
     foldM (λ _ ij, cell_step a b c' ij.1 ij.2) tt (cells (rows a) (cols b)) ;;
     ret c') σ.
Proof.
  unfold Product. rewrite decide_False by (by intros ?).
  unfold bind. destruct (New _ _ σ) as [[c' σ']|e]; [|done].
  by rewrite For_nested.
Qed.

Lemma ParallelProduct_eq sched : ParallelProduct sched a b σ = Product a b σ.
Proof.
  rewrite Product_run. unfold ParallelProduct.
  rewrite decide_False by (by intros ?).
  destruct (decide (int_mul (rows a) (cols b) < 0 ∨
                    max_len < int_mul (rows a) (cols b))) as [Hneg|Hpos].
  { by rewrite !(bind_Panic _ _ _ _ (New_raw_Panic _ _ _ Hneg)). }
  rewrite !(bind_Ok _ _ _ _ _
              (New_raw_Ok (rows a) (cols b) σ ltac:(lia))).
  unfold bind. fold c.
  rewrite (run_cells_perm (interleave sched (goroutines a b))
             (cells (rows a) (cols b)) _ ltac:(lia) eq_refl); [done| |done].
  by rewrite interleave_perm, goroutines_cells.
Qed.

(** Within the limit of the run time, [Product] returns and the result
    holds the inner products. *)
Lemma Product_Ok :
  rows a * cols b ≤ max_len →
  ∃ bc, Product a b σ = Ok (c, σ ++ [bc]) ∧
        len bc = rows a * cols b ∧
        ∀ i j, 0 ≤ i < rows a → 0 ≤ j < cols b →
          cell bc (cols b) i j = val (i, j).
Proof.
  intros Hsz. destruct Ha as [Har _ _ _ _], Hb as [_ Hbc _ _ _].
  rewrite Product_run.
  rewrite (bind_Ok _ _ _ _ _
             (New_Ok (rows a) (cols b) σ ltac:(lia) ltac:(lia) Hsz)).
  fold c. unfold bind at 1. rewrite run_cells by done.
  rewrite len_replicate by nia.
  assert (∀ ij, ij ∈ cells (rows a) (cols b) →
            off ij = ij.1 * cols b + ij.2 ∧ 0 ≤ off ij < rows a * cols b)
    as Hoff.
  { intros [i j] [Hi Hj]%elem_of_cells. unfold off. simpl.
    rewrite (offset_exact (rows a)) by done.
    pose proof (offset_bounds _ _ _ _ Hi Hj). lia. }
  rewrite decide_True by (apply Forall_forall; intros; by apply Hoff).
  eexists. split; [reflexivity|]. split.
  - unfold len. rewrite length_writes, length_replicate. nia.
  - intros i j Hi Hj.
    assert ((i, j) ∈ cells (rows a) (cols b)) as Hin by by apply elem_of_cells.
    destruct (Hoff _ Hin) as [Heq Hrange]. simpl in Heq.
    unfold cell. rewrite <- Heq.
    rewrite (writes_lookup_in (λ ij, Z.to_nat (off ij)) val _ _ (i, j));
      [done| |done|].
    + apply NoDup_offsets. pose proof max_len_int_max. lia.
    + rewrite length_replicate. lia.
Qed.
End product.

(** Beyond the limit of the run time, the allocation of the result
    panics. *)
Lemma Product_limit σ a b :
  cols a = rows b → max_len < rows a * cols b ≤ int_max →
  Product a b σ = Panic RuntimeMakeSliceLen.
Proof.
  intros Hab Hbig. unfold Product. rewrite decide_False by (by intros ?).
  apply bind_Panic. by apply New_Panic_limit.
Qed.

(** ** [Clone], [Set] and [Map] *)

Lemma copy_last (σ : store) b src :
  (src < length σ)%nat → length (buf σ src) = length b →
  copy (length σ) src (σ ++ [b]) = Ok (tt, σ ++ [buf σ src]).
Proof.
  intros Hsrc Hlen. unfold copy, copy_list.
  rewrite buf_app_last, buf_app_l, insert_app_last by done.
  rewrite Hlen, Nat.min_id, <- Hlen, firstn_all, drop_ge by lia.
  by rewrite app_nil_r.
Qed.

Lemma Clone_Ok σ m :
  wf σ m →
  Clone m σ = Ok (mkMatrix (rows m) (cols m) (length σ), σ ++ [buf σ (data m)]).
Proof.
  intros [Hr Hc Ha Hl Hs]. unfold Clone.
  mstep New_Ok by lia. simpl.
  mstep copy_last by (rewrite ?length_replicate; unfold len in Hl; lia).
  done.
Qed.

Lemma Set_Ok σ m i j x :
  wf σ m → 0 ≤ i < rows m → 0 ≤ j < cols m →
  Set_ m i j x σ =
    Ok (mkMatrix (rows m) (cols m) (length σ),
        σ ++ [<[Z.to_nat (i * cols m + j) := x]> (buf σ (data m))]).
Proof.
  intros Hwf Hi Hj. unfold Set_, checkPos.
  rewrite decide_False by lia.
  unfold bind at 1. unfold ret at 1.
  mstep Clone_Ok by done.
  unfold set. simpl. destruct Hwf as [Hr Hc Ha Hl Hs].
  rewrite (offset_exact (rows m)) by done.
  pose proof (offset_bounds _ _ _ _ Hi Hj).
  mstep assign_last by (rewrite Hl; lia).
  done.
Qed.

Lemma Set_out_of_range σ m i j x :
  ¬ (0 ≤ i < rows m ∧ 0 ≤ j < cols m) →
  Set_ m i j x σ = Panic (PanicElementOutOfRange i j).
Proof.
  intros H. unfold Set_, checkPos. by rewrite decide_True by lia.
Qed.

(** The in-place loop of [Map] over a buffer. *)
Lemma map_in_place (f : float64 → float64) (b : list float64) (k : nat) :
  (k ≤ length b)%nat →
  foldl (λ b i, <[Z.to_nat i := f (default fzero (b !! Z.to_nat i))]> b) b
        (seqZ 0 (Z.of_nat k))
  = (f <$> take k b) ++ drop k b.
Proof.
  induction k as [|k IH]; intros Hk.
  { by rewrite take_0, drop_0. }
  rewrite seqZ_S, foldl_app, IH by lia. simpl.
  rewrite Z.add_0_l, Nat2Z.id.
  destruct (lookup_lt_is_Some_2 b k ltac:(lia)) as [x Hx].
  rewrite lookup_app_r by (rewrite length_fmap, length_take; lia).
  rewrite length_fmap, length_take, Nat.min_l, Nat.sub_diag by lia.
  rewrite lookup_drop, Nat.add_0_r, Hx. simpl.
  rewrite insert_app_r_alt by (rewrite length_fmap, length_take; lia).
  rewrite length_fmap, length_take, Nat.min_l, Nat.sub_diag by lia.
  rewrite (drop_S b x k) by done. simpl.
  rewrite (take_S_r b k x) by done.
  by rewrite fmap_app, <- app_assoc.
Qed.

Lemma Map_Ok f σ m :
  wf σ m →
  Map f m σ =
    Ok (mkMatrix (rows m) (cols m) (length σ), σ ++ [f <$> buf σ (data m)]).
Proof.
  intros Hwf. unfold Map.
  mstep Clone_Ok by done. simpl.
  unfold bind at 1. unfold slice_len at 1. rewrite buf_app_last.
  cbv beta iota. set (b := buf σ (data m)).
  unfold For, ForAcc. cbv beta.
  mstep (foldM_last (λ b', length b' = length b)
          (λ i, v <- index (length σ) i ;; assign (length σ) i (f v))
          (λ b' i, <[Z.to_nat i := f (default fzero (b' !! Z.to_nat i))]> b')
          (seqZ 0 (len b)) σ).
  - unfold ret, len. rewrite map_in_place by done.
    by rewrite firstn_all, drop_all, app_nil_r.
  - intros i b' Hi Hlen. apply elem_of_seqZ in Hi.
    assert (0 ≤ i < len b') by (unfold len in *; lia).
    mstep index_last by done.
    rewrite assign_last by done. by rewrite length_insert.
  - done.
Qed.

(** ** Slicing *)

Lemma length_segment {A} (b : list A) lo hi :
  0 ≤ lo → lo ≤ hi → hi ≤ len b → len (segment b lo hi) = hi - lo.
Proof.
  intros. unfold segment, len in *. rewrite length_take, length_drop. lia.
Qed.

Lemma segment_app {A} (b : list A) lo mid hi :
  0 ≤ lo → lo ≤ mid → mid ≤ hi →
  segment b lo mid ++ segment b mid hi = segment b lo hi.
Proof.
  intros. unfold segment.
  replace (Z.to_nat mid) with (Z.to_nat lo + Z.to_nat (mid - lo))%nat by lia.
  rewrite <- drop_drop, take_take_drop. f_equal. lia.
Qed.

Lemma segment_all {A} (b : list A) : segment b 0 (len b) = b.
Proof.
  unfold segment, len. rewrite Z.sub_0_r, Nat2Z.id. simpl.
  by rewrite drop_0, firstn_all.
Qed.

Lemma join_cons {A} (l : list A) (ls : list (list A)) :
  mjoin (l :: ls) = l ++ mjoin ls.
Proof. done. Qed.

Lemma foldl_app_join {A X} (h : X → list A) (d : list A) (l : list X) :
  foldl (λ d x, d ++ h x) d l = d ++ mjoin (h <$> l).
Proof.
  revert d. induction l as [|x l IH]; intros d; simpl.
  - by rewrite app_nil_r.
  - by rewrite IH, <- app_assoc.
Qed.

Lemma length_join_same {A X} (h : X → list A) (l : list X) (c : nat) :
  (∀ x, x ∈ l → length (h x) = c) →
  length (mjoin (h <$> l)) = (length l * c)%nat.
Proof.
  intros Hh. rewrite length_join, <- list_fmap_compose.
  apply sum_list_fmap_same. by apply Forall_forall.
Qed.

(** A buffer made of [n] chunks of [c] cells: chunk [i] is its [i]-th row. *)
Lemma segment_join_chunks {A} (h : Z → list A) (n c i : Z) :
  (∀ k, 0 ≤ k < n → len (h k) = c) → 0 ≤ i < n →
  segment (mjoin (h <$> seqZ 0 n)) (i * c) ((i + 1) * c) = h i.
Proof.
  intros Hh Hi.
  replace n with (i + (1 + (n - i - 1))) at 1 by lia.
  rewrite seqZ_app, (seqZ_app _ 1), !fmap_app, !join_app by lia.
  change (seqZ (0 + i) 1) with [0 + i]. simpl. rewrite app_nil_r.
  unfold segment.
  assert (length (mjoin (h <$> seqZ 0 i)) = Z.to_nat (i * c)) as Hlen.
  { rewrite (length_join_same h _ (Z.to_nat c)).
    - rewrite length_seqZ. nia.
    - intros k Hk%elem_of_seqZ. specialize (Hh k ltac:(lia)).
      unfold len in Hh. lia. }
  rewrite drop_app_length' by done.
  apply take_app_length'. specialize (Hh i Hi). unfold len in Hh. lia.
Qed.

(** The rows of a buffer, joined, give the buffer back. *)
Lemma join_rows {A} (b : list A) (n c : Z) :
  0 ≤ n → 0 ≤ c → len b = n * c →
  mjoin ((λ i, segment b (i * c) ((i + 1) * c)) <$> seqZ 0 n) = b.
Proof.
  intros Hn Hc Hlen.
  assert (∀ k : nat, Z.of_nat k ≤ n →
    mjoin ((λ i, segment b (i * c) ((i + 1) * c)) <$> seqZ 0 (Z.of_nat k))
    = take (Z.to_nat (Z.of_nat k * c)) b) as Hk.
  { induction k as [|k IH]; intros Hkn.
    - by rewrite Z.mul_0_l.
    - rewrite seqZ_S, fmap_app, join_app, IH by lia. simpl.
      rewrite app_nil_r, Z.add_0_l. unfold segment.
      rewrite take_take_drop. f_equal. nia. }
  specialize (Hk (Z.to_nat n)). rewrite Z2Nat.id in Hk by done.
  rewrite Hk by lia. apply take_ge. unfold len in Hlen. lia.
Qed.

Lemma subslice_Ok p lo hi σ :
  0 ≤ lo → lo ≤ hi → hi ≤ len (buf σ p) →
  subslice p lo hi σ = Ok (segment (buf σ p) lo hi, σ).
Proof. intros. unfold subslice. by rewrite decide_True. Qed.

Lemma makeslice_cap_Ok c σ :
  0 ≤ c ≤ max_len → makeslice_cap c σ = Ok ([], σ).
Proof. intros. unfold makeslice_cap. by rewrite decide_False by lia. Qed.

Lemma makeslice_cap_Panic c σ :
  c < 0 ∨ max_len < c → makeslice_cap c σ = Panic RuntimeMakeSliceCap.
Proof. intros. unfold makeslice_cap. by rewrite decide_True. Qed.

Lemma copy_list_last (σ : store) b src :
  length src = length b →
  copy_list (length σ) src (σ ++ [b]) = Ok (tt, σ ++ [src]).
Proof.
  intros Hlen. unfold copy_list.
  rewrite buf_app_last, insert_app_last.
  rewrite <- Hlen, Nat.min_id, firstn_all, drop_ge by lia.
  by rewrite app_nil_r.
Qed.

Lemma SliceCols_Ok σ m from to :
  wf σ m → 0 ≤ from → from ≤ to → to ≤ cols m →
  SliceCols m from to σ =
    Ok (mkMatrix (rows m) (to - from) (length σ),
        σ ++ [slice_cols (buf σ (data m)) (rows m) (cols m) from to]).
Proof.
  pose proof max_len_int_max as Hlim.
  intros [Hr Hc Ha Hl Hs] Hf Hft Ht. unfold SliceCols.
  rewrite decide_False by lia.
  rewrite int_sub_exact by (apply is_int_nonneg; lia).
  rewrite int_mul_exact by (apply is_int_nonneg; nia).
  mstep makeslice_cap_Ok by nia.
  unfold ForAcc.
  mstep (foldM_pure _
          (λ d i, d ++ segment (buf σ (data m))
                          (i * cols m + from) (i * cols m + to))).
  - rewrite foldl_app_join. done.
  - intros d i Hi%elem_of_seqZ.
    rewrite int_mul_exact by (apply is_int_nonneg; nia).
    rewrite !int_add_exact by (apply is_int_nonneg; nia).
    mstep subslice_Ok by (rewrite ?Hl; nia). done.
Qed.

Lemma SliceCols_Panic σ m from to :
  from < 0 ∨ to > cols m ∨ to < from →
  SliceCols m from to σ = Panic PanicBadRowNumbers.
Proof. intros. unfold SliceCols. by rewrite decide_True. Qed.

Lemma SliceRows_Ok σ m from to :
  wf σ m → 0 ≤ from → from ≤ to → to ≤ rows m →
  SliceRows m from to σ =
    Ok (mkMatrix (to - from) (cols m) (length σ),
        σ ++ [segment (buf σ (data m)) (from * cols m) (to * cols m)]).
Proof.
  pose proof max_len_int_max as Hlim.
  intros [Hr Hc Ha Hl Hs] Hf Hft Ht. unfold SliceRows.
  rewrite decide_False by lia.
  rewrite int_sub_exact by (apply is_int_nonneg; lia).
  rewrite !int_mul_exact by (apply is_int_nonneg; nia).
  mstep makeslice_Ok by nia.
  unfold bind at 1. rewrite subslice_Ok;
    rewrite ?buf_app_l by done; [|nia|nia|rewrite Hl; nia].
  cbv beta iota.
  mstep copy_list_last.
  - done.
  - pose proof (length_segment (buf σ (data m)) (from * cols m) (to * cols m)
                  ltac:(nia) ltac:(nia) ltac:(rewrite Hl; nia)) as Hseg.
    unfold len in Hseg. rewrite length_replicate. nia.
Qed.

Lemma SliceRows_Panic σ m from to :
  from < 0 ∨ to > rows m ∨ to < from →
  SliceRows m from to σ = Panic PanicBadRowNumbers.
Proof. intros. unfold SliceRows. by rewrite decide_True. Qed.

Lemma len_slice_cols b nrows ncols from to :
  0 ≤ nrows → 0 ≤ from → from ≤ to → to ≤ ncols → len b = nrows * ncols →
  len (slice_cols b nrows ncols from to) = nrows * (to - from).
Proof.
  intros Hr Hf Hft Ht Hl. unfold slice_cols, len.
  rewrite (length_join_same _ _ (Z.to_nat (to - from))).
  - rewrite length_seqZ. nia.
  - intros i Hi%elem_of_seqZ.
    pose proof (length_segment b (i * ncols + from) (i * ncols + to)
                  ltac:(nia) ltac:(nia) ltac:(nia)) as Hseg.
    unfold len in Hseg. lia.
Qed.

(** ** Concatenation *)

Lemma sumZ_cons x l : sumZ (x :: l) = x + sumZ l.
Proof. done. Qed.

Lemma sumZ_nonneg l : Forall (λ x, 0 ≤ x) l → 0 ≤ sumZ l.
Proof. induction 1; rewrite ?sumZ_cons; [done|lia]. Qed.

(** The first loop of [ConcatenateCols] and [ConcatenateRows]: check the
    shared dimension [key], add up the other one. *)
Lemma dims_loop_Ok (key other : Matrix → Z) e k0 ms acc σ :
  Forall (λ m, key m = k0) ms → Forall (λ m, 0 ≤ other m) ms →
  0 ≤ acc → acc + sumZ (other <$> ms) ≤ int_max →
  foldM (λ s m, if decide (k0 ≠ key m) then panic e
                else ret (int_add s (other m))) acc ms σ
  = Ok (acc + sumZ (other <$> ms), σ).
Proof.
  intros Hkey Hother. revert acc.
  induction ms as [|m ms IH]; intros acc Hacc Hsum.
  { simpl. unfold ret. by rewrite Z.add_0_r. }
  rewrite fmap_cons, sumZ_cons in Hsum |- *. cbn [foldM].
  apply Forall_cons in Hkey as [Hk Hkey], Hother as [Ho Hother].
  pose proof (sumZ_nonneg (other <$> ms)
                ltac:(by apply Forall_fmap)) as Hnn.
  rewrite decide_False by (by intros ?).
  unfold bind, ret. rewrite int_add_exact by (apply is_int_nonneg; lia).
  rewrite IH by (done || lia). f_equal. f_equal. lia.
Qed.

Lemma dims_loop_Panic (key other : Matrix → Z) e k0 ms acc σ :
  Exists (λ m, key m ≠ k0) ms →
  foldM (λ s m, if decide (k0 ≠ key m) then panic e
                else ret (int_add s (other m))) acc ms σ
  = Panic e.
Proof.
  intros Hex. revert acc. induction Hex as [m ms Hm|m ms Hex IH];
    intros acc; simpl.
  - by rewrite decide_True by (by intros ?).
  - destruct (decide (k0 ≠ key m)); [done|]. apply IH.
Qed.

Lemma len_row_of σ m i :
  wf σ m → 0 ≤ i < rows m → len (row_of σ m i) = cols m.
Proof.
  intros [Hr Hc Ha Hl Hs] Hi. unfold row_of.
  rewrite length_segment by (rewrite ?Hl; nia). lia.
Qed.

Lemma len_join_rows σ ms nrows i :
  Forall (wf σ) ms → Forall (λ m, rows m = nrows) ms → 0 ≤ i < nrows →
  len (mjoin ((λ m, row_of σ m i) <$> ms)) = sumZ (cols <$> ms).
Proof.
  intros Hwf Hrows Hi. induction ms as [|m ms IH]; [done|].
  apply Forall_cons in Hwf as [Hm Hwf], Hrows as [Hrm Hrows].
  rewrite !fmap_cons, sumZ_cons, join_cons. unfold len in *.
  rewrite length_app, Nat2Z.inj_add, IH by done.
  pose proof (len_row_of σ m i Hm ltac:(lia)) as Hrow.
  unfold len in Hrow. lia.
Qed.

Lemma len_concat_cols σ ms nrows :
  0 ≤ nrows → Forall (wf σ) ms → Forall (λ m, rows m = nrows) ms →
  len (concat_cols σ ms nrows) = nrows * sumZ (cols <$> ms).
Proof.
  intros Hn Hwf Hrows. unfold concat_cols, len.
  pose proof (sumZ_nonneg (cols <$> ms)) as Hnn.
  rewrite (length_join_same _ _ (Z.to_nat (sumZ (cols <$> ms)))).
  - rewrite length_seqZ.
    assert (0 ≤ sumZ (cols <$> ms)); [|nia].
    apply Hnn, Forall_fmap. eapply Forall_impl; [exact Hwf|].
    intros m Hm. apply Hm.
  - intros i Hi%elem_of_seqZ.
    pose proof (len_join_rows σ ms nrows i Hwf Hrows ltac:(lia)) as H.
    unfold len in H. lia.
Qed.

Lemma ConcatenateCols_Ok σ m0 rest :
  let ms := m0 :: rest in
  Forall (wf σ) ms → Forall (λ m, rows m = rows m0) ms →
  sumZ (cols <$> ms) ≤ int_max →
  rows m0 * sumZ (cols <$> ms) ≤ max_len →
  ConcatenateCols ms σ =
    Ok (mkMatrix (rows m0) (sumZ (cols <$> ms)) (length σ),
        σ ++ [concat_cols σ ms (rows m0)]).
Proof.
  pose proof max_len_int_max as Hlim.
  intros ms Hwf Hrows Hsum Hsz. unfold ConcatenateCols. subst ms.
  cbv beta iota zeta. set (ms := m0 :: rest) in *.
  assert (Forall (λ m, 0 ≤ cols m) ms) as Hcols.
  { eapply Forall_impl; [exact Hwf|]. intros m Hm. apply Hm. }
  pose proof (sumZ_nonneg (cols <$> ms) ltac:(by apply Forall_fmap)) as Hnn.
  assert (0 ≤ rows m0) as Hr0.
  { apply Forall_cons in Hwf as [H0 _]. apply H0. }
  unfold Rows, Cols.
  mstep (dims_loop_Ok rows cols) by (done || lia).
  rewrite Z.add_0_l.
  rewrite int_mul_exact by (apply is_int_nonneg; nia).
  mstep makeslice_cap_Ok by nia.
  unfold ForAcc.
  mstep (foldM_pure _ (λ d i, d ++ mjoin ((λ m, row_of σ m i) <$> ms))).
  - rewrite foldl_app_join. done.
  - intros d i Hi%elem_of_seqZ.
    rewrite (foldM_pure _ (λ d m, d ++ row_of σ m i)).
    + by rewrite foldl_app_join.
    + intros d' m Hm.
      rewrite Forall_forall in Hwf, Hrows.
      destruct (Hwf m Hm) as [Hr Hc Ha Hl Hs]. specialize (Hrows m Hm).
      simpl in Hrows.
      rewrite int_add_exact by (apply is_int_nonneg; lia).
      rewrite !int_mul_exact by (apply is_int_nonneg; nia).
      mstep subslice_Ok by (rewrite ?Hl; nia). done.
Qed.

Lemma ConcatenateRows_Ok σ m0 rest :
  let ms := m0 :: rest in
  Forall (wf σ) ms → Forall (λ m, cols m = cols m0) ms →
  sumZ (rows <$> ms) ≤ int_max →
  sumZ (rows <$> ms) * cols m0 ≤ max_len →
  ConcatenateRows ms σ =
    Ok (mkMatrix (sumZ (rows <$> ms)) (cols m0) (length σ),
        σ ++ [mjoin ((λ m, buf σ (data m)) <$> ms)]).
Proof.
  pose proof max_len_int_max as Hlim.
  intros ms Hwf Hcols Hsum Hsz. unfold ConcatenateRows. subst ms.
  cbv beta iota zeta. set (ms := m0 :: rest) in *.
  assert (Forall (λ m, 0 ≤ rows m) ms) as Hrows.
  { eapply Forall_impl; [exact Hwf|]. intros m Hm. apply Hm. }
  pose proof (sumZ_nonneg (rows <$> ms) ltac:(by apply Forall_fmap)) as Hnn.
  assert (0 ≤ cols m0) as Hc0.
  { apply Forall_cons in Hwf as [H0 _]. apply H0. }
  unfold Rows, Cols.
  mstep (dims_loop_Ok cols rows) by (done || lia).
  rewrite Z.add_0_l.
  rewrite int_mul_exact by (apply is_int_nonneg; nia).
  mstep makeslice_cap_Ok by nia.
  mstep (foldM_pure _ (λ d m, d ++ buf σ (data m))).
  - rewrite foldl_app_join. done.
  - intros d m Hm. done.
Qed.

(** Beyond the limit of the run time, the allocation of the result
    panics. *)
Lemma ConcatenateCols_limit σ m0 rest :
  let ms := m0 :: rest in
  Forall (wf σ) ms → Forall (λ m, rows m = rows m0) ms →
  sumZ (cols <$> ms) ≤ int_max →
  max_len < rows m0 * sumZ (cols <$> ms) ≤ int_max →
  ConcatenateCols ms σ = Panic RuntimeMakeSliceCap.
Proof.
  intros ms Hwf Hrows Hsum Hsz. unfold ConcatenateCols. subst ms.
  cbv beta iota zeta. set (ms := m0 :: rest) in *.
  assert (Forall (λ m, 0 ≤ cols m) ms) as Hcols.
  { eapply Forall_impl; [exact Hwf|]. intros m Hm. apply Hm. }
  pose proof (sumZ_nonneg (cols <$> ms) ltac:(by apply Forall_fmap)) as Hnn.
  assert (0 ≤ rows m0) as Hr0.
  { apply Forall_cons in Hwf as [H0 _]. apply H0. }
  unfold Rows, Cols.
  mstep (dims_loop_Ok rows cols) by (done || lia).
  rewrite Z.add_0_l.
  rewrite int_mul_exact by (apply is_int_nonneg; nia).
  apply bind_Panic, makeslice_cap_Panic. lia.
Qed.

Lemma ConcatenateRows_limit σ m0 rest :
  let ms := m0 :: rest in
  Forall (wf σ) ms → Forall (λ m, cols m = cols m0) ms →
  sumZ (rows <$> ms) ≤ int_max →
  max_len < sumZ (rows <$> ms) * cols m0 ≤ int_max →
  ConcatenateRows ms σ = Panic RuntimeMakeSliceCap.
Proof.
  intros ms Hwf Hcols Hsum Hsz. unfold ConcatenateRows. subst ms.
  cbv beta iota zeta. set (ms := m0 :: rest) in *.
  assert (Forall (λ m, 0 ≤ rows m) ms) as Hrows.
  { eapply Forall_impl; [exact Hwf|]. intros m Hm. apply Hm. }
  pose proof (sumZ_nonneg (rows <$> ms) ltac:(by apply Forall_fmap)) as Hnn.
  assert (0 ≤ cols m0) as Hc0.
  { apply Forall_cons in Hwf as [H0 _]. apply H0. }
  unfold Rows, Cols.
  mstep (dims_loop_Ok cols rows) by (done || lia).
  rewrite Z.add_0_l.
  rewrite int_mul_exact by (apply is_int_nonneg; nia).
  apply bind_Panic, makeslice_cap_Panic. lia.
Qed.

Lemma len_join_bufs σ ms ncols :
  Forall (wf σ) ms → Forall (λ m, cols m = ncols) ms →
  len (mjoin ((λ m, buf σ (data m)) <$> ms)) = sumZ (rows <$> ms) * ncols.
Proof.
  intros Hwf Hcols. induction ms as [|m ms IH]; [done|].
  apply Forall_cons in Hwf as [Hm Hwf], Hcols as [Hcm Hcols].
  rewrite !fmap_cons, sumZ_cons, join_cons. unfold len in *.
  rewrite length_app, Nat2Z.inj_add, IH by done.
  destruct Hm as [_ _ _ Hl _]. unfold len in Hl. nia.
Qed.

(** ** Loops that write a grid into one buffer *)

(** A loop whose body only rewrites one buffer of the store, [ctx b] being
    the store in which that buffer holds [b]. *)
Lemma foldM_ctx {X} (ctx : list float64 → store) (P : list float64 → Prop)
    (step : X → M unit) (g : list float64 → X → list float64) l :
  (∀ x b, x ∈ l → P b → step x (ctx b) = Ok (tt, ctx (g b x)) ∧ P (g b x)) →
  ∀ b, P b → foldM (λ _ x, step x) tt l (ctx b) = Ok (tt, ctx (foldl g b l)).
Proof.
  induction l as [|x l IH]; intros Hb b HP; [done|].
  destruct (Hb x b ltac:(left) HP) as [Hs HP'].
  simpl. rewrite (bind_Ok _ _ _ _ _ Hs).
  apply IH; [|done]. intros. apply Hb; [by right|done].
Qed.

Lemma grid_loop (ctx : list float64 → store) nrows ncols
    (step : Z → Z → M unit) (idx : Z * Z → nat) (v : Z * Z → float64) n b :
  (∀ i j b', 0 ≤ i < nrows → 0 ≤ j < ncols → length b' = n →
     step i j (ctx b') = Ok (tt, ctx (<[idx (i, j) := v (i, j)]> b'))) →
  length b = n →
  For nrows (λ i, For ncols (λ j, step i j)) (ctx b) =
    Ok (tt, ctx (writes idx v b (cells nrows ncols))).
Proof.
  intros Hstep Hb. rewrite For_nested.
  apply (foldM_ctx ctx (λ b', length b' = n) (λ ij, step ij.1 ij.2)
           (λ b' ij, <[idx ij := v ij]> b')); [|done].
  intros [i j] b' [Hi Hj]%elem_of_cells Hb'. simpl.
  split; [by apply Hstep|]. by rewrite length_insert.
Qed.

Lemma NoDup_row_major nrows ncols :
  NoDup ((λ ij : Z * Z, Z.to_nat (ij.1 * ncols + ij.2)) <$> cells nrows ncols).
Proof.
  apply NoDup_fmap_2_strong; [|apply NoDup_cells].
  intros [i j] [i' j'] H1 H2. simpl.
  apply elem_of_cells in H1 as [Hi Hj], H2 as [Hi' Hj']. intros Heq.
  destruct (offset_inj ncols i j i' j'); [done..|nia|]. by subst.
Qed.

Lemma NoDup_col_major nrows ncols :
  NoDup ((λ ij : Z * Z, Z.to_nat (ij.2 * nrows + ij.1)) <$> cells nrows ncols).
Proof.
  apply NoDup_fmap_2_strong; [|apply NoDup_cells].
  intros [i j] [i' j'] H1 H2. simpl.
  apply elem_of_cells in H1 as [Hi Hj], H2 as [Hi' Hj']. intros Heq.
  destruct (offset_inj nrows j i j' i'); [done..|nia|]. by subst.
Qed.

(** After the row-major writes of a whole grid, cell [(i, j)] holds
    [v (i, j)]. *)
Lemma cell_writes_row_major nrows ncols (v : Z * Z → float64) b i j :
  len b = nrows * ncols → 0 ≤ i < nrows → 0 ≤ j < ncols →
  cell (writes (λ ij, Z.to_nat (ij.1 * ncols + ij.2)) v b (cells nrows ncols))
       ncols i j = v (i, j).
Proof.
  intros Hlen Hi Hj. unfold cell.
  rewrite (writes_lookup_in (λ ij, Z.to_nat (ij.1 * ncols + ij.2)) v _ _ (i, j));
    [done|apply NoDup_row_major|by apply elem_of_cells|].
  simpl. unfold len in Hlen. nia.
Qed.

Lemma len_writes {X} (idx : X → nat) v b (l : list X) :
  len (writes idx v b l) = len b.
Proof. unfold len. by rewrite length_writes. Qed.

(** ** [FilterRows] *)

Lemma filter_rows_loop (f : Z → bool) (h : Z → list float64) l r0 d0 :
  0 ≤ r0 → r0 + len l ≤ int_max →
  foldl (λ (rd : Z * list float64) i,
           if f i then (int_add rd.1 1, rd.2 ++ h i) else rd) (r0, d0) l
  = (r0 + len (filter (λ i, f i = true) l),
     d0 ++ mjoin (h <$> filter (λ i, f i = true) l)).
Proof.
  revert r0 d0. induction l as [|i l IH]; intros r0 d0 Hr0 Hmax.
  { simpl. by rewrite Z.add_0_r, app_nil_r. }
  unfold len in *. rewrite length_cons in Hmax. simpl.
  pose proof (length_filter (λ i, f i = true) l) as Hle.
  destruct (f i) eqn:Hfi.
  - rewrite filter_cons_True by done.
    rewrite int_add_exact by (apply is_int_nonneg; lia).
    rewrite IH by lia. rewrite fmap_cons, join_cons, length_cons.
    rewrite <- app_assoc. f_equal. lia.
  - rewrite filter_cons_False by (by rewrite Hfi). apply IH; lia.
Qed.

Lemma FilterRows_Ok σ m f :
  wf σ m →
  let kept := filter (λ i, f i = true) (seqZ 0 (rows m)) in
  FilterRows m f σ =
    Ok (mkMatrix (len kept) (cols m) (length σ),
        σ ++ [mjoin (row_of σ m <$> kept)]).
Proof.
  pose proof max_len_int_max as Hlim.
  intros [Hr Hc Ha Hl Hs] kept. unfold FilterRows, ForAcc, Cols.
  mstep (foldM_pure _
          (λ (rd : Z * list float64) i,
             if f i then (int_add rd.1 1, rd.2 ++ row_of σ m i) else rd)).
  - rewrite filter_rows_loop by (unfold len; rewrite ?length_seqZ; lia).
    done.
  - intros rd i Hi%elem_of_seqZ. destruct (f i); [|done].
    rewrite int_add_exact by (apply is_int_nonneg; lia).
    rewrite !int_mul_exact by (apply is_int_nonneg; nia).
    mstep subslice_Ok by (rewrite ?Hl; nia). done.
Qed.

Lemma len_join_kept σ m (kept : list Z) :
  wf σ m → Forall (λ i, 0 ≤ i < rows m) kept →
  len (mjoin (row_of σ m <$> kept)) = len kept * cols m.
Proof.
  intros Hwf Hk. unfold len.
  rewrite (length_join_same _ _ (Z.to_nat (cols m))).
  - destruct Hwf. nia.
  - intros i Hi. rewrite Forall_forall in Hk.
    pose proof (len_row_of σ m i Hwf (Hk i Hi)) as H. unfold len in H. lia.
Qed.

(** ** [T] *)

Lemma T_Ok σ m :
  wf σ m →
  T m σ =
    Ok (mkMatrix (cols m) (rows m) (length σ),
        σ ++ [writes (λ ij, Z.to_nat (ij.2 * rows m + ij.1))
                (λ ij, cell (buf σ (data m)) (cols m) ij.1 ij.2)
                (replicate (Z.to_nat (rows m * cols m)) fzero)
                (cells (rows m) (cols m))]).
Proof.
  intros Hwf. pose proof Hwf as [Hr Hc Ha Hl Hs]. unfold T.
  unfold bind at 1. unfold slice_len at 1. cbv beta iota. rewrite Hl.
  mstep makeslice_Ok by nia.
  mstep (grid_loop (λ b, σ ++ [b]) (rows m) (cols m) _
           (λ ij, Z.to_nat (ij.2 * rows m + ij.1))
           (λ ij, cell (buf σ (data m)) (cols m) ij.1 ij.2)
           (Z.to_nat (rows m * cols m))).
  - done.
  - intros i j b' Hi Hj Hb'.
    mstep (at_Ok (σ ++ [b']) m i j) by (done || by apply wf_app).
    rewrite buf_app_l by done. unfold set. simpl.
    rewrite (offset_exact (cols m)) by (done || lia).
    apply assign_last. unfold len. nia.
  - by rewrite length_replicate.
Qed.

Lemma cell_transposed nrows ncols (v : Z * Z → float64) b i j :
  len b = nrows * ncols → 0 ≤ i < nrows → 0 ≤ j < ncols →
  cell (writes (λ ij, Z.to_nat (ij.2 * nrows + ij.1)) v b (cells nrows ncols))
       nrows j i = v (i, j).
Proof.
  intros Hlen Hi Hj. unfold cell.
  rewrite (writes_lookup_in (λ ij, Z.to_nat (ij.2 * nrows + ij.1)) v _ _ (i, j));
    [done|apply NoDup_col_major|by apply elem_of_cells|].
  simpl. unfold len in Hlen. nia.
Qed.

(** ** Equality of cells *)

Lemma SFeqb_sym f1 f2 : SFeqb f1 f2 = SFeqb f2 f1.
Proof.
  unfold SFeqb, SFcompare.
  destruct f1 as [s1|s1| |s1 m1 e1], f2 as [s2|s2| |s2 m2 e2];
    try destruct s1; try destruct s2; try reflexivity;
    rewrite (Z.compare_antisym e1 e2);
    destruct (e1 ?= e2)%Z; simpl; try reflexivity;
    change (Pos.compare_cont Eq m1 m2) with (m1 ?= m2)%positive;
    change (Pos.compare_cont Eq m2 m1) with (m2 ?= m1)%positive;
    rewrite (Pos.compare_antisym m1 m2);
    destruct (m1 ?= m2)%positive; reflexivity.
Qed.

Lemma feq_sym x y : feq x y = feq y x.
Proof. unfold feq. rewrite !FloatAxioms.eqb_spec. apply SFeqb_sym. Qed.

Lemma feq_refl_iff x : feq x x = true ↔ is_nan x = false.
Proof. unfold feq, is_nan. by destruct (x =? x)%float. Qed.

(** ** [Equals] *)

Lemma Equals_dims_differ σ a b :
  cols a ≠ cols b ∨ rows a ≠ rows b → Equals a b σ = Ok (false, σ).
Proof. intros. unfold Equals. by rewrite decide_True. Qed.

Lemma Equals_loop σ (pa pb : loc) l :
  Forall (λ k, 0 ≤ k < len (buf σ pa) ∧ 0 ≤ k < len (buf σ pb)) l →
  foldRet (λ i,
      v <- index pa i ;; w <- index pb i ;;
      if negb (feq v w) then ret (Some false) else ret None) l σ
  = Ok (if forallb (λ k, feq (default fzero (buf σ pa !! Z.to_nat k))
                            (default fzero (buf σ pb !! Z.to_nat k))) l
        then None else Some false, σ).
Proof.
  induction 1 as [|k l [Hka Hkb] Hl IH]; [done|].
  cbn [foldRet forallb]. unfold bind at 1.
  mstep index_Ok by done. mstep index_Ok by done.
  destruct (feq _ _); cbn [negb andb]; [|done].
  unfold ret at 1. cbv beta iota. by rewrite IH.
Qed.

Lemma Equals_same_dims σ a b :
  wf σ a → wf σ b → cols a = cols b → rows a = rows b →
  Equals a b σ = Ok (buffers_equal (buf σ (data a)) (buf σ (data b)), σ).
Proof.
  intros [_ _ _ Hla _] [_ _ _ Hlb _] Hc Hr. unfold Equals.
  rewrite decide_False by lia.
  unfold bind at 1. unfold slice_len at 1. cbv beta iota.
  mstep Equals_loop.
  - unfold buffers_equal, ret. by destruct (forallb _ _).
  - apply Forall_seqZ. intros k Hk. rewrite Hlb, <- Hr, <- Hc, <- Hla. lia.
Qed.

(** The buffers compare equal exactly when all cells do. *)
Lemma buffers_equal_cells (A B : list float64) nrows ncols :
  0 ≤ nrows → 0 ≤ ncols → len A = nrows * ncols →
  buffers_equal A B = true ↔
  ∀ i j, 0 ≤ i < nrows → 0 ≤ j < ncols →
    feq (cell A ncols i j) (cell B ncols i j) = true.
Proof.
  intros Hr Hc Hlen. unfold buffers_equal.
  rewrite forallb_forall, Hlen. split.
  - intros Hall i j Hi Hj. unfold cell. apply Hall.
    apply list_elem_of_In, elem_of_seqZ. nia.
  - intros Hall k Hk%list_elem_of_In%elem_of_seqZ.
    assert (0 < ncols) by nia.
    pose proof (Z.div_mod k ncols ltac:(lia)) as Hdm.
    pose proof (Z.mod_pos_bound k ncols ltac:(lia)) as Hm.
    assert (0 ≤ k `div` ncols) by (apply Z.div_pos; lia).
    assert (k `div` ncols < nrows) by (apply Z.div_lt_upper_bound; lia).
    specialize (Hall (k `div` ncols) (k `mod` ncols) ltac:(lia) ltac:(lia)).
    unfold cell in Hall.
    by replace (k `div` ncols * ncols + k `mod` ncols) with k in Hall by lia.
Qed.

Lemma buffers_equal_sym (A B : list float64) :
  len A = len B → buffers_equal A B = buffers_equal B A.
Proof.
  intros Hlen. unfold buffers_equal. rewrite Hlen.
  generalize (seqZ 0 (len B)) as l.
  induction l as [|k l IH]; [done|]. simpl. by rewrite IH, feq_sym.
Qed.

Lemma buffers_equal_refl (A : list float64) :
  buffers_equal A A = true ↔ Forall (λ x, is_nan x = false) A.
Proof.
  unfold buffers_equal. rewrite forallb_forall, Forall_forall. split.
  - intros Hall x Hx. apply list_elem_of_lookup in Hx as [k Hk].
    apply feq_refl_iff.
    specialize (Hall (Z.of_nat k)). rewrite Nat2Z.id, Hk in Hall.
    apply Hall, list_elem_of_In, elem_of_seqZ.
    apply lookup_lt_Some in Hk. unfold len. lia.
  - intros Hall k Hk%list_elem_of_In%elem_of_seqZ.
    destruct (lookup_lt_is_Some_2 A (Z.to_nat k)) as [x Hx];
      [unfold len in Hk; lia|].
    rewrite Hx. simpl. apply feq_refl_iff, Hall.
    by eapply list_elem_of_lookup_2.
Qed.

(** ** [FromSlice], [FromFunc], [dotApply], [Apply] and [Reduce] *)

Lemma FromSlice_Ok σ nrows ncols d :
  0 ≤ nrows → 0 ≤ ncols → nrows * ncols ≤ max_len →
  (d < length σ)%nat → len (buf σ d) = nrows * ncols →
  FromSlice nrows ncols d σ =
    Ok (mkMatrix nrows ncols (length σ), σ ++ [buf σ d]).
Proof.
  pose proof max_len_int_max as Hlim.
  intros Hr Hc Hs Hd Hl. unfold FromSlice.
  unfold bind at 1. unfold slice_len at 1. cbv beta iota.
  rewrite int_mul_exact by (apply is_int_nonneg; nia).
  rewrite decide_False by lia.
  mstep makeslice_Ok by nia.
  mstep copy_last by (rewrite ?length_replicate; unfold len; lia).
  done.
Qed.

Lemma FromSlice_Panic σ nrows ncols d :
  len (buf σ d) ≠ int_mul nrows ncols →
  FromSlice nrows ncols d σ =
    Panic (PanicMismatchedData nrows ncols (len (buf σ d))).
Proof.
  intros Hl. unfold FromSlice.
  unfold bind at 1. unfold slice_len at 1. cbv beta iota.
  by rewrite decide_True.
Qed.

Lemma FromFunc_Ok σ nrows ncols f :
  0 ≤ nrows → 0 ≤ ncols → nrows * ncols ≤ max_len →
  FromFunc nrows ncols f σ =
    Ok (mkMatrix nrows ncols (length σ),
        σ ++ [writes (λ ij, Z.to_nat (ij.1 * ncols + ij.2))
                (λ ij, f ij.1 ij.2)
                (replicate (Z.to_nat (nrows * ncols)) fzero)
                (cells nrows ncols)]).
Proof.
  pose proof max_len_int_max as Hlim.
  intros Hr Hc Hs. unfold FromFunc.
  rewrite int_mul_exact by (apply is_int_nonneg; nia).
  mstep makeslice_Ok by nia.
  mstep (grid_loop (λ b, σ ++ [b]) nrows ncols _
           (λ ij, Z.to_nat (ij.1 * ncols + ij.2)) (λ ij, f ij.1 ij.2)
           (Z.to_nat (nrows * ncols))).
  - done.
  - intros i j b' Hi Hj Hb'. unfold set. simpl.
    rewrite (offset_exact nrows) by done.
    apply assign_last. unfold len. nia.
  - by rewrite length_replicate.
Qed.

(** Beyond the limit of the run time, the allocation panics. *)
Lemma FromSlice_limit σ nrows ncols d :
  len (buf σ d) = int_mul nrows ncols → max_len < len (buf σ d) →
  FromSlice nrows ncols d σ = Panic RuntimeMakeSliceLen.
Proof.
  intros Hl Hbig. unfold FromSlice.
  unfold bind at 1. unfold slice_len at 1. cbv beta iota.
  rewrite decide_False by lia.
  apply bind_Panic, makeslice_Panic. by right.
Qed.

Lemma FromFunc_limit σ nrows ncols f :
  max_len < nrows * ncols ≤ int_max →
  FromFunc nrows ncols f σ = Panic RuntimeMakeSliceLen.
Proof.
  intros Hbig. pose proof max_len_int_max. unfold FromFunc.
  apply bind_Panic, makeslice_Panic. right.
  rewrite int_mul_exact; [lia|]. unfold is_int, int_min, max_len in *. lia.
Qed.

Lemma dotApply_Ok σ a b f :
  wf σ a → wf σ b → cols a = cols b → rows a = rows b →
  dotApply a b f σ =
    Ok (mkMatrix (rows a) (cols a) (length σ),
        σ ++ [writes (λ ij, Z.to_nat (ij.1 * cols a + ij.2))
                (λ ij, f (cell (buf σ (data a)) (cols a) ij.1 ij.2)
                         (cell (buf σ (data b)) (cols b) ij.1 ij.2))
                (replicate (Z.to_nat (rows a * cols a)) fzero)
                (cells (rows a) (cols a))]).
Proof.
  intros Ha Hb Hc Hr. unfold dotApply.
  rewrite decide_False by lia.
  pose proof Ha as [Har Hac Haa Hal Has].
  mstep New_Ok by lia. rewrite <- Hc.
  mstep (grid_loop (λ b', σ ++ [b']) (rows a) (cols a) _
           (λ ij, Z.to_nat (ij.1 * cols a + ij.2))
           (λ ij, f (cell (buf σ (data a)) (cols a) ij.1 ij.2)
                    (cell (buf σ (data b)) (cols a) ij.1 ij.2))
           (Z.to_nat (rows a * cols a))).
  - done.
  - intros i j b' Hi Hj Hb'.
    mstep (at_Ok (σ ++ [b']) a i j) by (done || by apply wf_app).
    mstep (at_Ok (σ ++ [b']) b i j) by (done || lia || by apply wf_app).
    rewrite !buf_app_l by (done || apply Hb). rewrite <- Hc.
    unfold set. simpl.
    rewrite (offset_exact (rows a)) by done.
    apply assign_last. unfold len. nia.
  - by rewrite length_replicate.
Qed.

Lemma dotApply_Panic σ a b f :
  cols a ≠ cols b ∨ rows a ≠ rows b →
  dotApply a b f σ =
    Panic (PanicDotApplyDims (rows a) (cols a) (rows b) (cols b)).
Proof. intros. unfold dotApply. by rewrite decide_True. Qed.

(** [Apply] writes through the receiver's slice: the buffer that changes is
    the receiver's own. *)
Lemma Apply_Ok σ m f :
  wf σ m →
  Apply m f σ =
    Ok (tt, <[data m := writes (λ ij, Z.to_nat (ij.1 * cols m + ij.2))
                          (λ ij, f ij.1 ij.2)
                          (buf σ (data m))
                          (cells (rows m) (cols m))]> σ).
Proof.
  intros [Hr Hc Ha Hl Hs]. unfold Apply.
  destruct (lookup_lt_is_Some_2 σ (data m) Ha) as [b0 Hb0].
  assert (buf σ (data m) = b0) as Hbuf by (unfold buf; by rewrite Hb0).
  rewrite Hbuf in *.
  rewrite <- (list_insert_id σ (data m) b0 Hb0) at 1.
  apply (grid_loop (λ b, <[data m := b]> σ) (rows m) (cols m) _
           (λ ij, Z.to_nat (ij.1 * cols m + ij.2)) (λ ij, f ij.1 ij.2)
           (length b0)); [|done].
  intros i j b' Hi Hj Hb'. unfold set, assign.
  assert (buf (<[data m := b']> σ) (data m) = b') as ->.
  { unfold buf. by rewrite list_lookup_insert_eq. }
  rewrite (offset_exact (rows m)) by done.
  rewrite decide_True by (unfold len in *; nia).
  by rewrite list_insert_insert_eq.
Qed.

Lemma foldl_ext_elem {S X} (g1 g2 : S → X → S) (l : list X) :
  (∀ s x, x ∈ l → g1 s x = g2 s x) → ∀ s, foldl g1 s l = foldl g2 s l.
Proof.
  induction l as [|x l IH]; intros Hg s; [done|].
  simpl. rewrite Hg by left. apply IH. intros. apply Hg. by right.
Qed.

Lemma fold_by_index {S A} (h : S → A → S) (d : A) (b : list A) (s : S) :
  foldl (λ s i, h s (default d (b !! Z.to_nat i))) s (seqZ 0 (len b))
  = foldl h s b.
Proof.
  revert s. induction b as [|x b IH] using rev_ind; intros s; [done|].
  unfold len in *. rewrite length_app, Nat.add_1_r, seqZ_S, !foldl_app.
  simpl. rewrite Z.add_0_l, Nat2Z.id, list_lookup_middle by done. simpl.
  f_equal. rewrite <- IH. apply foldl_ext_elem. intros s' i Hi.
  apply elem_of_seqZ in Hi.
  by rewrite lookup_app_l by lia.
Qed.

Lemma Reduce_Ok σ m zero f :
  Reduce m zero f σ = Ok (foldl (λ cum x, f x cum) zero (buf σ (data m)), σ).
Proof.
  unfold Reduce. unfold bind at 1. unfold slice_len at 1. cbv beta iota.
  unfold ForAcc.
  rewrite (foldM_pure _
             (λ cum i, f (default fzero (buf σ (data m) !! Z.to_nat i)) cum)).
  - by rewrite (fold_by_index (λ cum x, f x cum)).
  - intros cum i Hi%elem_of_seqZ. mstep index_Ok by lia. done.
Qed.

(** ** The delegated product *)

Lemma confined_refl c σ : confined c σ σ.
Proof. done. Qed.

Lemma confined_trans c σ1 σ2 σ3 :
  confined c σ1 σ2 → confined c σ2 σ3 → confined c σ1 σ3.
Proof.
  intros (Hl1 & Hp1 & Hc1) (Hl2 & Hp2 & Hc2). split_and!; [congruence| |congruence].
  intros p Hp. by rewrite Hp2, Hp1.
Qed.

Lemma foldM_confined {S X} c (body : S → X → M S) l :
  (∀ s x σ s' σ', body s x σ = Ok (s', σ') → confined c σ σ') →
  ∀ s σ s' σ', foldM body s l σ = Ok (s', σ') → confined c σ σ'.
Proof.
  intros Hb. induction l as [|x l IH]; intros s σ s' σ' Hrun.
  { simpl in Hrun. unfold ret in Hrun. simplify_eq. apply confined_refl. }
  simpl in Hrun. apply bind_inv_Ok in Hrun as (s1 & σ1 & H1 & H2).
  eapply confined_trans; [by eapply Hb|by eapply IH].
Qed.

Lemma index_inv p i σ x σ' : index p i σ = Ok (x, σ') → σ' = σ.
Proof. unfold index. destruct (decide _); [by intros [= _ <-]|done]. Qed.

Lemma foldM_readonly {S X} (body : S → X → M S) l :
  (∀ s x σ s' σ', body s x σ = Ok (s', σ') → σ' = σ) →
  ∀ s σ s' σ', foldM body s l σ = Ok (s', σ') → σ' = σ.
Proof.
  intros Hb. induction l as [|x l IH]; intros s σ s' σ' Hrun.
  { simpl in Hrun. unfold ret in Hrun. by simplify_eq. }
  simpl in Hrun. apply bind_inv_Ok in Hrun as (s1 & σ1 & H1 & H2).
  apply Hb in H1 as ->. by eapply IH.
Qed.

Lemma assign_confined p i x σ σ' :
  assign p i x σ = Ok (tt, σ') → confined p σ σ'.
Proof.
  unfold assign. case_decide as Hi; [|done]. intros [= <-].
  assert (p < length σ)%nat as Hp.
  { destruct (decide (p < length σ)%nat) as [|Hge]; [done|].
    unfold buf, len in Hi. rewrite lookup_ge_None_2 in Hi by lia.
    simpl in Hi. lia. }
  split_and!.
  - by rewrite length_insert.
  - intros q Hq. by rewrite list_lookup_insert_ne.
  - unfold buf at 1. rewrite list_lookup_insert_eq by done. simpl.
    by rewrite length_insert.
Qed.

Lemma Gemm_ref_confined : gemm_confined Gemm_ref.
Proof.
  intros tA tB alpha A B beta C σ σ' Hrun. unfold Gemm_ref, For, ForAcc in Hrun.
  eapply foldM_confined; [|exact Hrun]. clear.
  intros [] i σ [] σ' Hrun.
  eapply foldM_confined; [|exact Hrun]. clear.
  intros [] j σ [] σ' Hrun.
  apply bind_inv_Ok in Hrun as (p & σ1 & H1 & H2).
  assert (σ1 = σ) as ->.
  { eapply foldM_readonly; [|exact H1]. clear.
    intros s l σ s' σ' Hb.
    apply bind_inv_Ok in Hb as (x & σ3 & Hx & Hb).
    apply index_inv in Hx as ->.
    apply bind_inv_Ok in Hb as (y & σ4 & Hy & Hb).
    apply index_inv in Hy as ->. unfold ret in Hb. by simplify_eq. }
  apply bind_inv_Ok in H2 as (old & σ2 & Hold & H2).
  apply index_inv in Hold as ->. by eapply assign_confined.
Qed.

(** [BlasProduct] performs no check of its own: when it panics, the panic
    is the allocation's or the external routine's. *)
Lemma BlasProduct_unfold G a b σ :
  BlasProduct G a b σ =
    match New (rows a) (cols b) σ with
    | Ok (c, σ1) =>
        match G NoTrans NoTrans 1%float (generalFromMat a) (generalFromMat b)
                0%float (generalFromMat c) σ1 with
        | Ok (_, σ2) => Ok (c, σ2)
        | Panic e => Panic e
        end
    | Panic e => Panic e
    end.
Proof.
  unfold BlasProduct, bind, Rows, Cols.
  destruct (New _ _ σ) as [[c σ1]|e]; [|done].
  by destruct (G _ _ _ _ _ _ _ σ1) as [[[] σ2]|e].
Qed.

(** * The statements of the specification *)

(** Discharges [wf] for a concrete matrix in a concrete store. *)
Ltac concrete_wf :=
  split; cbn; unfold int_max, max_len, len; cbn; first [lia | reflexivity].

(** ** C10: the constructor *)

(** C10 (as amended).  [New] does not validate its dimension arguments.
    When the product [rows*cols] that the code computes is negative (as for
    rows = -1, cols = 3; the mathematical product, whenever that is a Go
    int) the call panics with the allocation's run-time error, which is
    none of the four kinds of the error taxonomy; when both dimensions are
    negative and the product is neither negative nor beyond the [2^45]
    cells that [make] accepts (as for rows = -1, cols = -1) it returns a
    matrix whose dimension fields are the negative arguments, which the
    data model excludes; when the product is beyond that limit the call
    panics with the same run-time error. *)
Theorem New_unvalidated (nrows ncols : Z) (σ : store) :
  (int_mul nrows ncols < 0 →
     New nrows ncols σ = Panic RuntimeMakeSliceLen ∧
     classify RuntimeMakeSliceLen = RuntimeError) ∧
  (nrows * ncols < 0 → is_int (nrows * ncols) →
     New nrows ncols σ = Panic RuntimeMakeSliceLen) ∧
  (nrows < 0 → ncols < 0 → 0 ≤ int_mul nrows ncols ≤ max_len →
     ∃ m σ', New nrows ncols σ = Ok (m, σ') ∧
             rows m = nrows ∧ cols m = ncols ∧ ¬ wf σ' m) ∧
  New (-1) 3 σ = Panic RuntimeMakeSliceLen ∧
  New (-1) (-1) σ = Ok (mkMatrix (-1) (-1) (length σ), σ ++ [[fzero]]) ∧
  (max_len < int_mul nrows ncols →
     New nrows ncols σ = Panic RuntimeMakeSliceLen).
Proof.
  split_and!.
  - intros Hneg. split; [apply New_raw_Panic; by left|done].
  - intros Hneg Hint. apply New_raw_Panic. left. by rewrite int_mul_exact.
  - intros Hr Hc Hpos. eexists _, _. split; [by apply New_raw_Ok|].
    split_and!; [done..|]. intros [Hrows _ _ _ _]. simpl in Hrows. lia.
  - apply New_raw_Panic. by left.
  - by rewrite New_raw_Ok.
  - intros Hbig. apply New_raw_Panic. by right.
Qed.

Lemma New_unvalidated_witness :
  New (-2) 5 [] = Panic RuntimeMakeSliceLen ∧
  ∃ m σ', New (-2) (-3) [] = Ok (m, σ') ∧ rows m = -2 ∧ cols m = -3.
Proof.
  destruct (New_unvalidated (-2) 5 []) as (H1 & _).
  destruct (New_unvalidated (-2) (-3) []) as (_ & _ & H2 & _).
  split.
  - apply H1. reflexivity.
  - destruct H2 as (m & σ' & Hm & Hr & Hc & _);
      [reflexivity|reflexivity|by vm_compute|].
    by exists m, σ'.
Defined.

(** The statement of the specification fails for large negative
    dimensions: [New(-(1<<31), -(1<<31))] is given two negative dimensions
    whose product [1<<62] is not negative, and panics in [make] with
    "makeslice: len out of range" where the statement has it return a
    matrix. *)
Lemma New_negative_counterexample :
  let n := - 2 ^ 31 in
  n < 0 ∧ 0 ≤ n * n ∧ int_mul n n = n * n ∧
  ∀ σ, New n n σ = Panic RuntimeMakeSliceLen.
Proof.
  intros n. split_and!; [done..|reflexivity|].
  intros σ. apply New_raw_Panic. right. reflexivity.
Qed.

(** ** C1: the sequential product *)

(** C1 (as amended).  For matrices [a], [b] of the data model: when
    [a.cols != b.rows], [Product] panics with the dimension-mismatch message
    that reports the four dimensions; otherwise, provided the cell count
    [a.rows * b.cols] of the result is at most the [2^45] cells that [make]
    accepts (and so does not overflow), it returns a matrix of
    dimensions [(a.rows, b.cols)] that satisfies the data model and whose
    cell [(i, j)] is the sum over [k = 0 .. a.cols-1], accumulated in
    increasing [k] from zero, of [a(i,k) * b(k,j)]; for a larger cell count
    that is a Go int it panics in [make] with the run-time error
    "makeslice: len out of range". *)
Theorem Product_contract (σ : store) (a b : Matrix) :
  wf σ a → wf σ b →
  (cols a ≠ rows b →
     Product a b σ =
       Panic (PanicProductDims (rows a) (cols a) (rows b) (cols b)) ∧
     classify (PanicProductDims (rows a) (cols a) (rows b) (cols b))
       = DimensionMismatch) ∧
  (cols a = rows b → rows a * cols b ≤ max_len →
     ∃ c σ', Product a b σ = Ok (c, σ') ∧
       rows c = rows a ∧ cols c = cols b ∧ wf σ' c ∧
       ∀ i j, 0 ≤ i < rows a → 0 ≤ j < cols b →
         At c i j σ' =
           Ok (inner_product (buf σ (data a)) (buf σ (data b))
                 (cols a) (cols b) i j, σ')) ∧
  (cols a = rows b → max_len < rows a * cols b ≤ int_max →
     Product a b σ = Panic RuntimeMakeSliceLen).
Proof.
  intros Ha Hb. split_and!.
  - intros Hne. split; [|done]. unfold Product. by rewrite decide_True.
  - intros Hab Hsz.
    destruct (Product_Ok σ a b Ha Hb Hab Hsz) as (bc & Hrun & Hlen & Hcell).
    eexists _, _. split; [exact Hrun|].
    assert (wf (σ ++ [bc]) (mkMatrix (rows a) (cols b) (length σ))) as Hc.
    { apply wf_fresh; [apply Ha|apply Hb|done..]. }
    split_and!; [done..|]. intros i j Hi Hj.
    rewrite At_Ok by done. simpl. rewrite buf_app_last.
    by rewrite Hcell.
  - intros Hab Hbig. by apply Product_limit.
Qed.

Lemma Product_contract_witness :
  let σ := [[1; 2]; [3; 4]]%float in
  let a := mkMatrix 1 2 0%nat in
  let b := mkMatrix 2 1 1%nat in
  ∃ c σ', Product a b σ = Ok (c, σ') ∧ rows c = 1 ∧ cols c = 1 ∧
          At c 0 0 σ' = Ok (11%float, σ').
Proof.
  intros σ a b.
  destruct (Product_contract σ a b) as (_ & H & _); [concrete_wf..|].
  destruct H as (c & σ' & Hrun & Hr & Hc & _ & Hcell);
    [reflexivity|by vm_compute|].
  exists c, σ'. split_and!; [done..|].
  by rewrite (Hcell 0 0) by done.
Defined.

(** The statement of the specification fails when the cell count of the
    result overflows:
    [a = New(1<<32, 0)] and [b = New(0, 1<<32)] are conformant matrices of
    the data model, [New(1<<32, 1<<32)] allocates [1<<64 = 0] cells, and
    the first [c.set(0, 0, p)] indexes an empty slice. *)
Lemma Product_overflow_counterexample :
  let a := mkMatrix (2 ^ 32) 0 0%nat in
  let b := mkMatrix 0 (2 ^ 32) 1%nat in
  New (2 ^ 32) 0 [] = Ok (a, [[]]) ∧
  New 0 (2 ^ 32) [[]] = Ok (b, [[]; []]) ∧
  wf [[]; []] a ∧ wf [[]; []] b ∧ cols a = rows b ∧
  Product a b [[]; []] = Panic RuntimeIndexOutOfRange.
Proof.
  intros a b. split_and!; [done|done|concrete_wf..|done|].
  unfold Product. rewrite decide_False by (by intros ?).
  mstep (New_raw_Ok (rows a) (cols b)) by (by vm_compute).
  change (replicate _ fzero) with (@nil float64).
  apply bind_Panic.
  apply For_first_Panic; [reflexivity|]. apply For_first_Panic; [reflexivity|].
  vm_compute. reflexivity.
Qed.

(** ** C2: the parallel product *)

(** C2.  For conformant matrices of the data model, whatever the scheduler
    does, [ParallelProduct] has the outcome of [Product]: the same matrix
    over the same store, cell for cell the same float; and whenever the
    cell count of the result is at most the [2^45] cells that [make]
    accepts they both return. *)
Theorem ParallelProduct_equals_Product (σ : store) (a b : Matrix) :
  wf σ a → wf σ b → cols a = rows b →
  (∀ sched, ParallelProduct sched a b σ = Product a b σ) ∧
  (rows a * cols b ≤ max_len →
     ∃ c σ', Product a b σ = Ok (c, σ') ∧
             ∀ sched, ParallelProduct sched a b σ = Ok (c, σ')).
Proof.
  intros Ha Hb Hab. split.
  - intros sched. by apply ParallelProduct_eq.
  - intros Hsz.
    destruct (Product_Ok σ a b Ha Hb Hab Hsz) as (bc & Hrun & _).
    eexists _, _. split; [exact Hrun|].
    intros sched. by rewrite ParallelProduct_eq.
Qed.

Lemma ParallelProduct_equals_Product_witness :
  let σ := [[1; 2; 3; 4]; [5; 6; 7; 8]]%float in
  let a := mkMatrix 2 2 0%nat in
  let b := mkMatrix 2 2 1%nat in
  ParallelProduct [1; 0; 0; 1; 1]%nat a b σ = Product a b σ.
Proof.
  intros σ a b.
  destruct (ParallelProduct_equals_Product σ a b) as [H _];
    [concrete_wf..|reflexivity|].
  apply H.
Defined.

(** ** C8: slice ranges *)

(** C8.  For a matrix of the data model and any [from], [to]: [SliceCols]
    panics exactly when [from < 0], [to > cols] or [to < from], and then
    with the invalid-range message; otherwise it returns a matrix of
    dimensions [(rows, to-from)] that satisfies the data model (an empty one
    when [from = to]).  [SliceRows] does the same over the rows, with result
    dimensions [(to-from, cols)]. *)
Theorem slice_range_contract (σ : store) (m : Matrix) (from to : Z) :
  wf σ m →
  (((∃ e, SliceCols m from to σ = Panic e) ↔
      from < 0 ∨ to > cols m ∨ to < from) ∧
   (∀ e, SliceCols m from to σ = Panic e → classify e = InvalidRange) ∧
   (¬ (from < 0 ∨ to > cols m ∨ to < from) →
      ∃ r σ', SliceCols m from to σ = Ok (r, σ') ∧
              rows r = rows m ∧ cols r = to - from ∧ wf σ' r)) ∧
  (((∃ e, SliceRows m from to σ = Panic e) ↔
      from < 0 ∨ to > rows m ∨ to < from) ∧
   (∀ e, SliceRows m from to σ = Panic e → classify e = InvalidRange) ∧
   (¬ (from < 0 ∨ to > rows m ∨ to < from) →
      ∃ r σ', SliceRows m from to σ = Ok (r, σ') ∧
              rows r = to - from ∧ cols r = cols m ∧ wf σ' r)).
Proof.
  intros Hwf. pose proof Hwf as [Hr Hc Ha Hl Hs]. split.
  - destruct (decide (from < 0 ∨ to > cols m ∨ to < from)) as [Hbad|Hgood].
    + rewrite SliceCols_Panic by done. split_and!; [|by intros e [= <-]|done].
      split; [done|by eexists].
    + rewrite SliceCols_Ok by (done || lia). split_and!.
      * split; [by intros [e ?]|done].
      * by intros e ?.
      * intros _. eexists _, _. split; [done|]. split_and!; [done..|].
        apply wf_fresh; [lia|lia|nia|].
        apply len_slice_cols; (done || lia).
  - destruct (decide (from < 0 ∨ to > rows m ∨ to < from)) as [Hbad|Hgood].
    + rewrite SliceRows_Panic by done. split_and!; [|by intros e [= <-]|done].
      split; [done|by eexists].
    + rewrite SliceRows_Ok by (done || lia). split_and!.
      * split; [by intros [e ?]|done].
      * by intros e ?.
      * intros _. eexists _, _. split; [done|]. split_and!; [done..|].
        apply wf_fresh; [lia|lia|nia|].
        rewrite length_segment by (rewrite ?Hl; nia). lia.
Qed.

Lemma slice_range_contract_witness :
  let σ := [[1; 2; 3; 4; 5; 6]]%float in
  let m := mkMatrix 2 3 0%nat in
  SliceCols m 1 3 σ =
    Ok (mkMatrix 2 2 1%nat, σ ++ [[2; 3; 5; 6]]%float) ∧
  SliceRows m 1 1 σ = Ok (mkMatrix 0 3 1%nat, σ ++ [[]]) ∧
  ∃ e, SliceCols m 2 1 σ = Panic e.
Proof.
  intros σ m.
  destruct (slice_range_contract σ m 2 1) as [(H & _) _]; [concrete_wf..|].
  split_and!; [reflexivity|reflexivity|].
  apply H. right. right. reflexivity.
Defined.

(** ** C7: slicing and concatenating back *)

Lemma Forall_pair {A} (P : A → Prop) x y : P x → P y → Forall P [x; y].
Proof.
  intros Hx Hy. apply Forall_cons_2; [done|].
  apply Forall_cons_2; [done|]. apply Forall_nil_2.
Qed.

Lemma Forall_single_inv {A} (P : A → Prop) x : Forall P [x] → P x.
Proof. by intros [Hx _]%Forall_cons. Qed.

Lemma Forall_pair_inv {A} (P : A → Prop) x y : Forall P [x; y] → P x ∧ P y.
Proof.
  intros [Hx Hy]%Forall_cons. by apply Forall_cons in Hy as [Hy _].
Qed.

Lemma rejoin_cols (b : list float64) nrows ncols k :
  0 ≤ nrows → 0 ≤ k → k ≤ ncols → len b = nrows * ncols →
  mjoin ((λ i,
           segment (slice_cols b nrows ncols 0 k) (i * (k - 0)) ((i + 1) * (k - 0))
           ++ segment (slice_cols b nrows ncols k ncols)
                      (i * (ncols - k)) ((i + 1) * (ncols - k)) ++ [])
         <$> seqZ 0 nrows) = b.
Proof.
  intros Hn Hk Hkc Hlen.
  transitivity (mjoin ((λ i, segment b (i * ncols) ((i + 1) * ncols))
                         <$> seqZ 0 nrows)); [|apply join_rows; (done || lia)].
  f_equal. apply list_fmap_ext. intros idx i Hi%lookup_seqZ.
  unfold slice_cols.
  rewrite !segment_join_chunks; try lia.
  - rewrite app_nil_r, segment_app by nia. f_equal; lia.
  - intros j Hj. rewrite length_segment by nia. lia.
  - intros j Hj. rewrite length_segment by nia. lia.
Qed.

(** The two round trips, with the heap they leave behind. *)
Lemma roundtrip_cols_run σ m k :
  wf σ m → 0 ≤ k ≤ cols m →
  ∃ L R,
    (l <- SliceCols m 0 k ;; r <- SliceCols m k (cols m) ;;
     ConcatenateCols [l; r]) σ
    = Ok (mkMatrix (rows m) (cols m) (length ((σ ++ [L]) ++ [R])),
          ((σ ++ [L]) ++ [R]) ++ [buf σ (data m)]).
Proof.
  intros Hwf Hk. pose proof Hwf as [Hr Hc Ha Hl Hs].
  set (b := buf σ (data m)) in *.
  mstep SliceCols_Ok by (done || lia). fold b.
  set (L := slice_cols b (rows m) (cols m) 0 k).
  mstep SliceCols_Ok by (lia || by apply wf_app).
  rewrite buf_app_l by done. fold b.
  set (R := slice_cols b (rows m) (cols m) k (cols m)).
  set (l := mkMatrix (rows m) (k - 0) (length σ)).
  set (r := mkMatrix (rows m) (cols m - k) (length (σ ++ [L]))).
  assert (wf ((σ ++ [L]) ++ [R]) l) as Hwl.
  { apply wf_app, wf_fresh; [lia|lia|nia|].
    apply len_slice_cols; (done || lia). }
  assert (wf ((σ ++ [L]) ++ [R]) r) as Hwr.
  { apply wf_fresh; [lia|lia|nia|].
    apply len_slice_cols; (done || lia). }
  assert (sumZ (cols <$> [l; r]) = cols m) as Hsum
    by (unfold sumZ; simpl; lia).
  rewrite ConcatenateCols_Ok;
    [|by apply Forall_pair|by apply Forall_pair|rewrite Hsum; lia
     |rewrite Hsum; simpl; lia].
  exists L, R. rewrite Hsum.
  assert (concat_cols ((σ ++ [L]) ++ [R]) [l; r] (rows l) = b) as ->; [|done].
  unfold concat_cols, row_of. simpl.
  rewrite buf_app_last, buf_app_l, buf_app_last
    by (rewrite length_app; simpl; lia).
  apply rejoin_cols; (done || lia).
Qed.

Lemma roundtrip_rows_run σ m k :
  wf σ m → 0 ≤ k ≤ rows m →
  ∃ L R,
    (l <- SliceRows m 0 k ;; r <- SliceRows m k (rows m) ;;
     ConcatenateRows [l; r]) σ
    = Ok (mkMatrix (rows m) (cols m) (length ((σ ++ [L]) ++ [R])),
          ((σ ++ [L]) ++ [R]) ++ [buf σ (data m)]).
Proof.
  intros Hwf Hk. pose proof Hwf as [Hr Hc Ha Hl Hs].
  set (b := buf σ (data m)) in *.
  mstep SliceRows_Ok by (done || lia). fold b.
  set (L := segment b (0 * cols m) (k * cols m)).
  mstep SliceRows_Ok by (lia || by apply wf_app).
  rewrite buf_app_l by done. fold b.
  set (R := segment b (k * cols m) (rows m * cols m)).
  set (l := mkMatrix (k - 0) (cols m) (length σ)).
  set (r := mkMatrix (rows m - k) (cols m) (length (σ ++ [L]))).
  assert (wf ((σ ++ [L]) ++ [R]) l) as Hwl.
  { apply wf_app, wf_fresh; [lia|lia|nia|].
    unfold L. rewrite length_segment by (rewrite ?Hl; nia). lia. }
  assert (wf ((σ ++ [L]) ++ [R]) r) as Hwr.
  { apply wf_fresh; [lia|lia|nia|].
    unfold R. rewrite length_segment by (rewrite ?Hl; nia). lia. }
  assert (sumZ (rows <$> [l; r]) = rows m) as Hsum
    by (unfold sumZ; simpl; lia).
  rewrite ConcatenateRows_Ok;
    [|by apply Forall_pair|by apply Forall_pair|rewrite Hsum; lia
     |rewrite Hsum; simpl; lia].
  exists L, R. rewrite Hsum.
  assert (mjoin ((λ m, buf ((σ ++ [L]) ++ [R]) (data m)) <$> [l; r]) = b)
    as ->; [|done].
  simpl.
  rewrite buf_app_l, !buf_app_last by (rewrite length_app; simpl; lia).
  rewrite app_nil_r. unfold L, R.
  rewrite segment_app by nia.
  rewrite Z.mul_0_l, <- Hl. apply segment_all.
Qed.

(** A matrix over a copy of the buffer of [m] compares to [m] as [m] does
    to itself. *)
Lemma Equals_copy (σ : store) L R m :
  wf σ m →
  let σ' := ((σ ++ [L]) ++ [R]) ++ [buf σ (data m)] in
  let c := mkMatrix (rows m) (cols m) (length ((σ ++ [L]) ++ [R])) in
  buf σ' (data c) = buf σ (data m) ∧
  buf σ' (data m) = buf σ (data m) ∧
  Equals c m σ' = Equals m m σ'.
Proof.
  intros Hwf σ' c. pose proof Hwf as [Hr Hc Ha Hl Hs].
  assert (buf σ' (data c) = buf σ (data m)) as Hbc
    by apply buf_app_last.
  assert (buf σ' (data m) = buf σ (data m)) as Hbm.
  { unfold σ'. rewrite !buf_app_l; [done|done|..];
      rewrite ?length_app; simpl; lia. }
  split_and!; [done|done|].
  assert (wf σ' m) as Hm' by (by do 3 apply wf_app).
  assert (wf σ' c) as Hc' by (by apply wf_fresh).
  rewrite !Equals_same_dims by done. by rewrite Hbc, Hbm.
Qed.

(** C7.  For a matrix [m] of the data model and [0 <= k <= m.cols()],
    slicing the columns [[0, k)] and [[k, cols)] and concatenating the two
    pieces column-wise returns a matrix with the dimensions and the cells
    of [m], leaves [m] as it was, and the result compares to [m] under
    [Equals] as [m] does to itself; the same holds row-wise with
    [SliceRows] and [ConcatenateRows] for [0 <= k <= m.rows()]. *)
Theorem slice_concat_roundtrip (σ : store) (m : Matrix) (k : Z) :
  wf σ m →
  (0 ≤ k ≤ cols m →
     ∃ c σ',
       (l <- SliceCols m 0 k ;; r <- SliceCols m k (cols m) ;;
        ConcatenateCols [l; r]) σ = Ok (c, σ') ∧
       rows c = rows m ∧ cols c = cols m ∧
       buf σ' (data c) = buf σ (data m) ∧
       buf σ' (data m) = buf σ (data m) ∧
       Equals c m σ' = Equals m m σ') ∧
  (0 ≤ k ≤ rows m →
     ∃ c σ',
       (l <- SliceRows m 0 k ;; r <- SliceRows m k (rows m) ;;
        ConcatenateRows [l; r]) σ = Ok (c, σ') ∧
       rows c = rows m ∧ cols c = cols m ∧
       buf σ' (data c) = buf σ (data m) ∧
       buf σ' (data m) = buf σ (data m) ∧
       Equals c m σ' = Equals m m σ').
Proof.
  intros Hwf. split; intros Hk.
  - destruct (roundtrip_cols_run σ m k Hwf Hk) as (L & R & Hrun).
    eexists _, _. split; [exact Hrun|]. split; [done|]. split; [done|].
    by apply Equals_copy.
  - destruct (roundtrip_rows_run σ m k Hwf Hk) as (L & R & Hrun).
    eexists _, _. split; [exact Hrun|]. split; [done|]. split; [done|].
    by apply Equals_copy.
Qed.

Lemma slice_concat_roundtrip_witness :
  let σ := [[1; 2; 3; 4; 5; 6]]%float in
  let m := mkMatrix 2 3 0%nat in
  ∃ c σ',
    (l <- SliceCols m 0 1 ;; r <- SliceCols m 1 (cols m) ;;
     ConcatenateCols [l; r]) σ = Ok (c, σ') ∧
    buf σ' (data c) = [1; 2; 3; 4; 5; 6]%float.
Proof.
  intros σ m.
  destruct (slice_concat_roundtrip σ m 1) as [H _]; [concrete_wf..|].
  destruct H as (c & σ' & Hrun & _ & _ & Hbuf & _); [done|].
  by exists c, σ'.
Defined.

(** ** C9: column-wise concatenation *)

Lemma ConcatenateCols_rows_differ σ ms m0 rest :
  ms = m0 :: rest → Exists (λ m, rows m ≠ rows m0) ms →
  ConcatenateCols ms σ = Panic PanicConcatColsRows.
Proof.
  intros -> Hex. unfold ConcatenateCols, Rows, Cols.
  apply bind_Panic. by apply (dims_loop_Panic rows cols).
Qed.

(** C9 (as amended).  [ConcatenateCols] panics with the empty-input message
    when given no matrix and with the dimension-mismatch message when two
    inputs differ in row count.  Otherwise, for a non-empty list of matrices
    of the data model with one row count, provided the sum of the column
    counts is a Go int and the cell count of the result is at most the
    [2^45] cells that [make] accepts, it returns a matrix
    of the data model with that row count and the summed column count, each
    of whose rows is the concatenation, in argument order, of the inputs'
    rows of the same index; for a larger cell count that is a Go int it
    panics in [make] with the run-time error "makeslice: cap out of
    range". *)
Theorem ConcatenateCols_contract (σ : store) (ms : list Matrix) :
  Forall (wf σ) ms →
  (ms = [] →
     ConcatenateCols ms σ = Panic PanicEmptyConcat ∧
     classify PanicEmptyConcat = EmptyInput) ∧
  (∀ m1 m2, m1 ∈ ms → m2 ∈ ms → rows m1 ≠ rows m2 →
     ConcatenateCols ms σ = Panic PanicConcatColsRows ∧
     classify PanicConcatColsRows = DimensionMismatch) ∧
  (∀ m0 rest, ms = m0 :: rest →
     Forall (λ m, rows m = rows m0) ms →
     sumZ (cols <$> ms) ≤ int_max →
     rows m0 * sumZ (cols <$> ms) ≤ max_len →
     ∃ c σ', ConcatenateCols ms σ = Ok (c, σ') ∧
       rows c = rows m0 ∧ cols c = sumZ (cols <$> ms) ∧ wf σ' c ∧
       ∀ i, 0 ≤ i < rows m0 →
         row_of σ' c i = mjoin ((λ m, row_of σ m i) <$> ms)) ∧
  (∀ m0 rest, ms = m0 :: rest →
     Forall (λ m, rows m = rows m0) ms →
     sumZ (cols <$> ms) ≤ int_max →
     max_len < rows m0 * sumZ (cols <$> ms) ≤ int_max →
     ConcatenateCols ms σ = Panic RuntimeMakeSliceCap).
Proof.
  intros Hwf. split_and!.
  - by intros ->.
  - intros m1 m2 H1 H2 Hne. split; [|done].
    destruct ms as [|m0 rest]; [by apply elem_of_nil in H1|].
    apply (ConcatenateCols_rows_differ σ _ m0 rest eq_refl).
    apply Exists_exists.
    destruct (decide (rows m1 = rows m0)) as [Heq|Hneq].
    + exists m2. split; [done|]. congruence.
    + by exists m1.
  - intros m0 rest -> Hrows Hsum Hsz.
    rewrite ConcatenateCols_Ok by done.
    assert (0 ≤ rows m0 ≤ int_max) as Hr0.
    { apply Forall_cons in Hwf as [H0 _]. apply H0. }
    assert (0 ≤ sumZ (cols <$> m0 :: rest)) as Hnn.
    { apply sumZ_nonneg, Forall_fmap. eapply Forall_impl; [exact Hwf|].
      intros m Hm. apply Hm. }
    eexists _, _. split; [done|]. split_and!; [done|done| |].
    + apply wf_fresh; [done|lia|done|].
      apply len_concat_cols; [lia|done|done].
    + intros i Hi. unfold row_of at 1. cbn [data cols].
      rewrite buf_app_last. unfold concat_cols.
      rewrite (segment_join_chunks
                 (λ i, mjoin ((λ m, row_of σ m i) <$> m0 :: rest))); [done| |done].
      intros j Hj. by apply (len_join_rows σ _ (rows m0)).
  - intros m0 rest -> Hrows Hsum Hsz. by apply ConcatenateCols_limit.
Qed.

Lemma ConcatenateCols_contract_witness :
  let σ := [[1; 2]; [3; 4; 5; 6]]%float in
  let x := mkMatrix 2 1 0%nat in
  let y := mkMatrix 2 2 1%nat in
  ∃ c σ', ConcatenateCols [x; y] σ = Ok (c, σ') ∧
          rows c = 2 ∧ cols c = 3 ∧
          row_of σ' c 1 = [2; 5; 6]%float.
Proof.
  intros σ x y.
  destruct (ConcatenateCols_contract σ [x; y]) as (_ & _ & H & _).
  { apply Forall_pair; concrete_wf. }
  destruct (H x [y] eq_refl) as (c & σ' & Hrun & Hr & Hc & _ & Hrow).
  { by apply Forall_pair. }
  { by vm_compute. }
  { by vm_compute. }
  exists c, σ'. split_and!; [done..|].
  by rewrite (Hrow 1) by done.
Defined.

(** The statement of the specification fails when the column counts add up
    past the
    largest int: two matrices [New(0, 1<<62)] have no cells, and their
    concatenation has the column count [1<<63] wrapped to [-(1<<63)]. *)
Lemma ConcatenateCols_overflow_counterexample :
  let x := mkMatrix 0 (2 ^ 62) 0%nat in
  New 0 (2 ^ 62) [] = Ok (x, [[]]) ∧ wf [[]] x ∧
  ConcatenateCols [x; x] [[]] = Ok (mkMatrix 0 (- 2 ^ 63) 1%nat, [[]; []]) ∧
  sumZ (cols <$> [x; x]) = 2 ^ 63.
Proof.
  intros x. split_and!; [done|concrete_wf..|done|done].
Qed.

(** ** C5: equality *)

(** C5 (as amended).  On matrices of the data model [Equals] always
    returns, leaving the store as it was.  [Equals(m, m)] is true exactly
    when no cell of [m] is a NaN; [Equals(a, b)] and [Equals(b, a)] agree;
    when the row counts or the column counts differ the result is false
    whatever the cells are; and when the dimensions agree the result is true
    exactly when every pair of corresponding cells is equal under the
    float64 [==]. *)
Theorem Equals_contract (σ : store) (a b : Matrix) :
  wf σ a → wf σ b →
  (Equals a a σ = Ok (true, σ) ↔
     Forall (λ x, is_nan x = false) (buf σ (data a))) ∧
  (∃ r, Equals a a σ = Ok (r, σ)) ∧
  Equals a b σ = Equals b a σ ∧
  (rows a ≠ rows b ∨ cols a ≠ cols b → Equals a b σ = Ok (false, σ)) ∧
  (rows a = rows b → cols a = cols b →
     ∃ r, Equals a b σ = Ok (r, σ) ∧
          (r = true ↔
             ∀ i j, 0 ≤ i < rows a → 0 ≤ j < cols a →
               feq (cell (buf σ (data a)) (cols a) i j)
                   (cell (buf σ (data b)) (cols b) i j) = true)).
Proof.
  intros Ha Hb. split_and!.
  - rewrite Equals_same_dims by done. rewrite <- buffers_equal_refl.
    split; [by intros [= ->]|by intros ->].
  - rewrite Equals_same_dims by done. by eexists.
  - destruct (decide (cols a ≠ cols b ∨ rows a ≠ rows b)) as [Hd|Hs].
    + rewrite !Equals_dims_differ; [done| |done].
      destruct Hd; [left|right]; congruence.
    + rewrite !Equals_same_dims by (done || lia).
      rewrite buffers_equal_sym; [done|].
      destruct Ha as [_ _ _ -> _], Hb as [_ _ _ -> _]. nia.
  - intros Hd. apply Equals_dims_differ. tauto.
  - intros Hr Hc. rewrite Equals_same_dims by done.
    eexists. split; [done|]. rewrite <- Hc.
    apply buffers_equal_cells; apply Ha.
Qed.

Lemma Equals_contract_witness :
  let σ := [[1; 2]; [1; 3]]%float in
  let a := mkMatrix 1 2 0%nat in
  let b := mkMatrix 1 2 1%nat in
  Equals a b σ = Equals b a σ ∧ Equals a a σ = Ok (true, σ).
Proof.
  intros σ a b.
  destruct (Equals_contract σ a b) as (Hrefl & _ & Hsym & _); [concrete_wf..|].
  split; [exact Hsym|]. apply Hrefl.
  apply Forall_pair; reflexivity.
Defined.

(** The statement of the specification fails on reflexivity: a matrix that
    holds a NaN
    (here the result of [New(1, 1).AddScalar(+Inf).Scale(0)]) is not
    [Equals] to itself, since NaN [!=] NaN. *)
Lemma Equals_not_reflexive_counterexample :
  let m := mkMatrix 1 1 2%nat in
  let σ := [[0]; [infinity]; [nan]]%float in
  (a <- New 1 1 ;; a <- AddScalar a infinity ;; Scale a 0%float) []
    = Ok (m, σ) ∧
  wf σ m ∧
  Equals m m σ = Ok (false, σ).
Proof.
  intros m σ. split_and!; [reflexivity|concrete_wf..|reflexivity].
Qed.

(** ** The public operations that produce a matrix *)

Lemma fresh_result_wf σ r σ' : fresh_result σ r σ' → wf σ' r.
Proof.
  intros (b & -> & Hd & Hl & Hr & Hc & Hs). destruct r as [nr nc d].
  simpl in *. subst d. by apply wf_fresh.
Qed.

Lemma fresh_result_frame σ r σ' m :
  fresh_result σ r σ' → wf σ m →
  wf σ' m ∧ buf σ' (data m) = buf σ (data m) ∧ data m ≠ data r.
Proof.
  intros (b & -> & Hd & _) Hm. split_and!.
  - by apply wf_app.
  - apply buf_app_l, Hm.
  - destruct Hm as [_ _ Ha _ _]. lia.
Qed.

Lemma fresh_intro (σ : store) nrows ncols b :
  0 ≤ nrows ≤ int_max → 0 ≤ ncols ≤ int_max → nrows * ncols ≤ max_len →
  len b = nrows * ncols →
  fresh_result σ (mkMatrix nrows ncols (length σ)) (σ ++ [b]).
Proof. intros. exists b. split_and!; simpl; (done || lia). Qed.

Lemma confined_last (σ σ2 : store) b :
  confined (length σ) (σ ++ [b]) σ2 →
  ∃ b', σ2 = σ ++ [b'] ∧ length b' = length b.
Proof.
  intros (Hlen & Hother & Hc). rewrite length_app in Hlen. simpl in Hlen.
  exists (buf σ2 (length σ)). split.
  - apply list_eq. intros p.
    destruct (decide (p = length σ)) as [->|Hp].
    + rewrite lookup_app_r, Nat.sub_diag by lia. simpl.
      destruct (lookup_lt_is_Some_2 σ2 (length σ) ltac:(lia)) as [x Hx].
      unfold buf. by rewrite Hx.
    + rewrite Hother by done.
      destruct (decide (p < length σ)%nat).
      * by rewrite !lookup_app_l by done.
      * by rewrite !lookup_ge_None_2 by (rewrite length_app; simpl; lia).
  - by rewrite Hc, buf_app_last.
Qed.

Lemma Product_Panic σ a b :
  cols a ≠ rows b →
  Product a b σ = Panic (PanicProductDims (rows a) (cols a) (rows b) (cols b)).
Proof. intros. unfold Product. by rewrite decide_True. Qed.

Lemma ParallelProduct_Panic sched σ a b :
  cols a ≠ rows b →
  ParallelProduct sched a b σ =
    Panic (PanicProductDims (rows a) (cols a) (rows b) (cols b)).
Proof. intros. unfold ParallelProduct. by rewrite decide_True. Qed.

Lemma ConcatenateRows_cols_differ σ ms m0 rest :
  ms = m0 :: rest → Exists (λ m, cols m ≠ cols m0) ms →
  ConcatenateRows ms σ = Panic PanicConcatRowsCols.
Proof.
  intros -> Hex. unfold ConcatenateRows, Rows, Cols.
  apply bind_Panic. by apply (dims_loop_Panic cols rows).
Qed.

Lemma dotApply_fresh σ a b f r σ' :
  wf σ a → wf σ b → dotApply a b f σ = Ok (r, σ') → fresh_result σ r σ'.
Proof.
  intros Ha Hb Hrun.
  destruct (decide (cols a ≠ cols b ∨ rows a ≠ rows b)) as [Hd|Hs].
  { by rewrite dotApply_Panic in Hrun. }
  rewrite dotApply_Ok in Hrun by (done || lia). simplify_eq.
  destruct Ha as [? ? ? ? ?].
  apply fresh_intro; [done..|].
  rewrite len_writes, len_replicate; nia.
Qed.

(** Every operation, applied to matrices of the data model and asked for
    legal dimensions, returns (when it returns) a fresh matrix of the data
    model and leaves the heap it found untouched. *)
Lemma run_op_fresh o σ r σ' :
  Forall (wf σ) (operands o) → admissible σ o →
  run_op o σ = Ok (r, σ') → fresh_result σ r σ'.
Proof.
  destruct o as [nrows ncols|nrows ncols d|nrows ncols f|m|m i j x|m x|m x
                |f m|ms|ms|m from to|m from to|m f|m|a b|sched a b|G a b
                |a b|a b|a b];
    cbn [run_op operands admissible]; intros Hwf Hadm Hrun.
  - destruct Hadm as (Hr & Hc & Hs).
    destruct (decide (nrows * ncols ≤ max_len)) as [Hfit|Hbig];
      [|by rewrite New_Panic_limit in Hrun by lia].
    rewrite New_Ok in Hrun by lia. simplify_eq.
    apply fresh_intro; [done..|]. rewrite len_replicate; nia.
  - destruct Hadm as (Hr & Hc & Hs & Hd).
    assert (int_mul nrows ncols = nrows * ncols) as Hmul
      by (apply int_mul_exact, is_int_nonneg; nia).
    destruct (decide (len (buf σ d) = nrows * ncols)) as [Hl|Hl];
      [|rewrite FromSlice_Panic in Hrun; [done|by rewrite Hmul]].
    destruct (decide (nrows * ncols ≤ max_len)) as [Hfit|Hbig];
      [|rewrite FromSlice_limit in Hrun; [done|by rewrite Hmul|lia]].
    rewrite FromSlice_Ok in Hrun by (done || lia). simplify_eq.
    by apply fresh_intro.
  - destruct Hadm as (Hr & Hc & Hs).
    destruct (decide (nrows * ncols ≤ max_len)) as [Hfit|Hbig];
      [|by rewrite FromFunc_limit in Hrun by lia].
    rewrite FromFunc_Ok in Hrun by lia. simplify_eq.
    apply fresh_intro; [done..|].
    rewrite len_writes, len_replicate; nia.
  - apply Forall_single_inv in Hwf. rewrite Clone_Ok in Hrun by done.
    simplify_eq. destruct Hwf. by apply fresh_intro.
  - apply Forall_single_inv in Hwf.
    destruct (decide (0 ≤ i < rows m ∧ 0 ≤ j < cols m)) as [[Hi Hj]|Hout].
    + rewrite Set_Ok in Hrun by done. simplify_eq. destruct Hwf.
      apply fresh_intro; [done..|]. unfold len in *. by rewrite length_insert.
    + by rewrite Set_out_of_range in Hrun.
  - apply Forall_single_inv in Hwf. unfold Scale in Hrun.
    rewrite Map_Ok in Hrun by done. simplify_eq. destruct Hwf.
    apply fresh_intro; [done..|]. unfold len in *. by rewrite length_fmap.
  - apply Forall_single_inv in Hwf. unfold AddScalar in Hrun.
    rewrite Map_Ok in Hrun by done. simplify_eq. destruct Hwf.
    apply fresh_intro; [done..|]. unfold len in *. by rewrite length_fmap.
  - apply Forall_single_inv in Hwf.
    rewrite Map_Ok in Hrun by done. simplify_eq. destruct Hwf.
    apply fresh_intro; [done..|]. unfold len in *. by rewrite length_fmap.
  - destruct ms as [|m0 rest]; [done|]. destruct Hadm as [Hsum Hsz].
    cbn [head from_option] in Hsz.
    destruct (decide (Forall (λ m, rows m = rows m0) (m0 :: rest)))
      as [Hrows|Hdiff].
    + destruct (decide (rows m0 * sumZ (cols <$> m0 :: rest) ≤ max_len))
        as [Hfit|Hbig];
        [|by rewrite ConcatenateCols_limit in Hrun by (done || lia)].
      rewrite ConcatenateCols_Ok in Hrun by done.
      apply Ok_pair_inj in Hrun as [<- <-].
      pose proof Hwf as [[Hr0 _ _ _ _] _]%Forall_cons.
      assert (0 ≤ sumZ (cols <$> m0 :: rest)) as Hnn.
      { apply sumZ_nonneg, Forall_fmap. eapply Forall_impl; [exact Hwf|].
        intros m Hm. apply Hm. }
      apply (fresh_intro σ (rows m0) (sumZ (cols <$> m0 :: rest)));
        [done|lia|done|].
      apply len_concat_cols; [lia|done|done].
    + apply not_Forall_Exists in Hdiff; [|intros; apply _].
      rewrite (ConcatenateCols_rows_differ σ (m0 :: rest) m0 rest eq_refl)
        in Hrun; [done|exact Hdiff].
  - destruct ms as [|m0 rest]; [done|]. destruct Hadm as [Hsum Hsz].
    cbn [head from_option] in Hsz.
    destruct (decide (Forall (λ m, cols m = cols m0) (m0 :: rest)))
      as [Hcols|Hdiff].
    + destruct (decide (sumZ (rows <$> m0 :: rest) * cols m0 ≤ max_len))
        as [Hfit|Hbig];
        [|by rewrite ConcatenateRows_limit in Hrun by (done || lia)].
      rewrite ConcatenateRows_Ok in Hrun by done.
      apply Ok_pair_inj in Hrun as [<- <-].
      pose proof Hwf as [[_ Hc0 _ _ _] _]%Forall_cons.
      assert (0 ≤ sumZ (rows <$> m0 :: rest)) as Hnn.
      { apply sumZ_nonneg, Forall_fmap. eapply Forall_impl; [exact Hwf|].
        intros m Hm. apply Hm. }
      apply (fresh_intro σ (sumZ (rows <$> m0 :: rest)) (cols m0));
        [lia|done|done|].
      by apply len_join_bufs.
    + apply not_Forall_Exists in Hdiff; [|intros; apply _].
      rewrite (ConcatenateRows_cols_differ σ (m0 :: rest) m0 rest eq_refl)
        in Hrun; [done|exact Hdiff].
  - apply Forall_single_inv in Hwf.
    destruct (decide (from < 0 ∨ to > cols m ∨ to < from)) as [Hbad|Hgood].
    { by rewrite SliceCols_Panic in Hrun. }
    rewrite SliceCols_Ok in Hrun by (done || lia). simplify_eq.
    destruct Hwf.
    apply fresh_intro; [lia|lia|nia|]. apply len_slice_cols; (done || lia).
  - apply Forall_single_inv in Hwf.
    destruct (decide (from < 0 ∨ to > rows m ∨ to < from)) as [Hbad|Hgood].
    { by rewrite SliceRows_Panic in Hrun. }
    rewrite SliceRows_Ok in Hrun by (done || lia). simplify_eq.
    destruct Hwf as [? ? ? Hl ?].
    apply fresh_intro; [lia|lia|nia|].
    rewrite length_segment by (rewrite ?Hl; nia). lia.
  - apply Forall_single_inv in Hwf.
    rewrite FilterRows_Ok in Hrun by done. simplify_eq.
    pose proof (length_filter (λ i, f i = true) (seqZ 0 (rows m))) as Hle.
    rewrite length_seqZ in Hle.
    pose proof Hwf as [? ? ? ? ?].
    apply fresh_intro; [unfold len; lia|done|unfold len; nia|].
    apply len_join_kept; [done|].
    apply Forall_forall. intros i [_ Hi%elem_of_seqZ]%list_elem_of_filter. lia.
  - apply Forall_single_inv in Hwf.
    rewrite T_Ok in Hrun by done. simplify_eq. destruct Hwf.
    apply fresh_intro; [done|done|lia|].
    rewrite len_writes, len_replicate; nia.
  - apply Forall_pair_inv in Hwf as [Ha Hb].
    destruct (decide (cols a = rows b)) as [Hab|Hne];
      [|by rewrite Product_Panic in Hrun].
    destruct (decide (rows a * cols b ≤ max_len)) as [Hfit|Hbig];
      [|by rewrite Product_limit in Hrun by (done || lia)].
    destruct (Product_Ok σ a b Ha Hb Hab Hfit) as (bc & Hp & Hlen & _).
    rewrite Hp in Hrun. simplify_eq.
    apply fresh_intro; [apply Ha|apply Hb|done..].
  - apply Forall_pair_inv in Hwf as [Ha Hb].
    destruct (decide (cols a = rows b)) as [Hab|Hne];
      [|by rewrite ParallelProduct_Panic in Hrun].
    rewrite ParallelProduct_eq in Hrun by done.
    destruct (decide (rows a * cols b ≤ max_len)) as [Hfit|Hbig];
      [|by rewrite Product_limit in Hrun by (done || lia)].
    destruct (Product_Ok σ a b Ha Hb Hab Hfit) as (bc & Hp & Hlen & _).
    rewrite Hp in Hrun. simplify_eq.
    apply fresh_intro; [apply Ha|apply Hb|done..].
  - apply Forall_pair_inv in Hwf as [Ha Hb]. destruct Hadm as [Hsz HG].
    rewrite BlasProduct_unfold in Hrun.
    destruct Ha as [Har _ _ _ _], Hb as [_ Hbc _ _ _].
    destruct (decide (rows a * cols b ≤ max_len)) as [Hfit|Hbig];
      [|by rewrite New_Panic_limit in Hrun by lia].
    rewrite New_Ok in Hrun by lia.
    destruct (G _ _ _ _ _ _ _ _) as [[[] σ2]|e] eqn:HGrun; [|done].
    simplify_eq. apply HG in HGrun. simpl in HGrun.
    apply confined_last in HGrun as (b' & -> & Hlen).
    apply fresh_intro; [done..|].
    unfold len. rewrite Hlen, length_replicate. nia.
  - apply Forall_pair_inv in Hwf as [Ha Hb]. unfold Dot in Hrun.
    exact (dotApply_fresh σ a b _ r σ' Ha Hb Hrun).
  - apply Forall_pair_inv in Hwf as [Ha Hb]. unfold Plus in Hrun.
    exact (dotApply_fresh σ a b _ r σ' Ha Hb Hrun).
  - apply Forall_pair_inv in Hwf as [Ha Hb]. unfold Minus in Hrun.
    exact (dotApply_fresh σ a b _ r σ' Ha Hb Hrun).
Qed.

(** ** C6: the representation invariant *)

Lemma filter_none {A} (P : A → Prop) `{∀ x, Decision (P x)} (l : list A) :
  (∀ x, x ∈ l → ¬ P x) → filter P l = [].
Proof.
  intros Hnone. destruct (filter P l) as [|x k] eqn:Hf; [done|].
  assert (x ∈ filter P l) as [Hx Hin]%list_elem_of_filter
    by (rewrite Hf; left).
  by destruct (Hnone x Hin).
Qed.

(** C6 (as amended).  A matrix returned by a public operation satisfies the
    representation invariant (its buffer holds exactly [rows * cols] cells
    and cell [(i, j)] is read at offset [i*cols + j]) whenever the matrices
    the operation is applied to are of the data model and the dimensions it
    asks for are admissible: non-negative ints whose product does not
    overflow.  [T] and [FilterRows] ask for nothing: on a matrix of the
    data model they always return one that satisfies the invariant, also
    when [FilterRows] keeps no row. *)
Theorem public_ops_preserve_invariant (σ : store) :
  (∀ o r σ',
     Forall (wf σ) (operands o) → admissible σ o →
     run_op o σ = Ok (r, σ') → wf σ' r ∧ rep_inv σ' r) ∧
  (∀ m, wf σ m →
     ∃ t σ', T m σ = Ok (t, σ') ∧ rows t = cols m ∧ cols t = rows m ∧
             wf σ' t ∧ rep_inv σ' t) ∧
  (∀ m f, wf σ m →
     ∃ r σ', FilterRows m f σ = Ok (r, σ') ∧ cols r = cols m ∧
             wf σ' r ∧ rep_inv σ' r ∧
             ((∀ i, 0 ≤ i < rows m → f i = false) →
                rows r = 0 ∧ buf σ' (data r) = [])).
Proof.
  assert (∀ o r σ',
    Forall (wf σ) (operands o) → admissible σ o →
    run_op o σ = Ok (r, σ') → wf σ' r ∧ rep_inv σ' r) as Hops.
  { intros o r σ' Hwf Hadm Hrun.
    pose proof (fresh_result_wf _ _ _ (run_op_fresh o σ r σ' Hwf Hadm Hrun)).
    split; [done|by apply wf_rep_inv]. }
  split_and!; [exact Hops| |].
  - intros m Hm. pose proof (T_Ok σ m Hm) as Hrun.
    eexists _, _. split; [exact Hrun|]. split_and!; [done..| |].
    + apply (Hops (OpT m)); [by apply Forall_singleton|done|exact Hrun].
    + apply (Hops (OpT m)); [by apply Forall_singleton|done|exact Hrun].
  - intros m f Hm. pose proof (FilterRows_Ok σ m f Hm) as Hrun.
    cbv zeta in Hrun.
    eexists _, _. split; [exact Hrun|]. split_and!; [done| | |].
    + apply (Hops (OpFilterRows m f)); [by apply Forall_singleton|done|exact Hrun].
    + apply (Hops (OpFilterRows m f)); [by apply Forall_singleton|done|exact Hrun].
    + intros Hnone. cbn [rows data]. rewrite buf_app_last.
      assert (filter (λ i, f i = true) (seqZ 0 (rows m)) = []) as ->; [|done].
      apply filter_none. intros i Hi%elem_of_seqZ.
      rewrite Hnone by lia. done.
Qed.

Lemma public_ops_preserve_invariant_witness :
  let σ := [[1; 2; 3; 4; 5; 6]]%float in
  let m := mkMatrix 2 3 0%nat in
  ∃ r σ', FilterRows m (λ _, false) σ = Ok (r, σ') ∧
          rows r = 0 ∧ buf σ' (data r) = [] ∧ rep_inv σ' r.
Proof.
  intros σ m.
  destruct (public_ops_preserve_invariant σ) as (_ & _ & H).
  destruct (H m (λ _, false)) as (r & σ' & Hrun & _ & _ & Hinv & Hnone);
    [concrete_wf..|].
  destruct Hnone as [Hrows Hbuf]; [done|].
  by exists r, σ'.
Defined.

(** The statement of the specification fails at the constructor:
    [New(1<<32, 1<<32)] is
    given non-negative dimensions, computes the length [1<<64 = 0] for its
    buffer and returns a matrix of [1<<32] rows and columns over an empty
    buffer, whose cell [(0, 0)] does not exist. *)
Lemma New_overflow_counterexample :
  let m := mkMatrix (2 ^ 32) (2 ^ 32) 0%nat in
  New (2 ^ 32) (2 ^ 32) [] = Ok (m, [[]]) ∧
  len (buf [[]] (data m)) ≠ rows m * cols m ∧
  at_ m 0 0 [[]] = Panic RuntimeIndexOutOfRange ∧
  ¬ rep_inv [[]] m.
Proof.
  intros m. split_and!; [done|done|done|]. by intros [Hlen _].
Qed.

(** ** C4: operations and the matrices they are applied to *)

(** What does hold of the operations: an operation that returns a matrix
    allocates it afresh and leaves every matrix that existed before, the
    ones it was applied to included, with its dimensions and its cells. *)
Lemma public_ops_frame o σ r σ' m :
  Forall (wf σ) (operands o) → admissible σ o →
  run_op o σ = Ok (r, σ') → wf σ m →
  wf σ' m ∧ buf σ' (data m) = buf σ (data m) ∧ data m ≠ data r.
Proof.
  intros Hwf Hadm Hrun Hm.
  eapply fresh_result_frame; [|done]. by eapply run_op_fresh.
Qed.

(** [Apply] returns nothing and overwrites every cell of its receiver. *)
Lemma Apply_overwrites σ m f :
  wf σ m →
  ∃ σ', Apply m f σ = Ok (tt, σ') ∧ wf σ' m ∧
        ∀ i j, 0 ≤ i < rows m → 0 ≤ j < cols m →
          At m i j σ' = Ok (f i j, σ').
Proof.
  intros Hm. pose proof Hm as [Hr Hc Ha Hl Hs].
  rewrite Apply_Ok by done. eexists. split; [done|].
  set (b' := writes _ _ _ _).
  assert (buf (<[data m := b']> σ) (data m) = b') as Hbuf.
  { unfold buf. by rewrite list_lookup_insert_eq. }
  assert (wf (<[data m := b']> σ) m) as Hm'.
  { split; [done|done|by rewrite length_insert| |done].
    rewrite Hbuf. unfold b'. by rewrite len_writes. }
  split; [done|]. intros i j Hi Hj.
  rewrite At_Ok by done. rewrite Hbuf. unfold b'.
  by rewrite (cell_writes_row_major (rows m) (cols m)).
Qed.

(** C4.  [Apply] mutates the matrix it is applied to: after
    [m := New(1, 1)], the call [m.Apply(func(i, j int) float64 { return 1 })]
    returns no matrix and the caller's [m] reads [1] at [(0, 0)] where it
    read [0] before. *)
Theorem Apply_mutates_receiver :
  let m := mkMatrix 1 1 0%nat in
  New 1 1 [] = Ok (m, [[0%float]]) ∧
  At m 0 0 [[0%float]] = Ok (0%float, [[0%float]]) ∧
  Apply m (λ _ _, 1%float) [[0%float]] = Ok (tt, [[1%float]]) ∧
  At m 0 0 [[1%float]] = Ok (1%float, [[1%float]]).
Proof. intros m. by split_and!. Qed.

(** ** C3: the delegated product *)

(** Whenever [BlasProduct] panics, the panic is the allocation's run-time
    error or was raised by the external routine: the function has no check
    of its own. *)
Lemma BlasProduct_Panic_origin G a b σ e :
  BlasProduct G a b σ = Panic e →
  New (rows a) (cols b) σ = Panic e ∨
  ∃ c σ1, New (rows a) (cols b) σ = Ok (c, σ1) ∧
          G NoTrans NoTrans 1%float (generalFromMat a) (generalFromMat b)
            0%float (generalFromMat c) σ1 = Panic e.
Proof.
  rewrite BlasProduct_unfold.
  destruct (New _ _ σ) as [[c σ1]|e1]; [|intros [= ->]; by left].
  destruct (G _ _ _ _ _ _ _ σ1) as [[[] σ2]|e2] eqn:HG; [done|].
  intros [= ->]. right. by exists c, σ1.
Qed.

(** C3.  [BlasProduct] does not share the contract of the other two
    strategies: for [a] of dimensions 1x1 and [b] of dimensions 2x1,
    [Product] and [ParallelProduct] panic with the dimension-mismatch
    message, while [BlasProduct] allocates the 1x1 result and hands the
    operands to the external routine, which multiplies [a] by the first row
    of [b] and returns. *)
Theorem BlasProduct_unchecked :
  let σ := [[2]; [3; 5]]%float in
  let a := mkMatrix 1 1 0%nat in
  let b := mkMatrix 2 1 1%nat in
  wf σ a ∧ wf σ b ∧ cols a ≠ rows b ∧
  Product a b σ = Panic (PanicProductDims 1 1 2 1) ∧
  (∀ sched, ParallelProduct sched a b σ = Panic (PanicProductDims 1 1 2 1)) ∧
  BlasProduct Gemm_ref a b σ = Ok (mkMatrix 1 1 2%nat, σ ++ [[6]]%float).
Proof.
  intros σ a b. split_and!; [concrete_wf..|done|done|done|done].
Qed.

(** ** Further properties of the specification *)

(** Two buffers of the same grid with the same cells are the same buffer. *)
Lemma buffer_ext (A B : list float64) nrows ncols :
  0 ≤ nrows → 0 ≤ ncols → len A = nrows * ncols → len B = nrows * ncols →
  (∀ i j, 0 ≤ i < nrows → 0 ≤ j < ncols →
     cell A ncols i j = cell B ncols i j) →
  A = B.
Proof.
  intros Hr Hc HA HB Hcells. apply list_eq. intros p.
  destruct (decide (Z.of_nat p < nrows * ncols)) as [Hp|Hp].
  - assert (0 < ncols) by nia.
    set (k := Z.of_nat p).
    pose proof (Z.div_mod k ncols ltac:(lia)) as Hdm.
    pose proof (Z.mod_pos_bound k ncols ltac:(lia)) as Hm.
    assert (0 ≤ k `div` ncols) by (apply Z.div_pos; lia).
    assert (k `div` ncols < nrows) by (apply Z.div_lt_upper_bound; lia).
    specialize (Hcells (k `div` ncols) (k `mod` ncols) ltac:(lia) ltac:(lia)).
    unfold cell in Hcells.
    replace (k `div` ncols * ncols + k `mod` ncols) with k in Hcells by lia.
    unfold k in Hcells. rewrite Nat2Z.id in Hcells.
    destruct (lookup_lt_is_Some_2 A p) as [x Hx]; [unfold len in HA; lia|].
    destruct (lookup_lt_is_Some_2 B p) as [y Hy]; [unfold len in HB; lia|].
    rewrite Hx, Hy in *. simpl in Hcells. by subst.
  - unfold len in *. by rewrite !lookup_ge_None_2 by lia.
Qed.

(** Transposition: the result has dimensions [(cols, rows)], its cell
    [(j, i)] is the cell [(i, j)] of the source, and transposing twice gives
    the cells of the source back. *)
Theorem T_transposes (σ : store) (m : Matrix) :
  wf σ m →
  (∃ t σ', T m σ = Ok (t, σ') ∧ rows t = cols m ∧ cols t = rows m ∧
      ∀ i j, 0 ≤ i < rows m → 0 ≤ j < cols m →
        At t j i σ' = Ok (cell (buf σ (data m)) (cols m) i j, σ')) ∧
  (∃ c σ', (t <- T m ;; T t) σ = Ok (c, σ') ∧
      rows c = rows m ∧ cols c = cols m ∧
      buf σ' (data c) = buf σ (data m)).
Proof.
  intros Hm. pose proof Hm as [Hr Hc Ha Hl Hs].
  set (b := buf σ (data m)) in *.
  set (bt := writes (λ ij : Z * Z, Z.to_nat (ij.2 * rows m + ij.1))
               (λ ij, cell b (cols m) ij.1 ij.2)
               (replicate (Z.to_nat (rows m * cols m)) fzero)
               (cells (rows m) (cols m))).
  set (t := mkMatrix (cols m) (rows m) (length σ)).
  assert (len bt = cols m * rows m) as Hlt.
  { unfold bt. rewrite len_writes, len_replicate; nia. }
  assert (wf (σ ++ [bt]) t) as Ht by (apply wf_fresh; (done || lia)).
  assert (∀ i j, 0 ≤ i < rows m → 0 ≤ j < cols m →
            cell bt (rows m) j i = cell b (cols m) i j) as Hcell.
  { intros i j Hi Hj. unfold bt.
    rewrite (cell_transposed (rows m) (cols m)
               (λ ij, cell b (cols m) ij.1 ij.2)); [done| |done|done].
    rewrite len_replicate; nia. }
  split.
  - exists t, (σ ++ [bt]). rewrite T_Ok by done. split_and!; [done..|].
    intros i j Hi Hj. rewrite At_Ok by done.
    cbn [data cols]. rewrite buf_app_last. by rewrite Hcell.
  - mstep T_Ok by done. fold b bt t. rewrite T_Ok by done.
    eexists _, _. split; [done|]. split_and!; [done..|].
    unfold t. cbn [data rows cols]. rewrite !buf_app_last.
    apply (buffer_ext _ _ (rows m) (cols m)); [lia|lia| |done|].
    + rewrite len_writes, len_replicate; nia.
    + intros i j Hi Hj.
      rewrite (cell_transposed (cols m) (rows m)
                 (λ ij, cell bt (rows m) ij.1 ij.2) _ j i);
        [by apply Hcell| |done|done].
      rewrite len_replicate; nia.
Qed.

Lemma T_transposes_witness :
  let σ := [[1; 2; 3; 4; 5; 6]]%float in
  let m := mkMatrix 2 3 0%nat in
  ∃ t σ', T m σ = Ok (t, σ') ∧ rows t = 3 ∧ cols t = 2 ∧
          At t 2 0 σ' = Ok (3%float, σ').
Proof.
  intros σ m.
  destruct (T_transposes σ m) as [(t & σ' & Hrun & Hr & Hc & Hcell) _];
    [concrete_wf..|].
  exists t, σ'. split_and!; [done..|].
  by rewrite (Hcell 0 2) by done.
Defined.

(** The zero matrix: for non-negative dimensions whose product is at most
    the [2^45] cells that [make] accepts, [New] returns a matrix with these
    dimensions, every cell of which is [0.0]; for a larger product that is
    a Go int it panics in [make]. *)
Theorem New_zero (σ : store) (nrows ncols : Z) :
  0 ≤ nrows ≤ int_max → 0 ≤ ncols ≤ int_max →
  (nrows * ncols ≤ max_len →
     ∃ m σ', New nrows ncols σ = Ok (m, σ') ∧
             Rows m = nrows ∧ Cols m = ncols ∧ wf σ' m ∧
             ∀ i j, 0 ≤ i < nrows → 0 ≤ j < ncols →
               At m i j σ' = Ok (fzero, σ')) ∧
  (max_len < nrows * ncols ≤ int_max →
     New nrows ncols σ = Panic RuntimeMakeSliceLen).
Proof.
  intros Hr Hc. split; [|apply New_Panic_limit].
  intros Hs. rewrite New_Ok by lia.
  assert (wf (σ ++ [replicate (Z.to_nat (nrows * ncols)) fzero])
             (mkMatrix nrows ncols (length σ))) as Hm.
  { apply wf_fresh; [done..|]. rewrite len_replicate; nia. }
  eexists _, _. split; [done|]. split_and!; [done..|].
  intros i j Hi Hj. rewrite At_Ok by done.
  cbn [data cols]. rewrite buf_app_last. unfold cell.
  by rewrite lookup_replicate_2 by nia.
Qed.

Lemma New_zero_witness :
  ∃ m σ', New 2 3 [] = Ok (m, σ') ∧ At m 1 2 σ' = Ok (fzero, σ').
Proof.
  destruct (New_zero [] 2 3) as [Hok _]; [unfold int_max; lia..|].
  destruct Hok as (m & σ' & Hrun & _ & _ & _ & Hcell);
    [unfold max_len; lia|].
  exists m, σ'. split; [done|]. by apply Hcell.
Defined.

Lemma public_ops_frame_witness :
  let σ := [[1; 2; 3; 4]]%float in
  let m := mkMatrix 2 2 0%nat in
  let r := mkMatrix 2 2 1%nat in
  let σ' := [[1; 2; 3; 4]; [1; 9; 3; 4]]%float in
  Set_ m 0 1 9%float σ = Ok (r, σ') ∧
  buf σ' (data m) = [1; 2; 3; 4]%float ∧ data m ≠ data r.
Proof.
  intros σ m r σ'.
  assert (Set_ m 0 1 9%float σ = Ok (r, σ')) as Hrun by reflexivity.
  destruct (public_ops_frame (OpSet m 0 1 9%float) σ r σ' m)
    as (_ & Hbuf & Hne); [|done|exact Hrun| |by split_and!].
  - apply Forall_singleton. concrete_wf.
  - concrete_wf.
Defined.

Lemma Apply_overwrites_witness :
  let σ := [[1; 2; 3; 4]]%float in
  let m := mkMatrix 2 2 0%nat in
  ∃ σ', Apply m (λ i j, 7%float) σ = Ok (tt, σ') ∧
        At m 1 0 σ' = Ok (7%float, σ').
Proof.
  intros σ m.
  destruct (Apply_overwrites σ m (λ i j, 7%float)) as (σ' & Hrun & _ & Hcell);
    [concrete_wf..|].
  exists σ'. split; [done|]. by apply Hcell.
Defined.

(** * Further properties of the operations *)

(** ** Reading the cells of built buffers *)

Lemma cell_fmap (f : float64 → float64) (b : list float64) nrows ncols i j :
  len b = nrows * ncols → 0 ≤ i < nrows → 0 ≤ j < ncols →
  cell (f <$> b) ncols i j = f (cell b ncols i j).
Proof.
  intros Hl Hi Hj. unfold cell. rewrite list_lookup_fmap.
  destruct (lookup_lt_is_Some_2 b (Z.to_nat (i * ncols + j))) as [x ->];
    [|done].
  unfold len in Hl. nia.
Qed.

Lemma lookup_segment {A} (b : list A) lo hi k :
  0 ≤ lo → 0 ≤ k < hi - lo →
  segment b lo hi !! Z.to_nat k = b !! Z.to_nat (lo + k).
Proof.
  intros Hlo Hk. unfold segment.
  rewrite lookup_take_lt by lia. rewrite lookup_drop. f_equal. lia.
Qed.

(** Chunk [k] of a buffer joined from chunks of [c] cells each. *)
Lemma segment_join_lookup {A} (ls : list (list A)) (c : Z) (k : nat) chunk :
  Forall (λ l, len l = c) ls → ls !! k = Some chunk →
  segment (mjoin ls) (Z.of_nat k * c) ((Z.of_nat k + 1) * c) = chunk.
Proof.
  intros Hls Hk.
  rewrite <- (take_drop_middle ls k chunk Hk) at 1.
  rewrite join_app, join_cons. unfold segment.
  assert (len chunk = c) as Hc.
  { rewrite Forall_forall in Hls. apply Hls. by eapply list_elem_of_lookup_2. }
  assert (length (mjoin (take k ls)) = Z.to_nat (Z.of_nat k * c)) as Hlen.
  { rewrite <- (list_fmap_id (take k ls)).
    rewrite (length_join_same id _ (Z.to_nat c)).
    - rewrite length_take.
      pose proof (lookup_lt_Some _ _ _ Hk). unfold len in Hc. nia.
    - intros l Hl%elem_of_take. destruct Hl as (i & Hl & _).
      rewrite Forall_forall in Hls.
      specialize (Hls l (list_elem_of_lookup_2 _ _ _ Hl)).
      unfold id, len in *. lia. }
  rewrite drop_app_length' by done.
  apply take_app_length'. unfold len in Hc. lia.
Qed.

Lemma wf_cell_lookup σ m i j :
  wf σ m → 0 ≤ i < rows m → 0 ≤ j < cols m →
  buf σ (data m) !! Z.to_nat (i * cols m + j)
    = Some (cell (buf σ (data m)) (cols m) i j).
Proof.
  intros [Hr Hc Ha Hl Hs] Hi Hj. unfold cell.
  destruct (lookup_lt_is_Some_2 (buf σ (data m)) (Z.to_nat (i * cols m + j)))
    as [x ->]; [|done].
  unfold len in Hl. nia.
Qed.

(** ** [FromSlice] and [ToSlice] *)

Lemma FromSlice_run σ nrows ncols d :
  (d < length σ)%nat → len (buf σ d) ≤ max_len →
  len (buf σ d) = int_mul nrows ncols →
  FromSlice nrows ncols d σ =
    Ok (mkMatrix nrows ncols (length σ), σ ++ [buf σ d]).
Proof.
  intros Hd Hfit Hl. unfold FromSlice.
  unfold bind at 1. unfold slice_len at 1. cbv beta iota.
  rewrite decide_False by lia.
  mstep makeslice_Ok by (unfold len in *; lia).
  mstep copy_last by (rewrite ?length_replicate; unfold len; lia).
  done.
Qed.

(** Given a slice of the heap (one that exists: it holds no more than the
    [2^45] cells the run time allocates), [FromSlice] returns exactly when
    the length of the slice is the Go
    product [rows * cols], and panics with the mismatched-data message
    otherwise.  The matrix it returns is built over a copy: its buffer is
    a new object holding the elements of the slice, the slice keeps its
    elements, and a later write to the slice does not reach the matrix.
    For non-negative dimensions whose product is an int the matrix is one
    of the data model and its cell [(i, j)] is element [i * cols + j] of
    the slice. *)
Theorem FromSlice_copies (σ : store) (nrows ncols : Z) (d : loc) :
  (d < length σ)%nat → len (buf σ d) ≤ max_len →
  (len (buf σ d) ≠ int_mul nrows ncols →
     FromSlice nrows ncols d σ =
       Panic (PanicMismatchedData nrows ncols (len (buf σ d)))) ∧
  (len (buf σ d) = int_mul nrows ncols →
     ∃ m σ', FromSlice nrows ncols d σ = Ok (m, σ') ∧
       Rows m = nrows ∧ Cols m = ncols ∧
       data m ≠ d ∧ buf σ' (data m) = buf σ d ∧ buf σ' d = buf σ d ∧
       (∀ k x σ'', assign d k x σ' = Ok (tt, σ'') →
          buf σ'' (data m) = buf σ d) ∧
       (0 ≤ nrows ≤ int_max → 0 ≤ ncols ≤ int_max →
        nrows * ncols ≤ int_max →
          wf σ' m ∧
          ∀ i j, 0 ≤ i < nrows → 0 ≤ j < ncols →
            At m i j σ' = Ok (cell (buf σ d) ncols i j, σ'))).
Proof.
  intros Hd Hfit. split.
  - apply FromSlice_Panic.
  - intros Hl. rewrite FromSlice_run by done.
    eexists _, _. split; [done|]. cbn [Rows Cols rows cols data].
    split_and!; [done|done|lia|apply buf_app_last|by apply buf_app_l| |].
    + intros k x σ'' Hw. apply assign_confined in Hw as (_ & Hother & _).
      unfold buf at 1. rewrite Hother by lia. apply buf_app_last.
    + intros Hr Hc Hs.
      assert (len (buf σ d) = nrows * ncols) as Hl'.
      { rewrite Hl. apply int_mul_exact, is_int_nonneg. nia. }
      assert (wf (σ ++ [buf σ d]) (mkMatrix nrows ncols (length σ))) as Hm
        by (apply wf_fresh; (done || lia)).
      split; [done|]. intros i j Hi Hj. rewrite At_Ok by done.
      cbn [data cols]. by rewrite buf_app_last.
Qed.

Lemma FromSlice_copies_witness :
  let σ := [[1; 2; 3; 4; 5; 6]]%float in
  ∃ m σ', FromSlice 2 3 0%nat σ = Ok (m, σ') ∧ data m ≠ 0%nat ∧
          At m 1 2 σ' = Ok (6%float, σ').
Proof.
  intros σ.
  destruct (FromSlice_copies σ 2 3 0%nat) as [_ Hok];
    [simpl; lia|by vm_compute|].
  destruct Hok as (m & σ' & Hrun & _ & _ & Hne & _ & _ & _ & Hwf);
    [reflexivity|].
  destruct Hwf as [_ Hcell]; [unfold int_max; lia..|].
  exists m, σ'. split_and!; [done..|]. by rewrite (Hcell 1 2).
Defined.

(** [ToSlice] returns the matrix's own backing slice, not a copy: it holds
    [rows * cols] elements, a write through it at offset [i * cols + j] is
    read back by [At] at [(i, j)] of the matrix, and [FromSlice] applied to
    the dimensions and the slice of a matrix returns what [Clone]
    returns. *)
Theorem ToSlice_shares (σ : store) (m : Matrix) (i j : Z) (x : float64) :
  wf σ m → 0 ≤ i < rows m → 0 ≤ j < cols m →
  len (buf σ (ToSlice m)) = Rows m * Cols m ∧
  (∃ σ', assign (ToSlice m) (i * cols m + j) x σ = Ok (tt, σ') ∧
         At m i j σ' = Ok (x, σ')) ∧
  FromSlice (Rows m) (Cols m) (ToSlice m) σ = Clone m σ.
Proof.
  intros Hm Hi Hj. pose proof Hm as [Hr Hc Ha Hl Hs].
  unfold ToSlice, Rows, Cols. split_and!; [done| |].
  - unfold assign. rewrite decide_True by (rewrite Hl; nia).
    eexists. split; [done|].
    set (b' := <[_ := x]> (buf σ (data m))).
    assert (buf (<[data m := b']> σ) (data m) = b') as Hbuf.
    { unfold buf at 1. by rewrite list_lookup_insert_eq. }
    assert (wf (<[data m := b']> σ) m) as Hm'.
    { split; [done|done|by rewrite length_insert| |done].
      rewrite Hbuf. unfold b', len. rewrite length_insert. apply Hl. }
    rewrite At_Ok by done. rewrite Hbuf. unfold b', cell.
    rewrite list_lookup_insert_eq; [done|]. unfold len in Hl. nia.
  - rewrite FromSlice_Ok, Clone_Ok by (done || lia). done.
Qed.

Lemma ToSlice_shares_witness :
  let σ := [[1; 2; 3; 4]]%float in
  let m := mkMatrix 2 2 0%nat in
  ∃ σ', assign (ToSlice m) 3 9%float σ = Ok (tt, σ') ∧
        At m 1 1 σ' = Ok (9%float, σ').
Proof.
  intros σ m.
  destruct (ToSlice_shares σ m 1 1 9%float) as (_ & Hw & _);
    [concrete_wf|cbn; lia|cbn; lia|].
  exact Hw.
Defined.

(** ** [FromFunc] *)

(** For non-negative dimensions whose product is at most the [2^45] cells
    that [make] accepts, [FromFunc]
    returns a matrix of these dimensions whose cell [(i, j)] is [f(i, j)];
    it is the matrix that [New] followed by [Apply] builds.  For a larger
    product that is a Go int it panics in [make]. *)
Theorem FromFunc_generates (σ : store) (nrows ncols : Z)
    (f : Z → Z → float64) :
  0 ≤ nrows ≤ int_max → 0 ≤ ncols ≤ int_max →
  (nrows * ncols ≤ max_len →
     ∃ m σ', FromFunc nrows ncols f σ = Ok (m, σ') ∧
       Rows m = nrows ∧ Cols m = ncols ∧ wf σ' m ∧
       (∀ i j, 0 ≤ i < nrows → 0 ≤ j < ncols →
          At m i j σ' = Ok (f i j, σ')) ∧
       (m0 <- New nrows ncols ;; Apply m0 f ;; ret m0) σ = Ok (m, σ')) ∧
  (max_len < nrows * ncols ≤ int_max →
     FromFunc nrows ncols f σ = Panic RuntimeMakeSliceLen).
Proof.
  intros Hr Hc. split; [|apply FromFunc_limit].
  intros Hs. rewrite FromFunc_Ok by lia.
  set (zeros := replicate (Z.to_nat (nrows * ncols)) fzero).
  set (b := writes _ _ zeros _).
  set (m := mkMatrix nrows ncols (length σ)).
  assert (len zeros = nrows * ncols) as Hz by (apply len_replicate; nia).
  assert (wf (σ ++ [b]) m) as Hm.
  { apply wf_fresh; [done..|]. unfold b. by rewrite len_writes. }
  exists m, (σ ++ [b]). split_and!; [done..| |].
  - intros i j Hi Hj. rewrite At_Ok by done. cbn [data cols m].
    rewrite buf_app_last. unfold b.
    by rewrite (cell_writes_row_major nrows ncols).
  - mstep New_Ok by lia. fold zeros m.
    assert (wf (σ ++ [zeros]) m) as Hm0 by by apply wf_fresh.
    mstep Apply_Ok by done. cbn [data rows cols m].
    by rewrite buf_app_last, insert_app_last.
Qed.

Lemma FromFunc_generates_witness :
  ∃ m σ', FromFunc 2 3 (λ i j, if decide (i = j) then 1 else 0)%float []
            = Ok (m, σ') ∧
          At m 1 1 σ' = Ok (1%float, σ').
Proof.
  destruct (FromFunc_generates [] 2 3
              (λ i j, if decide (i = j) then 1 else 0)%float)
    as [Hok _]; [unfold int_max; lia..|].
  destruct Hok as (m & σ' & Hrun & _ & _ & _ & Hcell & _);
    [unfold max_len; lia|].
  exists m, σ'. split; [exact Hrun|].
  exact (Hcell 1 1 ltac:(lia) ltac:(lia)).
Defined.

(** ** [At] and [Set] *)

(** On a matrix of the data model [At] is total over the ints: at a
    position inside the matrix it returns element [i * cols + j] of the
    backing slice and leaves the heap as it is, at any other position it
    panics with the element-out-of-range message; the unchecked slice
    access behind it never fails. *)
Theorem At_checked (σ : store) (m : Matrix) (i j : Z) :
  wf σ m →
  (0 ≤ i < Rows m ∧ 0 ≤ j < Cols m →
     At m i j σ = Ok (default fzero
                        (buf σ (ToSlice m) !! Z.to_nat (i * Cols m + j)), σ) ∧
     i * Cols m + j < len (buf σ (ToSlice m))) ∧
  (¬ (0 ≤ i < Rows m ∧ 0 ≤ j < Cols m) →
     At m i j σ = Panic (PanicElementOutOfRange i j)) ∧
  At m i j σ ≠ Panic RuntimeIndexOutOfRange.
Proof.
  intros Hm. unfold Rows, Cols, ToSlice.
  assert (0 ≤ i < rows m ∧ 0 ≤ j < cols m →
          i * cols m + j < len (buf σ (data m))) as Hlt.
  { intros [Hi Hj]. destruct Hm as [Hr Hc Ha Hl Hs]. rewrite Hl. nia. }
  split_and!.
  - intros [Hi Hj]. split; [by apply At_Ok|]. by apply Hlt.
  - apply At_out_of_range.
  - destruct (decide (0 ≤ i < rows m ∧ 0 ≤ j < cols m)) as [[Hi Hj]|Hout].
    + by rewrite At_Ok.
    + by rewrite At_out_of_range.
Qed.

Lemma At_checked_witness :
  let σ := [[1; 2; 3; 4; 5; 6]]%float in
  let m := mkMatrix 2 3 0%nat in
  At m 1 0 σ = Ok (4%float, σ) ∧
  At m 2 0 σ = Panic (PanicElementOutOfRange 2 0).
Proof.
  intros σ m. split.
  - destruct (At_checked σ m 1 0) as ([Hok _] & _ & _);
      [concrete_wf|cbn; lia|]. exact Hok.
  - destruct (At_checked σ m 2 0) as (_ & Hout & _); [concrete_wf|].
    apply Hout. cbn. lia.
Defined.

(** [Set] at a position inside a matrix of the data model returns a
    matrix of the same dimensions that reads [x] at that position and the
    cells of the receiver everywhere else, while the receiver still reads
    its old cell there; at any other position [Set] panics with the
    element-out-of-range message. *)
Theorem Set_then_At (σ : store) (m : Matrix) (i j : Z) (x : float64) :
  wf σ m →
  (0 ≤ i < rows m ∧ 0 ≤ j < cols m →
     ∃ r σ', Set_ m i j x σ = Ok (r, σ') ∧
       Rows r = Rows m ∧ Cols r = Cols m ∧ wf σ' r ∧
       At r i j σ' = Ok (x, σ') ∧
       (∀ i' j', 0 ≤ i' < rows m → 0 ≤ j' < cols m → (i', j') ≠ (i, j) →
          At r i' j' σ' = Ok (cell (buf σ (data m)) (cols m) i' j', σ')) ∧
       At m i j σ' = Ok (cell (buf σ (data m)) (cols m) i j, σ')) ∧
  (¬ (0 ≤ i < rows m ∧ 0 ≤ j < cols m) →
     Set_ m i j x σ = Panic (PanicElementOutOfRange i j)).
Proof.
  intros Hm. split; [|apply Set_out_of_range].
  intros [Hi Hj]. pose proof Hm as [Hr Hc Ha Hl Hs].
  rewrite Set_Ok by done.
  set (b' := <[_ := x]> (buf σ (data m))).
  set (r := mkMatrix (rows m) (cols m) (length σ)).
  assert (wf (σ ++ [b']) r) as Hwr.
  { apply wf_fresh; [done..|]. unfold b', len. rewrite length_insert.
    apply Hl. }
  exists r, (σ ++ [b']). split_and!; [done..| | |].
  - rewrite At_Ok by done. cbn [data cols r]. rewrite buf_app_last.
    unfold b', cell. rewrite list_lookup_insert_eq; [done|].
    unfold len in Hl. nia.
  - intros i' j' Hi' Hj' Hne. rewrite At_Ok by done. cbn [data cols r].
    rewrite buf_app_last. unfold b', cell.
    rewrite list_lookup_insert_ne; [done|]. intros Heq.
    assert (i * cols m + j = i' * cols m + j') as Hoff by nia.
    apply offset_inj in Hoff as [-> ->]; done.
  - rewrite At_Ok by (done || by apply wf_app). by rewrite buf_app_l.
Qed.

Lemma Set_then_At_witness :
  let σ := [[1; 2; 3; 4]]%float in
  let m := mkMatrix 2 2 0%nat in
  ∃ r σ', Set_ m 0 1 9%float σ = Ok (r, σ') ∧
          At r 0 1 σ' = Ok (9%float, σ') ∧
          At r 1 0 σ' = Ok (3%float, σ') ∧
          At m 0 1 σ' = Ok (2%float, σ').
Proof.
  intros σ m.
  destruct (Set_then_At σ m 0 1 9%float) as [Hin _]; [concrete_wf|].
  destruct Hin as (r & σ' & Hrun & _ & _ & _ & Hnew & Hold & Hm);
    [cbn; lia|].
  exists r, σ'. split_and!; [done..| |done].
  by rewrite (Hold 1 0) by (cbn; (lia || done)).
Defined.

(** ** [Map], [Scale] and [AddScalar] *)

(** [Map] returns a matrix with the dimensions of its argument whose cell
    [(i, j)] is [f] of the argument's cell, and mapping [g] over the result
    gives the cells that mapping the composition of [g] after [f] over
    the argument gives. *)
Theorem Map_cellwise (σ : store) (m : Matrix) (f g : float64 → float64) :
  wf σ m →
  ∃ r σ', Map f m σ = Ok (r, σ') ∧
    Rows r = Rows m ∧ Cols r = Cols m ∧ wf σ' r ∧
    (∀ i j, 0 ≤ i < rows m → 0 ≤ j < cols m →
       At r i j σ' = Ok (f (cell (buf σ (data m)) (cols m) i j), σ')) ∧
    ∃ r2 σ2 r3 σ3,
      Map g r σ' = Ok (r2, σ2) ∧ Map (λ v, g (f v)) m σ = Ok (r3, σ3) ∧
      Rows r2 = Rows r3 ∧ Cols r2 = Cols r3 ∧
      buf σ2 (data r2) = buf σ3 (data r3).
Proof.
  intros Hm. pose proof Hm as [Hr Hc Ha Hl Hs].
  rewrite Map_Ok by done.
  set (r := mkMatrix (rows m) (cols m) (length σ)).
  assert (wf (σ ++ [f <$> buf σ (data m)]) r) as Hwr.
  { apply wf_fresh; [done..|]. unfold len. rewrite length_fmap. apply Hl. }
  exists r, (σ ++ [f <$> buf σ (data m)]). split_and!; [done..| |].
  - intros i j Hi Hj. rewrite At_Ok by done. cbn [data cols r].
    rewrite buf_app_last. by rewrite (cell_fmap f _ (rows m)).
  - rewrite !Map_Ok by done. eexists _, _, _, _. split_and!; [done..|].
    cbn [data r]. rewrite !buf_app_last.
    by rewrite <- list_fmap_compose.
Qed.

Lemma Map_cellwise_witness :
  let σ := [[1; 2; 3; 4]]%float in
  let m := mkMatrix 2 2 0%nat in
  ∃ r σ', Map (λ v, fadd v 1) m σ = Ok (r, σ') ∧
          At r 1 1 σ' = Ok (5%float, σ').
Proof.
  intros σ m.
  destruct (Map_cellwise σ m (λ v, fadd v 1) (λ v, v))
    as (r & σ' & Hrun & _ & _ & _ & Hcell & _); [concrete_wf|].
  exists r, σ'. split; [done|]. by rewrite (Hcell 1 1) by (cbn; lia).
Defined.

(** [Scale] and [AddScalar] are the maps [v ↦ x * v] and [v ↦ x + v]: the
    result has the dimensions of the receiver and its cell [(i, j)] is the
    rounded product, respectively sum, of [x] and the receiver's cell. *)
Theorem Scale_AddScalar_cellwise (σ : store) (m : Matrix) (x : float64) :
  wf σ m →
  (∃ r σ', Scale m x σ = Ok (r, σ') ∧
     Rows r = Rows m ∧ Cols r = Cols m ∧
     ∀ i j, 0 ≤ i < rows m → 0 ≤ j < cols m →
       At r i j σ' = Ok (fmul x (cell (buf σ (data m)) (cols m) i j), σ')) ∧
  (∃ r σ', AddScalar m x σ = Ok (r, σ') ∧
     Rows r = Rows m ∧ Cols r = Cols m ∧
     ∀ i j, 0 ≤ i < rows m → 0 ≤ j < cols m →
       At r i j σ' = Ok (fadd x (cell (buf σ (data m)) (cols m) i j), σ')).
Proof.
  intros Hm. pose proof Hm as [Hr Hc Ha Hl Hs].
  assert (∀ f, wf (σ ++ [f <$> buf σ (data m)])
                  (mkMatrix (rows m) (cols m) (length σ))) as Hwr.
  { intros f. apply wf_fresh; [done..|]. unfold len. rewrite length_fmap.
    apply Hl. }
  unfold Scale, AddScalar. rewrite !Map_Ok by done.
  split; eexists _, _; (split; [done|]); (split_and!; [done..|]);
    intros i j Hi Hj; rewrite At_Ok by done; cbn [data cols];
    rewrite buf_app_last; by rewrite (cell_fmap _ _ (rows m)).
Qed.

Lemma Scale_AddScalar_cellwise_witness :
  let σ := [[1; 2; 3; 4]]%float in
  let m := mkMatrix 2 2 0%nat in
  (∃ r σ', Scale m 2 σ = Ok (r, σ') ∧ At r 1 1 σ' = Ok (8%float, σ')) ∧
  (∃ r σ', AddScalar m 2 σ = Ok (r, σ') ∧ At r 1 1 σ' = Ok (6%float, σ')).
Proof.
  intros σ m.
  destruct (Scale_AddScalar_cellwise σ m 2%float)
    as [(r & σ' & Hrun & _ & _ & Hcell) (r2 & σ2 & Hrun2 & _ & _ & Hcell2)];
    [concrete_wf|].
  split.
  - exists r, σ'. split; [done|]. by rewrite (Hcell 1 1) by (cbn; lia).
  - exists r2, σ2. split; [done|]. by rewrite (Hcell2 1 1) by (cbn; lia).
Defined.

(** ** [ConcatenateRows] *)

Lemma segment_app_l {A} (X Y : list A) lo hi :
  0 ≤ lo → lo ≤ hi → hi ≤ len X → segment (X ++ Y) lo hi = segment X lo hi.
Proof.
  intros Hlo Hle Hhi. unfold segment, len in *.
  rewrite drop_app_le by lia. rewrite take_app_le; [done|].
  rewrite length_drop. lia.
Qed.

Lemma segment_app_r {A} (X Y : list A) n lo hi :
  len X = n → 0 ≤ lo →
  segment (X ++ Y) (n + lo) (n + hi) = segment Y lo hi.
Proof.
  intros Hn Hlo. unfold segment, len in *.
  replace (Z.to_nat (n + lo)) with (length X + Z.to_nat lo)%nat by lia.
  rewrite <- drop_drop, drop_app_length. f_equal. lia.
Qed.

Lemma sumZ_app l1 l2 : sumZ (l1 ++ l2) = sumZ l1 + sumZ l2.
Proof.
  induction l1 as [|x l1 IH]; [done|].
  rewrite <- app_comm_cons, !sumZ_cons, IH. lia.
Qed.

(** [ConcatenateRows] panics on no matrices and on matrices whose column
    counts differ from that of the first; given matrices of one column
    count whose row counts add up to an int, with a cell count of the
    result of at most the [2^45] cells that [make] accepts, it returns a
    matrix with that column count and the sum of
    the row counts, whose buffer is the buffers of the inputs one after
    the other: row [i] of the [k]-th input is row [i] plus the row counts
    of the inputs before it of the result.  For a larger cell count that
    is a Go int it panics in [make] with "makeslice: cap out of range". *)
Theorem ConcatenateRows_stacks (σ : store) (ms : list Matrix) :
  Forall (wf σ) ms →
  (ms = [] → ConcatenateRows ms σ = Panic PanicEmptyConcat) ∧
  (∀ m0 rest, ms = m0 :: rest → Exists (λ m, Cols m ≠ Cols m0) ms →
     ConcatenateRows ms σ = Panic PanicConcatRowsCols) ∧
  (∀ m0 rest, ms = m0 :: rest → Forall (λ m, Cols m = Cols m0) ms →
     sumZ (Rows <$> ms) ≤ int_max →
     sumZ (Rows <$> ms) * Cols m0 ≤ max_len →
     ∃ c σ', ConcatenateRows ms σ = Ok (c, σ') ∧
       Rows c = sumZ (Rows <$> ms) ∧ Cols c = Cols m0 ∧ wf σ' c ∧
       buf σ' (data c) = mjoin ((λ m, buf σ (data m)) <$> ms) ∧
       ∀ (k : nat) m i, ms !! k = Some m → 0 ≤ i < Rows m →
         row_of σ' c (sumZ (Rows <$> take k ms) + i) = row_of σ m i) ∧
  (∀ m0 rest, ms = m0 :: rest → Forall (λ m, Cols m = Cols m0) ms →
     sumZ (Rows <$> ms) ≤ int_max →
     max_len < sumZ (Rows <$> ms) * Cols m0 ≤ int_max →
     ConcatenateRows ms σ = Panic RuntimeMakeSliceCap).
Proof.
  intros Hwf. change Rows with rows. change Cols with cols. split_and!;
    [| | |intros m0 rest -> Hcols Hsum Hsize; by apply ConcatenateRows_limit].
  - by intros ->.
  - intros m0 rest Hms Hex. by eapply ConcatenateRows_cols_differ.
  - intros m0 rest Hms Hcols Hsum Hsize.
    assert (0 ≤ sumZ (rows <$> ms)) as Hnn.
    { apply sumZ_nonneg, Forall_fmap. eapply Forall_impl; [exact Hwf|].
      intros m Hm. apply Hm. }
    assert (wf σ m0) as Hm0.
    { rewrite Forall_forall in Hwf. apply Hwf. rewrite Hms. left. }
    pose proof (len_join_bufs σ ms (cols m0) Hwf Hcols) as Hlen.
    pose proof (ConcatenateRows_Ok σ m0 rest) as Hrun.
    cbv zeta in Hrun. rewrite <- Hms in Hrun.
    rewrite Hrun by done. clear Hrun.
    eexists _, _. split; [done|]. cbn [rows cols data].
    rewrite buf_app_last.
    split_and!; [done|done| |done|].
    { apply wf_fresh; [lia|apply Hm0|done|done]. }
    intros k m i Hk Hi. unfold row_of. cbn [rows cols data].
    rewrite buf_app_last.
    assert (wf σ m) as Hm.
    { rewrite Forall_forall in Hwf. apply Hwf.
      by eapply list_elem_of_lookup_2. }
    assert (cols m = cols m0) as Hcm.
    { rewrite Forall_forall in Hcols. apply Hcols.
      by eapply list_elem_of_lookup_2. }
    rewrite <- (take_drop_middle ms k m Hk) at 1.
    rewrite fmap_app, fmap_cons, join_app, join_cons.
    pose proof (len_join_bufs σ (take k ms) (cols m0)
                  (Forall_take _ _ _ Hwf) (Forall_take _ _ _ Hcols)) as Hpre.
    replace ((sumZ (rows <$> take k ms) + i) * cols m0)
      with (sumZ (rows <$> take k ms) * cols m0 + i * cols m0) by lia.
    replace ((sumZ (rows <$> take k ms) + i + 1) * cols m0)
      with (sumZ (rows <$> take k ms) * cols m0 + (i + 1) * cols m0) by lia.
    destruct Hm as [Hr Hc Ha Hl Hs].
    rewrite (segment_app_r _ _ _ _ _ Hpre) by nia.
    rewrite segment_app_l by (rewrite ?Hl; nia).
    by rewrite Hcm.
Qed.

Lemma ConcatenateRows_stacks_witness :
  let σ := [[1; 2]; [3; 4; 5; 6]]%float in
  let a := mkMatrix 1 2 0%nat in
  let b := mkMatrix 2 2 1%nat in
  ∃ c σ', ConcatenateRows [a; b] σ = Ok (c, σ') ∧
          Rows c = 3 ∧ row_of σ' c 2 = [5; 6]%float.
Proof.
  intros σ a b.
  destruct (ConcatenateRows_stacks σ [a; b]) as (_ & _ & Hok & _).
  { apply Forall_pair; concrete_wf. }
  destruct (Hok a [b] eq_refl) as (c & σ' & Hrun & Hr & _ & _ & _ & Hrow).
  { by apply Forall_pair. }
  { vm_compute. by intros [=]. }
  { vm_compute. by intros [=]. }
  exists c, σ'. split_and!; [done..|].
  exact (Hrow 1%nat b 1 eq_refl ltac:(cbn; lia)).
Defined.

(** ** The cells of a slice *)

(** For a range inside the matrix, cell [(i, j)] of the matrix that
    [SliceCols] returns is cell [(i, from + j)] of the receiver, and cell
    [(i, j)] of the matrix that [SliceRows] returns is cell [(from + i, j)]
    of the receiver. *)
Theorem slices_select (σ : store) (m : Matrix) (from to : Z) :
  wf σ m → 0 ≤ from → from ≤ to →
  (to ≤ Cols m →
     ∃ r σ', SliceCols m from to σ = Ok (r, σ') ∧
       Rows r = Rows m ∧ Cols r = to - from ∧
       ∀ i j, 0 ≤ i < Rows m → 0 ≤ j < to - from →
         At r i j σ' = Ok (cell (buf σ (data m)) (Cols m) i (from + j), σ')) ∧
  (to ≤ Rows m →
     ∃ r σ', SliceRows m from to σ = Ok (r, σ') ∧
       Rows r = to - from ∧ Cols r = Cols m ∧
       ∀ i j, 0 ≤ i < to - from → 0 ≤ j < Cols m →
         At r i j σ' = Ok (cell (buf σ (data m)) (Cols m) (from + i) j, σ')).
Proof.
  intros Hm Hf Hft. pose proof Hm as [Hr Hc Ha Hl Hs].
  unfold Rows, Cols. split.
  - intros Ht. rewrite SliceCols_Ok by done.
    set (R := slice_cols _ _ _ _ _).
    assert (len R = rows m * (to - from)) as HR
      by (apply len_slice_cols; (done || lia)).
    assert (wf (σ ++ [R]) (mkMatrix (rows m) (to - from) (length σ))) as Hwr.
    { apply wf_fresh; [lia|lia|nia|done]. }
    eexists _, _. split; [done|]. split_and!; [done..|].
    intros i j Hi Hj. rewrite At_Ok by done. cbn [data cols].
    rewrite buf_app_last. unfold cell. f_equal. f_equal.
    rewrite <- (lookup_segment R (i * (to - from)) ((i + 1) * (to - from)))
      by nia.
    unfold R, slice_cols.
    rewrite (segment_join_chunks _ (rows m) (to - from)); [|intros k Hk|done].
    + rewrite lookup_segment by nia. by rewrite Z.add_assoc.
    + rewrite length_segment by (rewrite ?Hl; nia). lia.
  - intros Ht. rewrite SliceRows_Ok by done.
    set (R := segment _ _ _).
    assert (len R = (to - from) * cols m) as HR.
    { unfold R. rewrite length_segment by (rewrite ?Hl; nia). lia. }
    assert (wf (σ ++ [R]) (mkMatrix (to - from) (cols m) (length σ))) as Hwr.
    { apply wf_fresh; [lia|lia|nia|done]. }
    eexists _, _. split; [done|]. split_and!; [done..|].
    intros i j Hi Hj. rewrite At_Ok by done. cbn [data cols].
    rewrite buf_app_last. unfold cell, R. f_equal. f_equal.
    rewrite lookup_segment by nia.
    by replace (from * cols m + (i * cols m + j))
      with ((from + i) * cols m + j) by lia.
Qed.

Lemma slices_select_witness :
  let σ := [[1; 2; 3; 4; 5; 6]]%float in
  let m := mkMatrix 2 3 0%nat in
  (∃ r σ', SliceCols m 1 3 σ = Ok (r, σ') ∧ At r 1 0 σ' = Ok (5%float, σ')) ∧
  (∃ r σ', SliceRows m 1 2 σ = Ok (r, σ') ∧ At r 0 2 σ' = Ok (6%float, σ')).
Proof.
  intros σ m.
  destruct (slices_select σ m 1 3) as [Hcols _]; [concrete_wf|lia|lia|].
  destruct (slices_select σ m 1 2) as [_ Hrows]; [concrete_wf|lia|lia|].
  destruct Hcols as (r & σ' & Hrun & _ & _ & Hcell); [cbn; lia|].
  destruct Hrows as (r2 & σ2 & Hrun2 & _ & _ & Hcell2); [cbn; lia|].
  split.
  - exists r, σ'. split; [done|]. by rewrite (Hcell 1 0) by (cbn; lia).
  - exists r2, σ2. split; [done|]. by rewrite (Hcell2 0 2) by (cbn; lia).
Defined.

(** ** [FilterRows] *)

Lemma filter_all {A} (P : A → Prop) `{∀ x, Decision (P x)} (l : list A) :
  (∀ x, x ∈ l → P x) → filter P l = l.
Proof.
  induction l as [|x l IH]; intros Hall; [done|].
  rewrite filter_cons_True by (apply Hall; left).
  f_equal. apply IH. intros y Hy. apply Hall. by right.
Qed.

(** [FilterRows] keeps the rows whose index satisfies the predicate, in
    increasing order of the index: the result has the columns of the
    receiver and as many rows as there are such indices, and its [k]-th row
    is the receiver's row at the [k]-th of them.  A predicate that holds of
    every row index gives the cells of the receiver, one that holds of none
    gives a matrix without rows. *)
Theorem FilterRows_keeps (σ : store) (m : Matrix) (f : Z → bool) :
  wf σ m →
  let kept := filter (λ i, f i = true) (seqZ 0 (Rows m)) in
  ∃ r σ', FilterRows m f σ = Ok (r, σ') ∧
    Rows r = len kept ∧ Cols r = Cols m ∧ wf σ' r ∧
    (∀ (k : nat) i, kept !! k = Some i →
       row_of σ' r (Z.of_nat k) = row_of σ m i) ∧
    ((∀ i, 0 ≤ i < Rows m → f i = true) →
       Rows r = Rows m ∧ buf σ' (data r) = buf σ (data m)) ∧
    ((∀ i, 0 ≤ i < Rows m → f i = false) → Rows r = 0).
Proof.
  intros Hm. pose proof Hm as [Hr Hc Ha Hl Hs].
  change Rows with rows. change Cols with cols. intros kept.
  rewrite FilterRows_Ok by done. fold kept.
  assert (Forall (λ i, 0 ≤ i < rows m) kept) as Hkept.
  { apply Forall_forall. intros i [_ Hi%elem_of_seqZ]%list_elem_of_filter.
    lia. }
  assert (len kept ≤ rows m) as Hle.
  { unfold len, kept.
    pose proof (length_filter (λ i, f i = true) (seqZ 0 (rows m))) as Hlf.
    rewrite length_seqZ in Hlf. lia. }
  pose proof (len_join_kept σ m kept Hm Hkept) as Hlen.
  set (R := mjoin (row_of σ m <$> kept)) in *.
  eexists _, _. split; [done|]. cbn [rows cols data].
  rewrite buf_app_last. split_and!; [done|done| | | |].
  - apply wf_fresh; [unfold len in *; lia|done|nia|done].
  - intros k i Hk. unfold row_of at 1. cbn [cols data].
    rewrite buf_app_last. unfold R.
    apply segment_join_lookup.
    + apply Forall_fmap. eapply Forall_impl; [exact Hkept|].
      intros i' Hi'. by apply len_row_of.
    + by rewrite list_lookup_fmap, Hk.
  - intros Hall.
    assert (kept = seqZ 0 (rows m)) as Heq.
    { apply filter_all. intros i Hi%elem_of_seqZ. apply Hall. lia. }
    split.
    + rewrite Heq. unfold len. rewrite length_seqZ. lia.
    + unfold R. rewrite Heq. unfold row_of. apply join_rows; (lia || done).
  - intros Hnone.
    assert (kept = []) as Heq; [|by rewrite Heq].
    apply filter_none. intros i Hi%elem_of_seqZ.
    rewrite Hnone by lia. done.
Qed.

Lemma FilterRows_keeps_witness :
  let σ := [[1; 2; 3; 4; 5; 6]]%float in
  let m := mkMatrix 3 2 0%nat in
  ∃ r σ', FilterRows m (λ i, bool_decide (i ≠ 1)) σ = Ok (r, σ') ∧
          Rows r = 2 ∧ row_of σ' r 1 = [5; 6]%float.
Proof.
  intros σ m.
  destruct (FilterRows_keeps σ m (λ i, bool_decide (i ≠ 1)))
    as (r & σ' & Hrun & Hr & _ & _ & Hrow & _); [concrete_wf|].
  exists r, σ'. split_and!; [done..|].
  exact (Hrow 1%nat 2 eq_refl).
Defined.

(** ** [Reduce] and [Sum] *)

(** [Reduce] never panics and writes nothing: it returns the left fold of
    [f] over the backing slice in row-major order, starting from [zero],
    and [Sum] is that fold for [+] from [0.0].  On a matrix without cells
    the result is [zero], and reducing the matrix that [ConcatenateRows]
    builds of [m] and [b] (which it does when their cells together are no
    more than the [2^45] that [make] accepts) continues the reduction of
    [m] through [b]. *)
Theorem Reduce_folds (σ : store) (m : Matrix) (zero : float64)
    (f : float64 → float64 → float64) :
  Reduce m zero f σ
    = Ok (foldl (λ cum x, f x cum) zero (buf σ (ToSlice m)), σ) ∧
  Sum m σ = Ok (foldl (λ cum x, fadd x cum) fzero (buf σ (ToSlice m)), σ) ∧
  (wf σ m → Rows m = 0 ∨ Cols m = 0 → Reduce m zero f σ = Ok (zero, σ)) ∧
  (∀ b, wf σ m → wf σ b → Cols m = Cols b →
     Rows m + Rows b ≤ int_max → (Rows m + Rows b) * Cols m ≤ max_len →
     ∃ c σ', ConcatenateRows [m; b] σ = Ok (c, σ') ∧
       Reduce c zero f σ' = (z <- Reduce m zero f ;; Reduce b z f) σ').
Proof.
  unfold Sum, ToSlice, Rows, Cols. rewrite !Reduce_Ok. split_and!; [done..| |].
  - intros [Hr Hc Ha Hl Hs] Hz.
    assert (buf σ (data m) = []) as ->; [|done].
    apply nil_length_inv. unfold len in Hl. nia.
  - intros b Hm Hb Hcols Hsum Hsize.
    assert (sumZ (rows <$> [m; b]) = rows m + rows b) as Hs2
      by (unfold sumZ; simpl; lia).
    pose proof (ConcatenateRows_Ok σ m [b]) as Hrun. cbv zeta in Hrun.
    rewrite Hrun; [|by apply Forall_pair|by apply Forall_pair|
                   rewrite Hs2; lia..].
    eexists _, _. split; [done|].
    rewrite Reduce_Ok. cbn [data]. rewrite buf_app_last.
    unfold bind. rewrite !Reduce_Ok.
    rewrite !buf_app_l by (apply Hm || apply Hb).
    simpl. by rewrite app_nil_r, foldl_app.
Qed.

Lemma Reduce_folds_witness :
  let σ := [[1; 2]; [3; 4]]%float in
  let m := mkMatrix 1 2 0%nat in
  let b := mkMatrix 1 2 1%nat in
  ∃ c σ', ConcatenateRows [m; b] σ = Ok (c, σ') ∧
          Reduce c fzero (λ x cum, fadd x cum) σ' = Ok (10%float, σ').
Proof.
  intros σ m b.
  destruct (Reduce_folds σ m fzero (λ x cum, fadd x cum)) as (_ & _ & _ & H).
  destruct (H b) as (c & σ' & Hrun & Hred);
    [concrete_wf|concrete_wf|reflexivity|vm_compute; by intros [=]..|].
  exists c, σ'. split; [done|]. rewrite Hred.
  injection Hrun as <- <-. reflexivity.
Defined.

(** ** [Dot], [Plus] and [Minus] *)

Lemma dotApply_cells σ a b f :
  wf σ a → wf σ b → cols a = cols b → rows a = rows b →
  ∃ c σ', dotApply a b f σ = Ok (c, σ') ∧
    Rows c = Rows a ∧ Cols c = Cols a ∧ wf σ' c ∧
    ∀ i j, 0 ≤ i < rows a → 0 ≤ j < cols a →
      At c i j σ' = Ok (f (cell (buf σ (data a)) (cols a) i j)
                          (cell (buf σ (data b)) (cols a) i j), σ').
Proof.
  intros Ha Hb Hc Hr. rewrite dotApply_Ok by done.
  set (W := writes _ _ _ _).
  assert (len W = rows a * cols a) as HW.
  { unfold W. rewrite len_writes. apply len_replicate.
    destruct Ha. nia. }
  assert (wf (σ ++ [W]) (mkMatrix (rows a) (cols a) (length σ))) as Hwc.
  { apply wf_fresh; [apply Ha|apply Ha|apply Ha|done]. }
  eexists _, _. split; [done|]. split_and!; [done..|].
  intros i j Hi Hj. rewrite At_Ok by done. cbn [data cols].
  rewrite buf_app_last. unfold W.
  rewrite (cell_writes_row_major (rows a) (cols a)); [|by rewrite len_replicate by (destruct Ha; nia)|done..].
  cbn [fst snd]. by rewrite <- Hc.
Qed.

(** [Dot], [Plus] and [Minus] panic with the dimensions of both matrices
    when the row or the column counts differ; on two matrices of the same
    dimensions each returns a matrix of these dimensions whose cell
    [(i, j)] is the rounded product, sum, respectively difference of the
    cells [(i, j)] of the receiver and of the argument, in this order. *)
Theorem pairwise_ops (σ : store) (a b : Matrix) :
  wf σ a → wf σ b →
  (Cols a ≠ Cols b ∨ Rows a ≠ Rows b →
     let e := PanicDotApplyDims (Rows a) (Cols a) (Rows b) (Cols b) in
     Dot a b σ = Panic e ∧ Plus a b σ = Panic e ∧ Minus a b σ = Panic e) ∧
  (Cols a = Cols b → Rows a = Rows b →
     let A i j := cell (buf σ (data a)) (Cols a) i j in
     let B i j := cell (buf σ (data b)) (Cols b) i j in
     let result (run : M Matrix) (v : Z → Z → float64) :=
       ∃ c σ', run σ = Ok (c, σ') ∧
         Rows c = Rows a ∧ Cols c = Cols a ∧ wf σ' c ∧
         ∀ i j, 0 ≤ i < Rows a → 0 ≤ j < Cols a →
           At c i j σ' = Ok (v i j, σ') in
     result (Dot a b) (λ i j, fmul (A i j) (B i j)) ∧
     result (Plus a b) (λ i j, fadd (A i j) (B i j)) ∧
     result (Minus a b) (λ i j, fsub (A i j) (B i j))).
Proof.
  intros Ha Hb. unfold Rows, Cols. split.
  - intros Hne. cbv zeta. unfold Dot, Plus, Minus.
    by rewrite !dotApply_Panic by done.
  - intros Hc Hr. cbv zeta. rewrite <- Hc. unfold Dot, Plus, Minus.
    split_and!; by apply dotApply_cells.
Qed.

Lemma pairwise_ops_witness :
  let σ := [[1; 2]; [3; 4]]%float in
  let a := mkMatrix 1 2 0%nat in
  let b := mkMatrix 1 2 1%nat in
  ∃ c σ', Minus a b σ = Ok (c, σ') ∧ At c 0 1 σ' = Ok ((-2)%float, σ').
Proof.
  intros σ a b.
  destruct (pairwise_ops σ a b) as [_ Hok]; [concrete_wf..|].
  destruct (Hok eq_refl eq_refl) as (_ & _ & c & σ' & Hrun & _ & _ & _ & Hcell).
  exists c, σ'. split; [done|]. by rewrite (Hcell 0 1) by (cbn; lia).
Defined.

(** ** The arithmetic of cells *)

Lemma SFeqb_trans f1 f2 f3 :
  SFeqb f1 f2 = true → SFeqb f2 f3 = true → SFeqb f1 f3 = true.
Proof.
  unfold SFeqb, SFcompare.
  destruct f1 as [s1|s1| |s1 m1 e1], f2 as [s2|s2| |s2 m2 e2],
           f3 as [s3|s3| |s3 m3 e3];
    try destruct s1; try destruct s2; try destruct s3; try done.
  all: destruct (e1 ?= e2)%Z eqn:H12; try done;
       destruct (e2 ?= e3)%Z eqn:H23; try done;
       apply Z.compare_eq in H12, H23; subst; rewrite Z.compare_refl;
       change (Pos.compare_cont Eq m1 m2) with (m1 ?= m2)%positive;
       change (Pos.compare_cont Eq m2 m3) with (m2 ?= m3)%positive;
       change (Pos.compare_cont Eq m1 m3) with (m1 ?= m3)%positive;
       destruct (m1 ?= m2)%positive eqn:Hm12; try done;
       destruct (m2 ?= m3)%positive eqn:Hm23; try done;
       apply Pos.compare_eq in Hm12, Hm23; subst;
       by rewrite Pos.compare_refl.
Qed.

Lemma feq_trans x y z : feq x y = true → feq y z = true → feq x z = true.
Proof. unfold feq. rewrite !FloatAxioms.eqb_spec. apply SFeqb_trans. Qed.

Lemma SFmul_comm prec emax x y : SFmul prec emax x y = SFmul prec emax y x.
Proof.
  destruct x as [sx|sx| |sx mx ex], y as [sy|sy| |sy my ey]; simpl;
    try reflexivity; rewrite (xorb_comm sx sy); try reflexivity.
  by rewrite (Pos.mul_comm mx my), (Z.add_comm ex ey).
Qed.

Lemma SFadd_comm prec emax x y : SFadd prec emax x y = SFadd prec emax y x.
Proof.
  destruct x as [sx|sx| |sx mx ex], y as [sy|sy| |sy my ey]; simpl;
    try reflexivity; try (by destruct sx, sy).
  by rewrite (Z.min_comm ex ey), Z.add_comm.
Qed.

Lemma fmul_comm x y : fmul x y = fmul y x.
Proof.
  unfold fmul. apply FloatAxioms.Prim2SF_inj.
  rewrite !FloatAxioms.mul_spec. apply SFmul_comm.
Qed.

Lemma fadd_comm x y : fadd x y = fadd y x.
Proof.
  unfold fadd. apply FloatAxioms.Prim2SF_inj.
  rewrite !FloatAxioms.add_spec. apply SFadd_comm.
Qed.

(** ** [Equals] as a relation *)

(** [Equals] is transitive on matrices of the data model: IEEE equality of
    cells is (a NaN equals nothing, and the two zeros equal each other). *)
Theorem Equals_transitive (σ : store) (a b c : Matrix) :
  wf σ a → wf σ b → wf σ c →
  Equals a b σ = Ok (true, σ) → Equals b c σ = Ok (true, σ) →
  Equals a c σ = Ok (true, σ).
Proof.
  intros Ha Hb Hc Hab Hbc.
  destruct (decide (cols a ≠ cols b ∨ rows a ≠ rows b)) as [Hd|Hd];
    [by rewrite Equals_dims_differ in Hab|].
  destruct (decide (cols b ≠ cols c ∨ rows b ≠ rows c)) as [Hd'|Hd'];
    [by rewrite Equals_dims_differ in Hbc|].
  rewrite Equals_same_dims in Hab, Hbc |- * by (done || lia).
  f_equal. f_equal.
  apply Ok_pair_inj in Hab as [Hab _], Hbc as [Hbc _].
  pose proof Ha as [Har Hac _ Hal _]. pose proof Hb as [Hbr Hbc' _ Hbl _].
  rewrite (buffers_equal_cells _ _ (rows a) (cols a)) in Hab
    by (done || lia).
  rewrite (buffers_equal_cells _ _ (rows a) (cols a)) in Hbc
    by (try lia; rewrite Hbl; nia).
  apply (buffers_equal_cells _ _ (rows a) (cols a)); [lia|lia|done|].
  intros i j Hi Hj. by eapply feq_trans; [apply Hab|apply Hbc].
Qed.

Lemma Equals_transitive_witness :
  let σ := [[1; 0]; [1; -0]; [1; 0]]%float in
  Equals (mkMatrix 1 2 0%nat) (mkMatrix 1 2 2%nat) σ = Ok (true, σ).
Proof.
  intros σ.
  apply (Equals_transitive σ _ (mkMatrix 1 2 1%nat));
    [concrete_wf..|reflexivity|reflexivity].
Defined.

(** ** Commuting operands *)

Lemma writes_ext {X} (idx : X → nat) (v v' : X → float64) b l :
  (∀ x, x ∈ l → v x = v' x) → writes idx v b l = writes idx v' b l.
Proof.
  intros Hv. unfold writes. apply foldl_ext_elem.
  intros s x Hx. by rewrite Hv.
Qed.

Lemma dotApply_swap σ a b (f g : float64 → float64 → float64) :
  wf σ a → wf σ b → cols a = cols b → rows a = rows b →
  (∀ x y, f x y = g y x) →
  dotApply a b f σ = dotApply b a g σ.
Proof.
  intros Ha Hb Hc Hr Hfg. rewrite !dotApply_Ok by done.
  rewrite <- Hc, <- Hr. do 4 f_equal. apply writes_ext.
  intros ij _. apply Hfg.
Qed.

(** On two matrices of the same dimensions [Plus] and [Dot] return the
    same matrix whichever of the two is the receiver: the rounded sum and
    the rounded product of two cells do not depend on the order of the
    operands (the model has one NaN). *)
Theorem Plus_Dot_commute (σ : store) (a b : Matrix) :
  wf σ a → wf σ b → Cols a = Cols b → Rows a = Rows b →
  (∃ c σ', Plus a b σ = Ok (c, σ') ∧ Plus b a σ = Ok (c, σ')) ∧
  (∃ c σ', Dot a b σ = Ok (c, σ') ∧ Dot b a σ = Ok (c, σ')).
Proof.
  unfold Rows, Cols. intros Ha Hb Hc Hr. unfold Plus, Dot. split.
  - rewrite (dotApply_swap σ a b _ (λ x y, fadd x y)) by
      (done || intros; apply fadd_comm).
    rewrite dotApply_Ok by done. by eexists _, _.
  - rewrite (dotApply_swap σ a b _ (λ x y, fmul x y)) by
      (done || intros; apply fmul_comm).
    rewrite dotApply_Ok by done. by eexists _, _.
Qed.

Lemma Plus_Dot_commute_witness :
  let σ := [[1; 2]; [3; 4]]%float in
  let a := mkMatrix 1 2 0%nat in
  let b := mkMatrix 1 2 1%nat in
  ∃ c σ', Plus a b σ = Ok (c, σ') ∧ Plus b a σ = Ok (c, σ').
Proof.
  intros σ a b.
  destruct (Plus_Dot_commute σ a b) as [Hplus _];
    [concrete_wf..|reflexivity|reflexivity|].
  exact Hplus.
Defined.

(** ** The product and the other operations *)

Lemma T_cells σ m :
  wf σ m →
  ∃ bt, T m σ = Ok (mkMatrix (cols m) (rows m) (length σ), σ ++ [bt]) ∧
        len bt = cols m * rows m ∧
        ∀ i j, 0 ≤ i < rows m → 0 ≤ j < cols m →
          cell bt (rows m) j i = cell (buf σ (data m)) (cols m) i j.
Proof.
  intros Hm. pose proof Hm as [Hr Hc Ha Hl Hs].
  rewrite T_Ok by done. eexists. split; [done|]. split.
  - rewrite len_writes, len_replicate; nia.
  - intros i j Hi Hj.
    rewrite (cell_transposed (rows m) (cols m)
               (λ ij, cell (buf σ (data m)) (cols m) ij.1 ij.2));
      [done| |done|done].
    rewrite len_replicate; nia.
Qed.

Lemma inner_product_ext A B A' B' n bc bc' i j i' j' :
  (∀ k, 0 ≤ k < n →
     fmul (cell A n i k) (cell B bc k j)
       = fmul (cell A' n i' k) (cell B' bc' k j')) →
  inner_product A B n bc i j = inner_product A' B' n bc' i' j'.
Proof.
  intros Hk. unfold inner_product. apply foldl_ext_elem.
  intros p k Hin%elem_of_seqZ. rewrite Hk by lia. done.
Qed.

Lemma cell_segment_rows (b : list float64) c from to i j :
  0 ≤ from → 0 ≤ i < to - from → 0 ≤ j < c →
  cell (segment b (from * c) (to * c)) c i j = cell b c (from + i) j.
Proof.
  intros Hf Hi Hj. unfold cell. rewrite lookup_segment by nia.
  by replace (from * c + (i * c + j)) with ((from + i) * c + j) by lia.
Qed.

(** The transpose of a product is the product of the transposes in the
    opposite order, cell for cell in floating point: both accumulate the
    same rounded products in the same order of [k], the operands of each
    product being swapped (the model has one NaN).  Both return when the
    cell count of the product is at most the [2^45] cells that [make]
    accepts. *)
Theorem Product_transpose (σ : store) (a b : Matrix) :
  wf σ a → wf σ b → Cols a = Rows b → Rows a * Cols b ≤ max_len →
  ∃ l σ1 r σ2,
    (p <- Product a b ;; T p) σ = Ok (l, σ1) ∧
    (tb <- T b ;; ta <- T a ;; Product tb ta) σ = Ok (r, σ2) ∧
    Rows l = Cols b ∧ Cols l = Rows a ∧
    Rows r = Cols b ∧ Cols r = Rows a ∧
    buf σ1 (data l) = buf σ2 (data r).
Proof.
  unfold Rows, Cols. intros Ha Hb Hab Hsz.
  pose proof Ha as [Har Hac Haa Hal Has].
  pose proof Hb as [Hbr Hbc Hba Hbl Hbs].
  destruct (Product_Ok σ a b Ha Hb Hab Hsz) as (bc & Hrun & Hlen & Hcell).
  set (p := mkMatrix (rows a) (cols b) (length σ)) in *.
  assert (wf (σ ++ [bc]) p) as Hp by (apply wf_fresh; (done || lia)).
  destruct (T_cells _ p Hp) as (bt & HT & Hlt & Hct).
  destruct (T_cells σ b Hb) as (btb & HTb & Hltb & Hctb).
  set (tb := mkMatrix (cols b) (rows b) (length σ)) in *.
  assert (wf (σ ++ [btb]) tb) as Htb by (apply wf_fresh; (done || lia)).
  assert (wf (σ ++ [btb]) a) as Ha3 by by apply wf_app.
  destruct (T_cells _ a Ha3) as (bta & HTa & Hlta & Hcta).
  set (ta := mkMatrix (cols a) (rows a) (length (σ ++ [btb]))) in *.
  assert (wf ((σ ++ [btb]) ++ [bta]) ta) as Hta
    by (apply wf_fresh; (done || lia)).
  assert (wf ((σ ++ [btb]) ++ [bta]) tb) as Htb4 by by apply wf_app.
  destruct (Product_Ok _ tb ta Htb4 Hta (eq_sym Hab))
    as (bq & Hrunq & Hlq & Hcq); [cbn [rows cols tb ta]; lia|].
  exists (mkMatrix (cols p) (rows p) (length (σ ++ [bc]))),
         ((σ ++ [bc]) ++ [bt]),
         (mkMatrix (rows tb) (cols ta) (length ((σ ++ [btb]) ++ [bta]))),
         (((σ ++ [btb]) ++ [bta]) ++ [bq]).
  split_and!; [| |done..|].
  - unfold bind at 1. by rewrite Hrun.
  - unfold bind at 1. rewrite HTb. cbv beta iota. fold tb.
    unfold bind at 1. rewrite HTa. cbv beta iota. by fold ta.
  - cbn [data]. rewrite !buf_app_last.
    apply (buffer_ext _ _ (cols b) (rows a)); [lia|lia|done|done|].
    intros j i Hj Hi.
    pose proof (Hct i j Hi Hj) as Hl. cbn [data rows cols p] in Hl.
    rewrite buf_app_last, Hcell in Hl by done. rewrite Hl.
    pose proof (Hcq j i Hj Hi) as Hq. cbn [data rows cols tb ta] in Hq.
    rewrite buf_app_last, buf_app_l, buf_app_last in Hq
      by (rewrite length_app; simpl; lia).
    rewrite Hq, Hab. apply inner_product_ext. intros k Hk. cbn [fst snd].
    rewrite (Hctb k j) by lia. rewrite (Hcta i k) by lia.
    rewrite buf_app_l by done. rewrite Hab. apply fmul_comm.
Qed.

Lemma Product_transpose_witness :
  let σ := [[1; 2]; [3; 4; 5; 6]]%float in
  let a := mkMatrix 1 2 0%nat in
  let b := mkMatrix 2 2 1%nat in
  ∃ l σ1 r σ2,
    (p <- Product a b ;; T p) σ = Ok (l, σ1) ∧
    (tb <- T b ;; ta <- T a ;; Product tb ta) σ = Ok (r, σ2) ∧
    buf σ1 (data l) = buf σ2 (data r).
Proof.
  intros σ a b.
  destruct (Product_transpose σ a b)
    as (l & σ1 & r & σ2 & Hl & Hr & _ & _ & _ & _ & Hbuf);
    [concrete_wf..|reflexivity|vm_compute; by intros [=]|].
  exists l, σ1, r, σ2. exact (conj Hl (conj Hr Hbuf)).
Defined.

(** Rows of a product: slicing rows [from] to [to] out of the product of
    [a] and [b] gives the cells of the product of these rows of [a] with
    [b].  Row [i] of the product is computed from row [i] of [a] and from
    [b] alone, which is what lets [ParallelProduct] give each row to a
    goroutine of its own.  Both sides return when the cell count of the
    product of [a] and [b] is at most the [2^45] cells that [make]
    accepts. *)
Theorem Product_of_row_slice (σ : store) (a b : Matrix) (from to : Z) :
  wf σ a → wf σ b → Cols a = Rows b → Rows a * Cols b ≤ max_len →
  0 ≤ from → from ≤ to → to ≤ Rows a →
  ∃ l σ1 r σ2,
    (p <- Product a b ;; SliceRows p from to) σ = Ok (l, σ1) ∧
    (s <- SliceRows a from to ;; Product s b) σ = Ok (r, σ2) ∧
    Rows l = to - from ∧ Cols l = Cols b ∧
    Rows r = to - from ∧ Cols r = Cols b ∧
    buf σ1 (data l) = buf σ2 (data r).
Proof.
  unfold Rows, Cols. intros Ha Hb Hab Hsz Hf Hft Ht.
  pose proof Ha as [Har Hac Haa Hal Has].
  pose proof Hb as [Hbr Hbc Hba Hbl Hbs].
  destruct (Product_Ok σ a b Ha Hb Hab Hsz) as (bc & Hrun & Hlen & Hcell).
  set (p := mkMatrix (rows a) (cols b) (length σ)) in *.
  assert (wf (σ ++ [bc]) p) as Hp by (apply wf_fresh; (done || lia)).
  pose proof (SliceRows_Ok _ p from to Hp Hf Hft Ht) as Hsp.
  pose proof (SliceRows_Ok σ a from to Ha Hf Hft Ht) as Hsa.
  set (A' := segment (buf σ (data a)) (from * cols a) (to * cols a)) in *.
  set (s := mkMatrix (to - from) (cols a) (length σ)) in *.
  assert (len A' = (to - from) * cols a) as HA'.
  { unfold A'. rewrite length_segment by (rewrite ?Hal; nia). lia. }
  assert (wf (σ ++ [A']) s) as Hs by (apply wf_fresh; (done || nia)).
  assert (wf (σ ++ [A']) b) as Hb' by by apply wf_app.
  destruct (Product_Ok _ s b Hs Hb' Hab) as (bq & Hrunq & Hlq & Hcq);
    [cbn [rows s]; nia|].
  eexists _, _, _, _. split_and!.
  - unfold bind at 1. rewrite Hrun. cbv beta iota. fold p. exact Hsp.
  - unfold bind at 1. rewrite Hsa. cbv beta iota. fold s. exact Hrunq.
  - done.
  - done.
  - done.
  - done.
  - cbn [data rows cols p s]. rewrite !buf_app_last.
    apply (buffer_ext _ _ (to - from) (cols b)); [lia|lia| |done|].
    { rewrite length_segment by (rewrite ?Hlen; nia). lia. }
    intros i j Hi Hj.
    rewrite cell_segment_rows by (done || lia).
    rewrite Hcell by lia. rewrite Hcq by done.
    cbn [data rows cols s]. rewrite buf_app_last, buf_app_l by done.
    apply inner_product_ext. intros k Hk. cbn [fst snd]. f_equal.
    unfold A'. by rewrite cell_segment_rows by (done || lia).
Qed.

Lemma Product_of_row_slice_witness :
  let σ := [[1; 2; 3; 4]; [5; 6; 7; 8]]%float in
  let a := mkMatrix 2 2 0%nat in
  let b := mkMatrix 2 2 1%nat in
  ∃ l σ1 r σ2,
    (p <- Product a b ;; SliceRows p 1 2) σ = Ok (l, σ1) ∧
    (s <- SliceRows a 1 2 ;; Product s b) σ = Ok (r, σ2) ∧
    buf σ1 (data l) = buf σ2 (data r).
Proof.
  intros σ a b.
  destruct (Product_of_row_slice σ a b 1 2)
    as (l & σ1 & r & σ2 & Hl & Hr & _ & _ & _ & _ & Hbuf);
    [concrete_wf..|reflexivity|vm_compute; by intros [=]|lia|lia|cbn; lia|].
  exists l, σ1, r, σ2. exact (conj Hl (conj Hr Hbuf)).
Defined.

(** A product over an inner dimension of zero: for an [n] by [0] and a
    [0] by [m] matrix with [n * m] at most the [2^45] cells that [make]
    accepts, [Product], and [ParallelProduct] under every
    schedule, return the [n] by [m] matrix of zeros; for a larger [n * m]
    that is a Go int both panic in [make], although neither operand has a
    cell. *)
Theorem Product_empty_inner (σ : store) (a b : Matrix) (sched : list nat) :
  wf σ a → wf σ b → Cols a = 0 → Rows b = 0 →
  (Rows a * Cols b ≤ max_len →
     ∃ c σ', Product a b σ = Ok (c, σ') ∧
       ParallelProduct sched a b σ = Ok (c, σ') ∧
       Rows c = Rows a ∧ Cols c = Cols b ∧
       ∀ i j, 0 ≤ i < Rows a → 0 ≤ j < Cols b →
         At c i j σ' = Ok (fzero, σ')) ∧
  (max_len < Rows a * Cols b ≤ int_max →
     Product a b σ = Panic RuntimeMakeSliceLen ∧
     ParallelProduct sched a b σ = Panic RuntimeMakeSliceLen).
Proof.
  unfold Rows, Cols. intros Ha Hb Hca Hrb.
  assert (cols a = rows b) as Hab by lia.
  rewrite ParallelProduct_eq by done.
  split; [|intros Hbig; split; by apply Product_limit].
  intros Hsz.
  destruct (Product_Ok σ a b Ha Hb Hab Hsz) as (bc & Hrun & Hlen & Hcell).
  eexists _, _. split; [exact Hrun|]. split; [done|].
  assert (wf (σ ++ [bc]) (mkMatrix (rows a) (cols b) (length σ))) as Hc.
  { apply wf_fresh; [apply Ha|apply Hb|done..]. }
  split_and!; [done..|]. intros i j Hi Hj.
  rewrite At_Ok by done. cbn [data cols]. rewrite buf_app_last.
  rewrite Hcell by done. unfold inner_product. by rewrite Hca.
Qed.

Lemma Product_empty_inner_witness :
  let σ := [[]; []] in
  ∃ c σ', Product (mkMatrix 2 0 0%nat) (mkMatrix 0 3 1%nat) σ = Ok (c, σ') ∧
          At c 1 2 σ' = Ok (fzero, σ').
Proof.
  intros σ.
  destruct (Product_empty_inner σ (mkMatrix 2 0 0%nat) (mkMatrix 0 3 1%nat) [])
    as [Hok _]; [concrete_wf..|reflexivity|reflexivity|].
  destruct Hok as (c & σ' & Hrun & _ & _ & _ & Hcell);
    [vm_compute; by intros [=]|].
  exists c, σ'. split; [done|]. apply Hcell; cbn; lia.
Defined.

(** ** Concatenating, then slicing *)

Lemma segment_segment {A} (b : list A) lo hi x y :
  0 ≤ lo → 0 ≤ x → x ≤ y → y ≤ hi - lo →
  segment (segment b lo hi) x y = segment b (lo + x) (lo + y).
Proof.
  intros Hlo Hx Hxy Hy. unfold segment.
  rewrite take_drop_commute, take_take, Nat.min_l by lia.
  rewrite <- take_drop_commute, drop_drop.
  f_equal; [lia|]. f_equal. lia.
Qed.

(** Row [i] of the buffer that [ConcatenateCols] builds. *)
Lemma concat_cols_chunk σ ms nrows i :
  Forall (wf σ) ms → Forall (λ m, rows m = nrows) ms → 0 ≤ i < nrows →
  segment (concat_cols σ ms nrows)
          (i * sumZ (cols <$> ms)) ((i + 1) * sumZ (cols <$> ms))
  = mjoin ((λ m, row_of σ m i) <$> ms).
Proof.
  intros Hwf Hrows Hi. unfold concat_cols.
  rewrite (segment_join_chunks _ nrows (sumZ (cols <$> ms)));
    [done|intros k Hk|done].
  by apply (len_join_rows σ ms nrows).
Qed.

(** The parts of a concatenation are found again by slicing: of the
    matrix that [ConcatenateRows] builds of [a] and [b], the first
    [a.Rows()] rows are the cells of [a] and the rows after them the cells
    of [b]; likewise for the columns of the matrix that [ConcatenateCols]
    builds.  The concatenation returns when the cells of [a] and [b]
    together are no more than the [2^45] that [make] accepts. *)
Theorem concat_slice_roundtrip (σ : store) (a b : Matrix) :
  wf σ a → wf σ b →
  (Cols a = Cols b → Rows a + Rows b ≤ int_max →
   (Rows a + Rows b) * Cols a ≤ max_len →
     ∃ c σ1, ConcatenateRows [a; b] σ = Ok (c, σ1) ∧
       (∃ l σ2, SliceRows c 0 (Rows a) σ1 = Ok (l, σ2) ∧
          Rows l = Rows a ∧ Cols l = Cols a ∧
          buf σ2 (data l) = buf σ (data a)) ∧
       (∃ r σ2, SliceRows c (Rows a) (Rows c) σ1 = Ok (r, σ2) ∧
          Rows r = Rows b ∧ Cols r = Cols b ∧
          buf σ2 (data r) = buf σ (data b))) ∧
  (Rows a = Rows b → Cols a + Cols b ≤ int_max →
   Rows a * (Cols a + Cols b) ≤ max_len →
     ∃ c σ1, ConcatenateCols [a; b] σ = Ok (c, σ1) ∧
       (∃ l σ2, SliceCols c 0 (Cols a) σ1 = Ok (l, σ2) ∧
          Rows l = Rows a ∧ Cols l = Cols a ∧
          buf σ2 (data l) = buf σ (data a)) ∧
       (∃ r σ2, SliceCols c (Cols a) (Cols c) σ1 = Ok (r, σ2) ∧
          Rows r = Rows b ∧ Cols r = Cols b ∧
          buf σ2 (data r) = buf σ (data b))).
Proof.
  unfold Rows, Cols. intros Ha Hb.
  pose proof Ha as [Har Hac Haa Hal Has].
  pose proof Hb as [Hbr Hbc Hba Hbl Hbs].
  set (A := buf σ (data a)) in *. set (B := buf σ (data b)) in *.
  split.
  - intros Hc Hsum Hsize.
    assert (sumZ (rows <$> [a; b]) = rows a + rows b) as Hs2
      by (unfold sumZ; simpl; lia).
    pose proof (ConcatenateRows_Ok σ a [b]) as Hrun. cbv zeta in Hrun.
    rewrite Hs2 in Hrun.
    rewrite Hrun by (done || by apply Forall_pair). clear Hrun.
    simpl mjoin. fold A B. rewrite app_nil_r.
    set (c := mkMatrix (rows a + rows b) (cols a) (length σ)).
    assert (wf (σ ++ [A ++ B]) c) as Hwc.
    { apply wf_fresh; [lia|lia|done|].
      unfold len in *. rewrite length_app. nia. }
    exists c, (σ ++ [A ++ B]). split; [done|]. split.
    + rewrite SliceRows_Ok by (done || cbn [rows c]; lia).
      eexists _, _. split; [done|]. cbn [rows cols data c].
      split_and!; [lia|done|]. rewrite !buf_app_last.
      rewrite segment_app_l by lia.
      rewrite Z.mul_0_l, <- Hal. apply segment_all.
    + rewrite SliceRows_Ok by (done || cbn [rows c]; lia).
      eexists _, _. split; [done|]. cbn [rows cols data c].
      split_and!; [lia|done|]. rewrite !buf_app_last.
      replace ((rows a + rows b) * cols a)
        with (rows a * cols a + rows b * cols b) by nia.
      rewrite <- (Z.add_0_r (rows a * cols a)) at 1.
      rewrite (segment_app_r _ _ _ _ _ Hal) by lia.
      rewrite <- Hbl. apply segment_all.
  - intros Hr Hsum Hsize.
    assert (sumZ (cols <$> [a; b]) = cols a + cols b) as Hs2
      by (unfold sumZ; simpl; lia).
    pose proof (ConcatenateCols_Ok σ a [b]) as Hrun. cbv zeta in Hrun.
    rewrite Hs2 in Hrun.
    rewrite Hrun by (done || by apply Forall_pair). clear Hrun.
    set (C := concat_cols σ [a; b] (rows a)).
    set (c := mkMatrix (rows a) (cols a + cols b) (length σ)).
    assert (len C = rows a * (cols a + cols b)) as HC.
    { unfold C. rewrite len_concat_cols, Hs2; [done|lia|..];
        by apply Forall_pair. }
    assert (wf (σ ++ [C]) c) as Hwc by (apply wf_fresh; (done || lia)).
    assert (∀ i, 0 ≤ i < rows a →
              segment C (i * (cols a + cols b)) ((i + 1) * (cols a + cols b))
              = row_of σ a i ++ row_of σ b i) as Hchunk.
    { intros i Hi. unfold C. rewrite <- Hs2.
      rewrite concat_cols_chunk by (done || by apply Forall_pair).
      simpl. by rewrite app_nil_r. }
    exists c, (σ ++ [C]). split; [done|]. split.
    + rewrite SliceCols_Ok by (done || cbn [cols c]; lia).
      eexists _, _. split; [done|]. cbn [rows cols data c].
      split_and!; [done|lia|]. rewrite !buf_app_last.
      rewrite <- (join_rows A (rows a) (cols a)) by (done || lia).
      unfold slice_cols. f_equal. apply list_fmap_ext.
      intros idx i Hi%lookup_seqZ.
      rewrite <- (segment_segment C _ ((i + 1) * (cols a + cols b)))
        by nia.
      rewrite Hchunk by lia.
      pose proof (len_row_of σ a i Ha ltac:(lia)) as Hra.
      rewrite segment_app_l by lia.
      rewrite <- Hra at 1. by rewrite segment_all.
    + rewrite SliceCols_Ok by (done || cbn [cols c]; lia).
      eexists _, _. split; [done|]. cbn [rows cols data c].
      split_and!; [done|lia|]. rewrite !buf_app_last.
      rewrite <- (join_rows B (rows b) (cols b)) by (done || lia).
      unfold slice_cols. rewrite Hr. f_equal. apply list_fmap_ext.
      intros idx i Hi%lookup_seqZ.
      rewrite <- (segment_segment C _ ((i + 1) * (cols a + cols b)))
        by nia.
      rewrite Hchunk by lia.
      pose proof (len_row_of σ a i Ha ltac:(lia)) as Hra.
      pose proof (len_row_of σ b i Hb ltac:(lia)) as Hrb.
      rewrite <- (Z.add_0_r (cols a)) at 1.
      rewrite (segment_app_r _ _ _ _ _ Hra) by lia.
      rewrite <- Hrb at 1. by rewrite segment_all.
Qed.

Lemma concat_slice_roundtrip_witness :
  let σ := [[1; 2]; [3; 4; 5; 6]]%float in
  let a := mkMatrix 1 2 0%nat in
  let b := mkMatrix 2 2 1%nat in
  ∃ c σ1 r σ2, ConcatenateRows [a; b] σ = Ok (c, σ1) ∧
    SliceRows c 1 3 σ1 = Ok (r, σ2) ∧
    buf σ2 (data r) = [3; 4; 5; 6]%float.
Proof.
  intros σ a b.
  destruct (concat_slice_roundtrip σ a b) as [Hrows _]; [concrete_wf..|].
  destruct Hrows as (c & σ1 & Hrun & _ & r & σ2 & Hs & _ & _ & Hbuf);
    [reflexivity|vm_compute; by intros [=]..|].
  exists c, σ1, r, σ2. split; [done|].
  injection Hrun as <- <-. by split.
Defined.

(** The transpose of two matrices side by side is their transposes
    stacked: [T] of [ConcatenateCols(a, b)] has the dimensions and the
    cells of [ConcatenateRows(a.T(), b.T())].  Both return when the cells
    of [a] and [b] together are no more than the [2^45] that [make]
    accepts. *)
Theorem T_of_concat (σ : store) (a b : Matrix) :
  wf σ a → wf σ b → Rows a = Rows b → Cols a + Cols b ≤ int_max →
  Rows a * (Cols a + Cols b) ≤ max_len →
  ∃ l σ1 r σ2,
    (c <- ConcatenateCols [a; b] ;; T c) σ = Ok (l, σ1) ∧
    (ta <- T a ;; tb <- T b ;; ConcatenateRows [ta; tb]) σ = Ok (r, σ2) ∧
    Rows l = Cols a + Cols b ∧ Cols l = Rows a ∧
    Rows r = Cols a + Cols b ∧ Cols r = Rows a ∧
    buf σ1 (data l) = buf σ2 (data r).
Proof.
  unfold Rows, Cols. intros Ha Hb Hr Hsum Hsize.
  pose proof Ha as [Har Hac Haa Hal Has].
  pose proof Hb as [Hbr Hbc Hba Hbl Hbs].
  set (A := buf σ (data a)) in *. set (B := buf σ (data b)) in *.
  assert (sumZ (cols <$> [a; b]) = cols a + cols b) as Hs2
    by (unfold sumZ; simpl; lia).
  pose proof (ConcatenateCols_Ok σ a [b]) as Hrun. cbv zeta in Hrun.
  rewrite Hs2 in Hrun.
  specialize (Hrun ltac:(by apply Forall_pair) ltac:(by apply Forall_pair)
                Hsum Hsize).
  set (C := concat_cols σ [a; b] (rows a)) in *.
  set (c := mkMatrix (rows a) (cols a + cols b) (length σ)) in *.
  assert (len C = rows a * (cols a + cols b)) as HC.
  { unfold C. rewrite len_concat_cols, Hs2; [done|lia|..];
      by apply Forall_pair. }
  assert (wf (σ ++ [C]) c) as Hwc by (apply wf_fresh; (done || lia)).
  destruct (T_cells _ c Hwc) as (bt & HT & Hlt & Hct).
  cbn [rows cols data c] in HT, Hlt, Hct. rewrite buf_app_last in Hct.
  destruct (T_cells σ a Ha) as (bta & HTa & Hlta & Hcta). fold A in Hcta.
  set (ta := mkMatrix (cols a) (rows a) (length σ)) in *.
  assert (wf (σ ++ [bta]) ta) as Hta by (apply wf_fresh; (done || lia)).
  assert (wf (σ ++ [bta]) b) as Hb3 by by apply wf_app.
  destruct (T_cells _ b Hb3) as (btb & HTb & Hltb & Hctb).
  rewrite buf_app_l in Hctb by done. fold B in Hctb.
  set (tb := mkMatrix (cols b) (rows b) (length (σ ++ [bta]))) in *.
  assert (wf ((σ ++ [bta]) ++ [btb]) tb) as Htb
    by (apply wf_fresh; (done || lia)).
  assert (wf ((σ ++ [bta]) ++ [btb]) ta) as Hta4 by by apply wf_app.
  assert (sumZ (rows <$> [ta; tb]) = cols a + cols b) as Hs3
    by (unfold sumZ; simpl; lia).
  pose proof (ConcatenateRows_Ok ((σ ++ [bta]) ++ [btb]) ta [tb]) as Hrun2.
  cbv zeta in Hrun2. rewrite Hs3 in Hrun2.
  specialize (Hrun2 ltac:(by apply Forall_pair)
                ltac:(apply Forall_pair; cbn [cols ta tb]; lia)
                Hsum ltac:(cbn [cols ta]; lia)).
  simpl mjoin in Hrun2. rewrite app_nil_r in Hrun2.
  rewrite buf_app_last in Hrun2.
  cbn [data ta] in Hrun2.
  rewrite buf_app_l, buf_app_last in Hrun2
    by (rewrite length_app; simpl; lia).
  eexists _, _, _, _. split_and!.
  - unfold bind at 1. rewrite Hrun. cbv beta iota. exact HT.
  - unfold bind at 1. rewrite HTa. cbv beta iota. fold ta.
    unfold bind at 1. rewrite HTb. cbv beta iota. fold tb. exact Hrun2.
  - done.
  - done.
  - done.
  - done.
  - cbn [data cols ta]. rewrite !buf_app_last.
    assert (length bta = Z.to_nat (cols a * rows a)) as Hnta
      by (unfold len in Hlta; lia).
    apply (buffer_ext _ _ (cols a + cols b) (rows a)); [lia|lia|done| |].
    { unfold len in *. rewrite length_app. nia. }
    intros j i Hj Hi. rewrite (Hct i j) by lia.
    pose proof (len_row_of σ a i Ha Hi) as Hra.
    pose proof (len_row_of σ b i Hb ltac:(lia)) as Hrb.
    unfold cell at 1.
    rewrite <- (lookup_segment C (i * (cols a + cols b))
                  ((i + 1) * (cols a + cols b))) by nia.
    unfold C. rewrite <- Hs2.
    rewrite concat_cols_chunk by (done || by apply Forall_pair).
    simpl mjoin. rewrite app_nil_r. unfold cell at 1.
    destruct (decide (j < cols a)) as [Hjl|Hjr].
    + rewrite !lookup_app_l by (unfold len in *; nia).
      unfold row_of. fold A. rewrite lookup_segment by nia.
      fold (cell A (cols a) i j). rewrite <- (Hcta i j) by lia. done.
    + rewrite !lookup_app_r by (unfold len in *; nia).
      replace (Z.to_nat j - length (row_of σ a i))%nat
        with (Z.to_nat (j - cols a)) by (unfold len in Hra; lia).
      replace (Z.to_nat (j * rows a + i) - length bta)%nat
        with (Z.to_nat ((j - cols a) * rows a + i)) by nia.
      unfold row_of. fold B. rewrite lookup_segment by nia.
      fold (cell B (cols b) i (j - cols a)).
      rewrite <- (Hctb i (j - cols a)) by lia. by rewrite Hr.
Qed.

Lemma T_of_concat_witness :
  let σ := [[1; 2]; [3; 4; 5; 6]]%float in
  let a := mkMatrix 2 1 0%nat in
  let b := mkMatrix 2 2 1%nat in
  ∃ l σ1 r σ2,
    (c <- ConcatenateCols [a; b] ;; T c) σ = Ok (l, σ1) ∧
    (ta <- T a ;; tb <- T b ;; ConcatenateRows [ta; tb]) σ = Ok (r, σ2) ∧
    buf σ1 (data l) = buf σ2 (data r).
Proof.
  intros σ a b.
  destruct (T_of_concat σ a b)
    as (l & σ1 & r & σ2 & Hl & Hr & _ & _ & _ & _ & Hbuf);
    [concrete_wf|concrete_wf|reflexivity|
     vm_compute; by intros [=]|vm_compute; by intros [=]|].
  exists l, σ1, r, σ2. exact (conj Hl (conj Hr Hbuf)).
Defined.

(** ** [Clone] and [Apply] *)

(** [Apply] on a clone leaves the cloned matrix alone: the clone has a
    buffer of its own, so after [c := m.Clone(); c.Apply(f)] the clone
    reads [f(i, j)] and [m] still reads its old cells. *)
Theorem Clone_isolates (σ : store) (m : Matrix) (f : Z → Z → float64) :
  wf σ m →
  ∃ c σ', (c <- Clone m ;; Apply c f ;; ret c) σ = Ok (c, σ') ∧
    Rows c = Rows m ∧ Cols c = Cols m ∧ data c ≠ data m ∧
    buf σ' (data m) = buf σ (data m) ∧
    ∀ i j, 0 ≤ i < Rows m → 0 ≤ j < Cols m →
      At c i j σ' = Ok (f i j, σ') ∧
      At m i j σ' = Ok (cell (buf σ (data m)) (Cols m) i j, σ').
Proof.
  unfold Rows, Cols. intros Hm. pose proof Hm as [Hr Hc Ha Hl Hs].
  mstep Clone_Ok by done.
  set (c := mkMatrix (rows m) (cols m) (length σ)).
  assert (wf (σ ++ [buf σ (data m)]) c) as Hwc by by apply wf_fresh.
  mstep Apply_Ok by done. unfold ret.
  cbn [data rows cols c]. rewrite buf_app_last, insert_app_last.
  set (W := writes _ _ _ _).
  assert (len W = rows m * cols m) as HW by (unfold W; by rewrite len_writes).
  assert (wf (σ ++ [W]) c) as Hwc' by by apply wf_fresh.
  exists c, (σ ++ [W]). split_and!; [done|done|done|cbn; lia| |].
  - by apply buf_app_l.
  - intros i j Hi Hj. split.
    + rewrite At_Ok by done. cbn [data cols c]. rewrite buf_app_last.
      unfold W. by rewrite (cell_writes_row_major (rows m) (cols m)).
    + rewrite At_Ok by (done || by apply wf_app). by rewrite buf_app_l.
Qed.

Lemma Clone_isolates_witness :
  let σ := [[1; 2; 3; 4]]%float in
  let m := mkMatrix 2 2 0%nat in
  ∃ c σ', (c <- Clone m ;; Apply c (λ i j, 7%float) ;; ret c) σ = Ok (c, σ') ∧
          At c 1 0 σ' = Ok (7%float, σ') ∧ At m 1 0 σ' = Ok (3%float, σ').
Proof.
  intros σ m.
  destruct (Clone_isolates σ m (λ i j, 7%float))
    as (c & σ' & Hrun & _ & _ & _ & _ & Hcell); [concrete_wf|].
  exists c, σ'. split; [done|].
  destruct (Hcell 1 0) as [Hc Hm]; [cbn; lia..|]. by split.
Defined.
